(** * Digital garden: L-system growth engine over a mass-spring backend

    A shallow embedding of [lsystem.js] (class [LSystem]), [physics.js]
    (class [MatterPhysics]), [plant.js] (class [ToxicPlant]) and
    [handAttractors.js] (class [HandAttractors]), followed by the properties
    of the growth engine that are stated about them.  Parts V and VI extend
    it to the garden ([EnhancedGarden]), the gesture detector
    ([HandGestures]), the hand input of [HandAttractors], the atmosphere
    ([Atmosphere]) and the wind of [sketch.js].

    Conventions of the embedding.
    - A JavaScript number is an exact rational ([Q]).  The places where the
      source can leave the finite numbers are written out: [0 / 0] is [NaN]
      (type [jsnum], used for the force vector of the hand attractor).
    - [Math.sqrt], [cos], [sin] and the constant [PI] are taken from a
      [MathEnv]; every definition is a function of that environment, and
      [rationalMath] is one executable environment.
    - [random()] reads the next draw of an explicit generator state [Rng].
    - A JavaScript object that is shared and mutated (a Matter body, a Matter
      constraint) lives in a heap and is referred to by its index there.
    - A [throw] is the [Throw] case of [completion]. *)

From Stdlib Require Import List String Ascii Bool Arith ZArith NArith QArith Qround Qminmax Qabs.
From Stdlib Require Import Decimal DecimalString DecimalPos DecimalN Lia Lqa.
Import ListNotations.

Set Implicit Arguments.
Local Open Scope Q_scope.

(* ================================================================== *)
(** * Part I. The embedding                                             *)
(* ================================================================== *)

(** ** JavaScript and p5.js prelude *)

Module JS.

Inductive JsError := TypeError (msg : string).

(** Result of running a piece of code that may [throw]. *)
Inductive completion (A : Type) :=
| Normal (a : A)
| Throw (e : JsError).
Arguments Normal {A} a.
Arguments Throw {A} e.

Definition bind {A B} (c : completion A) (k : A -> completion B) : completion B :=
  match c with
  | Normal a => k a
  | Throw e => Throw e
  end.

(** [a < b] and [a >= b] on numbers. *)
Definition Qltb (a b : Q) : bool := negb (Qle_bool b a).
Definition Qgeb (a b : Q) : bool := Qle_bool b a.
Definition Qgtb (a b : Q) : bool := negb (Qle_bool a b).

(** [x || d] on a number: [0] is falsy. *)
Definition orNum (x d : Q) : Q := if Qeq_bool x 0 then d else x.

(** The transcendental part of [Math] and p5. *)
Class MathEnv := {
  PI : Q;
  cos : Q -> Q;
  sin : Q -> Q;
  Math_sqrt : Q -> Q
}.

(** The pseudo-random generator behind p5's [random]: the sequence of
    draws in [0,1) and how many were consumed. *)
Record Rng := { draws : nat -> Q; cursor : nat }.

(** [random()]. *)
Definition random (g : Rng) : Q * Rng :=
  (draws g (cursor g), {| draws := draws g; cursor := S (cursor g) |}).

(** [random(min, max)]. *)
Definition random2 (lo hi : Q) (g : Rng) : Q * Rng :=
  let (rand, g') := random g in (rand * (hi - lo) + lo, g').

(** p5 [map(n, start1, stop1, start2, stop2)], without clamping. *)
Definition map (n start1 stop1 start2 stop2 : Q) : Q :=
  (n - start1) / (stop1 - start1) * (stop2 - start2) + start2.

(** p5 [dist(x1, y1, x2, y2)]. *)
Definition dist `{MathEnv} (x1 y1 x2 y2 : Q) : Q :=
  Math_sqrt ((x2 - x1) * (x2 - x1) + (y2 - y1) * (y2 - y1)).

(** Decimal digits of a natural number. *)
Definition digits (n : N) : string := NilZero.string_of_uint (N.to_uint n).

(** [x.toFixed(2)]: [n] is the integer with [n / 100] closest to [|x|],
    the larger one on a tie; a negative [x] keeps its sign even when [n]
    is [0] (["-0.00"]).  (Magnitudes from [1e21] on, which print in
    exponent form, do not occur among plant coordinates.) *)
Definition toFixed2 (x : Q) : string :=
  let neg := Qltb x 0 in
  let n := Z.to_N (Qfloor (Qabs x * 100 + (1 # 2))%Q) in
  let frac := N.modulo n 100 in
  ((if neg then "-" else EmptyString) ++ digits (N.div n 100) ++ "." ++
   digits (N.div frac 10) ++ digits (N.modulo frac 10))%string.

End JS.
Export JS.

(** p5 colours are opaque to the growth engine: three channel values. *)
Record Color := color { channel1 : Z; channel2 : Z; channel3 : Z }.

(** ** lsystem.js *)

Module LSystem.

(** A value of the rule table. *)
Inductive Rule :=
| RString (s : string)                       (* 'F': 'FF+[+F]-[-F]' *)
| RWeighted (choices : list (string * Q))    (* array of [string, probability] *)
| RFunction (f : Rng -> string * Rng).       (* stochastic rule *)

(** The [rules] object, read with [this.rules[current]]. *)
Definition RuleTable := ascii -> option Rule.

(** Truthiness of [this.rules[current]]: a missing entry and the empty
    string are falsy, arrays and functions are truthy. *)
Definition truthy (r : option Rule) : bool :=
  match r with
  | None => false
  | Some (RString s) => negb (String.eqb s EmptyString)
  | Some _ => true
  end.

Record Segment := {
  x1 : Q; y1 : Q; x2 : Q; y2 : Q;
  depth : nat;
  thickness : Q;
  originalAngle : Q;
  segColor : Color;
  isRoot : bool
}.

Record Fruit := {
  fruitX : Q; fruitY : Q;
  size : Q;
  fruitCol : Color;
  fruitAngle : Q
}.

(** The [config] argument of the constructor; [None] is an absent field. *)
Record Config := {
  cfg_axiom : option string;
  cfg_rules : option RuleTable;
  cfg_angle : option Q;
  cfg_iterations : option Q;
  cfg_colorVariation : option bool;
  cfg_fruitProbability : option Q;
  cfg_fruitColor : option Color;
  cfg_leafColor : option Color;
  cfg_stemColor : option Color
}.

Record t := {
  axiom : string;
  rules : RuleTable;
  angle : Q;
  iterations : Q;
  segments : list Segment;
  colorVariation : bool;
  fruitProbability : Q;
  fruitColor : Color;
  leafColor : Color;
  stemColor : Color;
  production : string;
  fruits : list Fruit
}.

Definition defaultRules : RuleTable :=
  fun c => if Ascii.eqb c "F" then Some (RString "FF+[+F]-[-F]") else None.

(** The safety cap of [generate]. *)
Definition cap : nat := 2000.

(** The walk over a weighted rule: the first bucket whose cumulative
    probability exceeds the draw. *)
Fixpoint pickWeighted (choices : list (string * Q)) (rand cumulativeProbability : Q)
  : option string :=
  match choices with
  | [] => None
  | (rule, probability) :: rest =>
      let cumulativeProbability := cumulativeProbability + probability in
      if Qltb rand cumulativeProbability then Some rule
      else pickWeighted rest rand cumulativeProbability
  end.

(** What one symbol contributes to [nextGen]. *)
Definition rewriteSymbol (rules : RuleTable) (current : ascii) (g : Rng) : string * Rng :=
  if truthy (rules current) then
    match rules current with
    | Some (RFunction f) => f g
    | Some (RWeighted choices) =>
        let (rand, g') := random g in
        match pickWeighted choices rand 0 with
        | Some rule => (rule, g')
        | None => (String current EmptyString, g')
        end
    | Some (RString s) => (s, g)
    | None => (String current EmptyString, g)
    end
  else (String current EmptyString, g).

(** The inner loop of [generate], over the characters of [result]. *)
Fixpoint rewriteAll (rules : RuleTable) (result nextGen : string) (g : Rng) : string * Rng :=
  match result with
  | EmptyString => (nextGen, g)
  | String current rest =>
      let (piece, g') := rewriteSymbol rules current g in
      rewriteAll rules rest (nextGen ++ piece)%string g'
  end.

(** The outer loop of [generate]: [n] iterations are left. *)
Fixpoint iterate (rules : RuleTable) (n : nat) (result : string) (g : Rng) : string * Rng :=
  match n with
  | O => (result, g)
  | S n' =>
      let (nextGen, g') := rewriteAll rules result EmptyString g in
      if (cap <? String.length nextGen)%nat
      then (substring 0 cap nextGen, g')          (* truncate, break *)
      else iterate rules n' nextGen g'
  end.

(** The passes of [for (let i = 0; i < this.iterations; i++)]: one for
    each whole number from [0] that is below the count, so none for a count
    that is not positive, and one more than the whole part for a count with
    a fraction. *)
Definition passes (iterations : Q) : nat := Z.to_nat (Qceiling iterations).

(** [generate()]: sets and returns [this.production]. *)
Definition generate (l : t) (g : Rng) : t * Rng :=
  let (result, g') := iterate (rules l) (passes (iterations l)) (axiom l) g in
  ({| axiom := axiom l; rules := rules l; angle := angle l;
      iterations := iterations l; segments := segments l;
      colorVariation := colorVariation l; fruitProbability := fruitProbability l;
      fruitColor := fruitColor l; leafColor := leafColor l; stemColor := stemColor l;
      production := result; fruits := fruits l |}, g').

Definition orElse {A} (o : option A) (d : A) : A :=
  match o with Some a => a | None => d end.

(** [new LSystem(config)]. *)
Definition new `{MathEnv} (config : Config) (g : Rng) : t * Rng :=
  generate
    {| axiom := match cfg_axiom config with
                | Some s => if String.eqb s EmptyString then "F"%string else s
                | None => "F"%string
                end;
       rules := orElse (cfg_rules config) defaultRules;
       angle := orNum (orElse (cfg_angle config) 0) (PI / 7);
       (* [Math.min(config.iterations || 2, 4)]: an absent or zero count
          is [2]; a negative count is kept *)
       iterations := Qmin (orNum (orElse (cfg_iterations config) 0) 2) 4;
       segments := [];
       colorVariation := orElse (cfg_colorVariation config) false;
       fruitProbability := orElse (cfg_fruitProbability config) 0;
       fruitColor := orElse (cfg_fruitColor config) (color 255 50 50);
       leafColor := orElse (cfg_leafColor config) (color 100 220 50);
       stemColor := orElse (cfg_stemColor config) (color 80 120 40);
       production := EmptyString;
       fruits := [] |} g.


(** *** The turtle: [process()] *)

(** An entry of [stack]: [{x, y, angle, thickness, color}]. *)
Record SavedState := {
  savedX : Q; savedY : Q;
  savedAngle : Q;
  savedThickness : Q;
  savedColor : Color
}.

(** The variables of [process()] while it walks the production: the
    locals [x], [y], [angle], [thickness], [color], [stack] (its top is
    the head of the list), [segments], [fruits], the field [this.angle]
    that the symbols [<] and [>] rescale, and the generator. *)
Record Turtle := {
  x : Q; y : Q;
  heading : Q;
  thick : Q;
  pen : Color;
  stack : list SavedState;
  drawn : list Segment;
  anchors : list Fruit;
  thisAngle : Q;
  rng : Rng
}.

Definition isChar (a : ascii) (s : string) : bool := String.eqb (String a EmptyString) s.

(** One turn of the [switch] in [process()]. *)
Definition step `{MathEnv} (l : t) (s : Turtle) (char : ascii) : completion Turtle :=
  if isChar char "F" || isChar char "G" then
    let oldX := x s in
    let oldY := y s in
    let x' := x s + cos (heading s) * 10 in
    let y' := y s + sin (heading s) * 10 in
    Normal {| x := x'; y := y'; heading := heading s; thick := thick s; pen := pen s;
              stack := stack s;
              drawn := drawn s ++
                [{| x1 := oldX; y1 := oldY; x2 := x'; y2 := y';
                    depth := List.length (stack s);
                    thickness := thick s;
                    originalAngle := heading s;
                    segColor := pen s;
                    isRoot := Nat.eqb (List.length (stack s)) 0 && Qgeb oldY (-1) |}];
              anchors := anchors s; thisAngle := thisAngle s; rng := rng s |}
  else if isChar char "f" then
    Normal {| x := x s + cos (heading s) * 10; y := y s + sin (heading s) * 10;
              heading := heading s; thick := thick s; pen := pen s; stack := stack s;
              drawn := drawn s; anchors := anchors s; thisAngle := thisAngle s;
              rng := rng s |}
  else if isChar char "+" then
    let (r, g') := random2 (8 # 10) 3 (rng s) in
    Normal {| x := x s; y := y s; heading := heading s + thisAngle s * r;
              thick := thick s; pen := pen s; stack := stack s; drawn := drawn s;
              anchors := anchors s; thisAngle := thisAngle s; rng := g' |}
  else if isChar char "-" then
    let (r, g') := random2 (8 # 10) 3 (rng s) in
    Normal {| x := x s; y := y s; heading := heading s - thisAngle s * r;
              thick := thick s; pen := pen s; stack := stack s; drawn := drawn s;
              anchors := anchors s; thisAngle := thisAngle s; rng := g' |}
  else if isChar char "<" then
    Normal {| x := x s; y := y s; heading := heading s; thick := thick s; pen := pen s;
              stack := stack s; drawn := drawn s; anchors := anchors s;
              thisAngle := thisAngle s * (8 # 10); rng := rng s |}
  else if isChar char ">" then
    Normal {| x := x s; y := y s; heading := heading s; thick := thick s; pen := pen s;
              stack := stack s; drawn := drawn s; anchors := anchors s;
              thisAngle := thisAngle s * (125 # 100); rng := rng s |}
  else if isChar char "[" then
    Normal {| x := x s; y := y s; heading := heading s;
              thick := thick s * (75 # 100); pen := pen s;
              stack := {| savedX := x s; savedY := y s; savedAngle := heading s;
                          savedThickness := thick s; savedColor := pen s |} :: stack s;
              drawn := drawn s; anchors := anchors s; thisAngle := thisAngle s;
              rng := rng s |}
  else if isChar char "]" then
    match stack s with
    | state :: rest =>
        Normal {| x := savedX state; y := savedY state; heading := savedAngle state;
                  thick := savedThickness state; pen := savedColor state;
                  stack := rest; drawn := drawn s; anchors := anchors s;
                  thisAngle := thisAngle s; rng := rng s |}
    | [] => Normal s
    end
  else if isChar char "!" then
    Normal {| x := x s; y := y s; heading := heading s; thick := thick s * (8 # 10);
              pen := pen s; stack := stack s; drawn := drawn s; anchors := anchors s;
              thisAngle := thisAngle s; rng := rng s |}
  else if Ascii.eqb char "034" then
    Normal {| x := x s; y := y s; heading := heading s; thick := thick s * (12 # 10);
              pen := pen s; stack := stack s; drawn := drawn s; anchors := anchors s;
              thisAngle := thisAngle s; rng := rng s |}
  else if isChar char "*" then
    let (r, g1) := random (rng s) in
    if Qltb r (fruitProbability l) then
      let (sz, g2) := random2 5 12 g1 in
      Normal {| x := x s; y := y s; heading := heading s; thick := thick s; pen := pen s;
                stack := stack s; drawn := drawn s;
                anchors := anchors s ++
                  [{| fruitX := x s; fruitY := y s; size := sz;
                      fruitCol := fruitColor l; fruitAngle := heading s |}];
                thisAngle := thisAngle s; rng := g2 |}
    else
      Normal {| x := x s; y := y s; heading := heading s; thick := thick s; pen := pen s;
                stack := stack s; drawn := drawn s; anchors := anchors s;
                thisAngle := thisAngle s; rng := g1 |}
  else if isChar char "c" then
    if colorVariation l then
      (* [color = color(h + random(-20, 20), ...)]: inside [process()] the
         name [color] is the local [let color = this.stemColor], a p5.Color
         object, so the call throws once its arguments are evaluated. *)
      Throw (TypeError "color is not a function")
    else Normal s
  else Normal s.

(** The [for] loop of [process()] from the state [s] on. *)
Fixpoint walk `{MathEnv} (l : t) (s : Turtle) (production : string) : completion Turtle :=
  match production with
  | EmptyString => Normal s
  | String char rest => bind (step l s char) (fun s' => walk l s' rest)
  end.

(** The state [process()] starts from. *)
Definition start `{MathEnv} (l : t) (g : Rng) : Turtle :=
  {| x := 0; y := 0; heading := - PI / 2; thick := 1; pen := stemColor l;
     stack := []; drawn := []; anchors := []; thisAngle := angle l; rng := g |}.

(** [process()]: stores [segments] and [fruits] and returns the segments. *)
Definition process `{MathEnv} (l : t) (g : Rng) : completion (t * Rng) :=
  bind (walk l (start l g) (production l)) (fun s =>
    Normal ({| axiom := axiom l; rules := rules l; angle := thisAngle s;
               iterations := iterations l; segments := drawn s;
               colorVariation := colorVariation l;
               fruitProbability := fruitProbability l;
               fruitColor := fruitColor l; leafColor := leafColor l;
               stemColor := stemColor l; production := production l;
               fruits := anchors s |}, rng s)).

(** *** The presets *)

Definition oneRule (c : string) (r : string) : RuleTable :=
  fun a => if isChar a c then Some (RString r) else None.

Definition twoRules (c1 r1 c2 r2 : string) : RuleTable :=
  fun a => if isChar a c1 then Some (RString r1)
           else if isChar a c2 then Some (RString r2) else None.

Definition preset `{MathEnv} (ax : string) (rl : RuleTable) (ang : Q) (it : Q)
    (fp : option Q) (fc : option Color) (lc sc : Color) (cv : option bool) : Config :=
  {| cfg_axiom := Some ax; cfg_rules := Some rl; cfg_angle := Some ang;
     cfg_iterations := Some it; cfg_colorVariation := cv;
     cfg_fruitProbability := fp; cfg_fruitColor := fc;
     cfg_leafColor := Some lc; cfg_stemColor := Some sc |}.

Definition dq : string := String "034" EmptyString.

Definition createSimplePlant `{MathEnv} :=
  new (preset "F" (oneRule "F" "FF+[+F]-[-F]+[+F]-[-F]") (PI / 6) 2
         None None (color 100 220 50) (color 80 120 40) None).

Definition createTree `{MathEnv} :=
  new (preset "F" (oneRule "F" "FF[+F][-F][+F]") (PI / 7) 3
         None None (color 60 200 40) (color 100 70 20) None).

Definition createFern `{MathEnv} :=
  new (preset "X" (twoRules "X" "F-[[X]+X]+F[+FX]-X" "F" "FF") (PI / 8) 2
         None None (color 70 200 40) (color 70 130 40) None).

Definition createBush `{MathEnv} :=
  new (preset "F" (oneRule "F" "FF+[+F][-F]+[+F][-F]") (PI / 4) 3
         None None (color 120 210 40) (color 60 100 30) None).

Definition createFlower `{MathEnv} :=
  new (preset "X" (twoRules "X" "F[+X][-X]FX" "F" "FFF") (PI / 5) 3
         (Some (7 # 10)) (Some (color 255 50 100))
         (color 100 200 50) (color 100 140 40) (Some true)).

Definition createCherryTree `{MathEnv} :=
  new (preset "F" (oneRule "F" "FFF-[-F+F+F*]+[+F-F-F*]") PI 2
         (Some (4 # 10)) (Some (color 220 20 60))
         (color 120 180 40) (color 80 40 20) None).

Definition createCactus `{MathEnv} :=
  new (preset "F"
         (oneRule "F" ("[+" ++ dq ++ "F][-F][+F][-F]FF[+F][-F]FFF")%string) (PI / 2) 2
         None None (color 50 180 50) (color 50 150 50) None).

Definition createThickBush `{MathEnv} :=
  new (preset "F"
         (oneRule "F" ("[+" ++ dq ++ "F][" ++ dq ++ "F][+F]F[+" ++ dq ++ "F][" ++ dq ++
                       "F][+F][-F]F[+F][-F][+F][-F][+F][-F]FF")%string) (PI / 6) 2
         None None (color 200 250 30) (color 70 90 30) None).

Definition createBerryBush `{MathEnv} :=
  new (preset "X" (twoRules "X" "F[-X][+X]FXFF*" "F" "FF*") (PI / 4) 3
         (Some 1) (Some (color 100 50 200))
         (color 60 180 60) (color 80 50 20) None).

Definition createCrystalPlant `{MathEnv} :=
  new (preset "X" (twoRules "X" "F[-X]*[+X]*FXF[-X]*[+X]" "F" "F*F") (PI / 3) 2
         (Some (9 # 10)) (Some (color 80 200 255))
         (color 150 230 255) (color 100 180 220) (Some true)).

Definition plantTypes : list string :=
  ["simple"; "tree"; "fern"; "bush"; "flower";
   "cherry"; "cactus"; "thickbush"; "berry"; "crystal"]%string.

(** The [switch] shared by [createRandomPlant] and the plant constructor. *)
Definition createByType `{MathEnv} (type : string) (g : Rng) : t * Rng :=
  if String.eqb type "tree" then createTree g
  else if String.eqb type "fern" then createFern g
  else if String.eqb type "bush" then createBush g
  else if String.eqb type "flower" then createFlower g
  else if String.eqb type "cherry" then createCherryTree g
  else if String.eqb type "cactus" then createCactus g
  else if String.eqb type "thickbush" then createThickBush g
  else if String.eqb type "berry" then createBerryBush g
  else if String.eqb type "crystal" then createCrystalPlant g
  else createSimplePlant g.

(** [createRandomPlant()]: [types[Math.floor(random(types.length))]]. *)
Definition createRandomPlant `{MathEnv} (g : Rng) : t * Rng :=
  let (r, g') := random g in
  let i := Z.to_nat (Qfloor (r * 10)) in
  createByType (nth i plantTypes "undefined"%string) g'.

End LSystem.

Definition emptyConfig : LSystem.Config :=
  {| LSystem.cfg_axiom := None; LSystem.cfg_rules := None; LSystem.cfg_angle := None;
     LSystem.cfg_iterations := None; LSystem.cfg_colorVariation := None;
     LSystem.cfg_fruitProbability := None; LSystem.cfg_fruitColor := None;
     LSystem.cfg_leafColor := None; LSystem.cfg_stemColor := None |}.

(** ** physics.js *)

Module MatterPhysics.

(** A reference to a heap object: its allocation index. *)
Definition ref := nat.

(** A Matter body as far as the plant code reads and writes it. *)
Record Body := {
  position : Q * Q;
  mass : Q;
  circleRadius : Q;
  isStatic : bool;
  original : option (Q * Q);          (* [originalX], [originalY] *)
  fruitInfo : option (Q * Color)      (* [{size, color}] *)
}.

(** Which of the three call sites of [createSpring] made a constraint.
    It is a ghost label, absent from the source objects. *)
Inductive SpringOrigin := SegmentSpring | AngleSpring | FruitSpring.

(** A Matter constraint with the fields the plant code adds to it. *)
Record Constraint := {
  bodyA : ref;
  bodyB : ref;
  length : Q;
  stiffness : Q;
  damping : Q;
  a : ref;
  b : ref;
  segmentColor : option Color;
  segmentThickness : option Q;
  springDepth : option nat;
  origin : SpringOrigin
}.

(** The step of the Matter engine, which belongs to the library: from the
    bodies and constraints of the composite to the bodies after
    [Matter.Engine.update(engine, delta)]. *)
Class Engine := {
  Engine_update : Q -> list Body -> list Constraint -> list ref -> list ref -> list Body;
  (* the engine moves bodies; it neither creates nor deletes them *)
  Engine_update_length : forall delta heap cs cb cc,
    List.length (Engine_update delta heap cs cb cc) = List.length heap
}.

(** A [MatterPhysics] object together with the objects it allocated.  The
    engine's world (gravity, floor and walls) is left to [Engine]. *)
Record t := {
  bodyHeap : list Body;
  springHeap : list Constraint;
  compositeBodies : list ref;
  compositeConstraints : list ref;
  bodies : list ref;
  springs : list ref;
  constraints : list ref;
  fixedBodies : list ref;
  springStiffness : Q;
  springDamping : Q;
  constraintStiffness : Q
}.

(** [new MatterPhysics()]. *)
Definition new : t :=
  {| bodyHeap := []; springHeap := [];
     compositeBodies := []; compositeConstraints := [];
     bodies := []; springs := []; constraints := []; fixedBodies := [];
     springStiffness := 5 # 1000; springDamping := 3 # 100;
     constraintStiffness := 15 # 100 |}.

Definition withHeap (ph : t) (h : list Body) : t :=
  {| bodyHeap := h; springHeap := springHeap ph;
     compositeBodies := compositeBodies ph;
     compositeConstraints := compositeConstraints ph;
     bodies := bodies ph; springs := springs ph; constraints := constraints ph;
     fixedBodies := fixedBodies ph; springStiffness := springStiffness ph;
     springDamping := springDamping ph;
     constraintStiffness := constraintStiffness ph |}.

Definition getBody (ph : t) (r : ref) : option Body := nth_error (bodyHeap ph) r.

(** [particle.position]. *)
Definition positionOf (ph : t) (r : ref) : Q * Q :=
  match getBody ph r with
  | Some body => position body
  | None => (0, 0)
  end.

(** Assignment to the fields of the heap object [r]. *)
Fixpoint updateAt {A} (l : list A) (r : nat) (f : A -> A) : list A :=
  match l, r with
  | [], _ => []
  | v :: rest, O => f v :: rest
  | v :: rest, S r' => v :: updateAt rest r' f
  end.

(** [update()]. *)
Definition update `{Engine} (ph : t) : t :=
  withHeap ph (Engine_update (1000 / 60) (bodyHeap ph) (springHeap ph)
                 (compositeBodies ph) (compositeConstraints ph)).

(** [fixParticle(particle)]; [fixedBodies] is a [Set]. *)
Definition fixParticle (particle : ref) (ph : t) : t :=
  {| bodyHeap := updateAt (bodyHeap ph) particle (fun body =>
       {| position := position body; mass := mass body;
          circleRadius := circleRadius body; isStatic := true;
          original := Some (position body); fruitInfo := fruitInfo body |});
     springHeap := springHeap ph;
     compositeBodies := compositeBodies ph;
     compositeConstraints := compositeConstraints ph;
     bodies := bodies ph; springs := springs ph; constraints := constraints ph;
     fixedBodies := if existsb (Nat.eqb particle) (fixedBodies ph)
                    then fixedBodies ph else fixedBodies ph ++ [particle];
     springStiffness := springStiffness ph; springDamping := springDamping ph;
     constraintStiffness := constraintStiffness ph |}.

(** [createParticle(x, y, mass, isFixed)]. *)
Definition createParticle (x y mass : Q) (isFixed : bool) (ph : t) : ref * t :=
  let matterMass := mass * 50 in
  let radius := Qmax 2 (mass * 15) in
  let body := List.length (bodyHeap ph) in
  let ph' :=
    {| bodyHeap := bodyHeap ph ++
         [{| position := (x, y); mass := matterMass; circleRadius := radius;
             isStatic := false; original := None; fruitInfo := None |}];
       springHeap := springHeap ph;
       compositeBodies := compositeBodies ph ++ [body];
       compositeConstraints := compositeConstraints ph;
       bodies := bodies ph ++ [body];
       springs := springs ph; constraints := constraints ph;
       fixedBodies := fixedBodies ph;
       springStiffness := springStiffness ph; springDamping := springDamping ph;
       constraintStiffness := constraintStiffness ph |} in
  (body, if isFixed then fixParticle body ph' else ph').

(** [createSpring(particleA, particleB, strength, restLength)]; a caller
    that omits [restLength] passes the default [-1].  [None] is [null]. *)
Definition createSpring `{MathEnv} (particleA particleB : option ref)
    (strength restLength : Q) (from : SpringOrigin) (ph : t) : option ref * t :=
  match particleA, particleB with
  | Some pa, Some pb =>
      let restLength :=
        if Qltb restLength 0 then
          let dx := fst (positionOf ph pa) - fst (positionOf ph pb) in
          let dy := snd (positionOf ph pa) - snd (positionOf ph pb) in
          Math_sqrt (dx * dx + dy * dy)
        else restLength in
      let stiffness := strength * 5 in
      let constraint := List.length (springHeap ph) in
      (Some constraint,
       {| bodyHeap := bodyHeap ph;
          springHeap := springHeap ph ++
            [{| bodyA := pa; bodyB := pb; length := restLength;
                stiffness := stiffness; damping := springDamping ph;
                a := pa; b := pb;
                segmentColor := None; segmentThickness := None;
                springDepth := None; origin := from |}];
          compositeBodies := compositeBodies ph;
          compositeConstraints := compositeConstraints ph ++ [constraint];
          bodies := bodies ph; springs := springs ph ++ [constraint];
          constraints := constraints ph; fixedBodies := fixedBodies ph;
          springStiffness := springStiffness ph; springDamping := springDamping ph;
          constraintStiffness := constraintStiffness ph |})
  | _, _ => (None, ph)                 (* warns, returns null *)
  end.

(** [createAngleConstraint(particleA, particleB, particleC, targetAngle, strength)]. *)
Definition createAngleConstraint `{MathEnv} (particleA particleB particleC : option ref)
    (targetAngle strength : Q) (ph : t) : option ref * t :=
  match particleA, particleB, particleC with
  | Some pa, Some pb, Some pc =>
      let vecABx := fst (positionOf ph pb) - fst (positionOf ph pa) in
      let vecABy := snd (positionOf ph pb) - snd (positionOf ph pa) in
      let vecBCx := fst (positionOf ph pc) - fst (positionOf ph pb) in
      let vecBCy := snd (positionOf ph pc) - snd (positionOf ph pb) in
      let lenAB := Math_sqrt (vecABx * vecABx + vecABy * vecABy) in
      let lenBC := Math_sqrt (vecBCx * vecBCx + vecBCy * vecBCy) in
      if Qeq_bool lenAB 0 || Qeq_bool lenBC 0 then (None, ph)
      else
        let restLength :=
          Math_sqrt (lenAB * lenAB + lenBC * lenBC - 2 * lenAB * lenBC * cos targetAngle) in
        createSpring particleA particleC (strength * (5 # 100)) restLength AngleSpring ph
  | _, _, _ => (None, ph)              (* warns, returns null *)
  end.

(** [clear()]: a fresh composite and empty tracking collections.  The
    objects themselves stay reachable from whoever still refers to them. *)
Definition clear (ph : t) : t :=
  {| bodyHeap := bodyHeap ph; springHeap := springHeap ph;
     compositeBodies := []; compositeConstraints := [];
     bodies := []; springs := []; constraints := constraints ph;
     fixedBodies := [];
     springStiffness := springStiffness ph; springDamping := springDamping ph;
     constraintStiffness := constraintStiffness ph |}.

End MatterPhysics.

(** ** plant.js *)

Module Plant.

Definition ref := MatterPhysics.ref.

(** A JavaScript [Map] with string keys, in insertion order. *)
Definition StringMap (V : Type) := list (string * V).

Fixpoint mapGet {V} (key : string) (m : StringMap V) : option V :=
  match m with
  | [] => None
  | (k, v) :: rest => if String.eqb key k then Some v else mapGet key rest
  end.

Fixpoint mapSet {V} (key : string) (v : V) (m : StringMap V) : StringMap V :=
  match m with
  | [] => [(key, v)]
  | (k, w) :: rest =>
      if String.eqb key k then (k, v) :: rest else (k, w) :: mapSet key v rest
  end.

Record t := {
  x : Q;
  y : Q;
  growth : Q;
  targetGrowth : Q;
  growthRate : Q;
  stemThickness : Q;
  lsystem : LSystem.t;
  stemColor : Color;
  leafColor : Color;
  fruitColor : Color;
  segments : list LSystem.Segment;
  fruits : list LSystem.Fruit;
  scaleFactor : Q;
  physics : MatterPhysics.t;
  particleMap : StringMap ref;
  (* a [Map] keyed by the segment objects; the list of its [set] calls *)
  segmentToSpring : list (LSystem.Segment * ref);
  fruitParticles : list ref;
  lastSegmentIndex : nat;
  totalSegments : nat;
  growingPhase : bool;
  constraintsAdded : bool;             (* [undefined] until set: falsy *)
  fruitsAdded : bool
}.

(** The part of a plant that the growth code assigns to. *)
Definition withBuilt (p : t) (ph : MatterPhysics.t) (pm : StringMap ref)
    (s2s : list (LSystem.Segment * ref)) : t :=
  {| x := x p; y := y p; growth := growth p; targetGrowth := targetGrowth p;
     growthRate := growthRate p; stemThickness := stemThickness p;
     lsystem := lsystem p; stemColor := stemColor p; leafColor := leafColor p;
   fruitColor := fruitColor p; segments := segments p; fruits := fruits p;
     scaleFactor := scaleFactor p; physics := ph; particleMap := pm;
     segmentToSpring := s2s; fruitParticles := fruitParticles p;
     lastSegmentIndex := lastSegmentIndex p; totalSegments := totalSegments p;
     growingPhase := growingPhase p; constraintsAdded := constraintsAdded p;
     fruitsAdded := fruitsAdded p |}.

Definition withPhysics (p : t) (ph : MatterPhysics.t) : t :=
  withBuilt p ph (particleMap p) (segmentToSpring p).

Definition withProgress (p : t) (g : Q) (idx : nat) (growing cAdded fAdded : bool) : t :=
  {| x := x p; y := y p; growth := g; targetGrowth := targetGrowth p;
     growthRate := growthRate p; stemThickness := stemThickness p;
     lsystem := lsystem p; stemColor := stemColor p; leafColor := leafColor p;
   fruitColor := fruitColor p; segments := segments p; fruits := fruits p;
     scaleFactor := scaleFactor p; physics := physics p;
     particleMap := particleMap p; segmentToSpring := segmentToSpring p;
     fruitParticles := fruitParticles p;
     lastSegmentIndex := idx; totalSegments := totalSegments p;
     growingPhase := growing; constraintsAdded := cAdded; fruitsAdded := fAdded |}.

Definition withFruitParticles (p : t) (fp : list ref) : t :=
  {| x := x p; y := y p; growth := growth p; targetGrowth := targetGrowth p;
     growthRate := growthRate p; stemThickness := stemThickness p;
     lsystem := lsystem p; stemColor := stemColor p; leafColor := leafColor p;
   fruitColor := fruitColor p; segments := segments p; fruits := fruits p;
     scaleFactor := scaleFactor p; physics := physics p;
     particleMap := particleMap p; segmentToSpring := segmentToSpring p;
     fruitParticles := fp;
     lastSegmentIndex := lastSegmentIndex p; totalSegments := totalSegments p;
     growingPhase := growingPhase p; constraintsAdded := constraintsAdded p;
     fruitsAdded := fruitsAdded p |}.

(** The coordinate keys [`${x.toFixed(2)},${y.toFixed(2)}`]. *)
Definition key (px py : Q) : string := (toFixed2 px ++ "," ++ toFixed2 py)%string.
Definition startKey (segment : LSystem.Segment) : string :=
  key (LSystem.x1 segment) (LSystem.y1 segment).
Definition endKey (segment : LSystem.Segment) : string :=
  key (LSystem.x2 segment) (LSystem.y2 segment).

Definition depthOf (segment : LSystem.Segment) : Q :=
  inject_Z (Z.of_nat (LSystem.depth segment)).

(** [segment.thickness || 1.0]. *)
Definition thicknessFactor (segment : LSystem.Segment) : Q :=
  orNum (LSystem.thickness segment) 1.

(** The mass of a new start point, of a new end point, and the strength
    of the segment's spring. *)
Definition startMass (segment : LSystem.Segment) : Q :=
  map (depthOf segment) 0 10 2 (2 # 10) * thicknessFactor segment.
Definition endMass (segment : LSystem.Segment) : Q :=
  map (depthOf segment) 0 10 (5 # 10) (5 # 100) * thicknessFactor segment.
Definition springStrength (segment : LSystem.Segment) : Q :=
  map (depthOf segment) 0 10 (5 # 100) (1 # 100) * thicknessFactor segment.

(** The assignments to [spring.segmentColor], [spring.segmentThickness]
    and [spring.depth]. *)
Definition annotate (segment : LSystem.Segment) (spring : ref) (ph : MatterPhysics.t)
  : MatterPhysics.t :=
  {| MatterPhysics.bodyHeap := MatterPhysics.bodyHeap ph;
     MatterPhysics.springHeap :=
       MatterPhysics.updateAt (MatterPhysics.springHeap ph) spring (fun c =>
         {| MatterPhysics.bodyA := MatterPhysics.bodyA c;
            MatterPhysics.bodyB := MatterPhysics.bodyB c;
            MatterPhysics.length := MatterPhysics.length c;
            MatterPhysics.stiffness := MatterPhysics.stiffness c;
            MatterPhysics.damping := MatterPhysics.damping c;
            MatterPhysics.a := MatterPhysics.a c;
            MatterPhysics.b := MatterPhysics.b c;
            MatterPhysics.segmentColor := Some (LSystem.segColor segment);
            MatterPhysics.segmentThickness := Some (thicknessFactor segment);
            MatterPhysics.springDepth := Some (LSystem.depth segment);
            MatterPhysics.origin := MatterPhysics.origin c |});
     MatterPhysics.compositeBodies := MatterPhysics.compositeBodies ph;
     MatterPhysics.compositeConstraints := MatterPhysics.compositeConstraints ph;
     MatterPhysics.bodies := MatterPhysics.bodies ph;
     MatterPhysics.springs := MatterPhysics.springs ph;
     MatterPhysics.constraints := MatterPhysics.constraints ph;
     MatterPhysics.fixedBodies := MatterPhysics.fixedBodies ph;
     MatterPhysics.springStiffness := MatterPhysics.springStiffness ph;
     MatterPhysics.springDamping := MatterPhysics.springDamping ph;
     MatterPhysics.constraintStiffness := MatterPhysics.constraintStiffness ph |}.

(** The first half of [setupSegmentPhysics]: the particle of the start
    point, reused when its key is in [particleMap], created otherwise. *)
Definition startParticleOf (p : t) (segment : LSystem.Segment)
  : ref * MatterPhysics.t * StringMap ref :=
  let x1 := x p + LSystem.x1 segment * scaleFactor p in
  let y1 := y p + LSystem.y1 segment * scaleFactor p in
  match mapGet (startKey segment) (particleMap p) with
  | Some startParticle => (startParticle, physics p, particleMap p)
  | None =>
      let isRoot := LSystem.isRoot segment in
      let (startParticle, ph) :=
        MatterPhysics.createParticle x1 y1 (startMass segment) isRoot (physics p) in
      (startParticle, ph, mapSet (startKey segment) startParticle (particleMap p))
  end.

(** The second half: the particle of the end point, never fixed. *)
Definition endParticleOf (p : t) (segment : LSystem.Segment)
    (ph : MatterPhysics.t) (pm : StringMap ref)
  : ref * MatterPhysics.t * StringMap ref :=
  let x2 := x p + LSystem.x2 segment * scaleFactor p in
  let y2 := y p + LSystem.y2 segment * scaleFactor p in
  match mapGet (endKey segment) pm with
  | Some endParticle => (endParticle, ph, pm)
  | None =>
      let (endParticle, ph') :=
        MatterPhysics.createParticle x2 y2 (endMass segment) false ph in
      (endParticle, ph', mapSet (endKey segment) endParticle pm)
  end.

(** [setupSegmentPhysics(segment)]. *)
Definition setupSegmentPhysics `{MathEnv} (p : t) (segment : LSystem.Segment) : t :=
  let '(startParticle, ph1, pm1) := startParticleOf p segment in
  let '(endParticle, ph2, pm2) := endParticleOf p segment ph1 pm1 in
  let (spring, ph3) :=
    MatterPhysics.createSpring (Some startParticle) (Some endParticle)
      (springStrength segment) (-1) MatterPhysics.SegmentSpring ph2 in
  match spring with
  | Some sp =>
      withBuilt p (annotate segment sp ph3) pm2 (segmentToSpring p ++ [(segment, sp)])
  | None => withBuilt p ph3 pm2 (segmentToSpring p)
  end.

(** [setupInitialRoot()]. *)
Definition setupInitialRoot `{MathEnv} (p : t) : t :=
  let rootSegments :=
    firstn 3 (filter (fun segment => Nat.eqb (LSystem.depth segment) 0) (segments p)) in
  let p' := fold_left setupSegmentPhysics rootSegments p in
  withProgress p' (growth p') (List.length rootSegments) (growingPhase p')
    (constraintsAdded p') (fruitsAdded p').

(** The search of [addFruits] for the particle nearest to [(fx, fy)];
    [None] as a distance is [Infinity]. *)
Fixpoint nearest `{MathEnv} (ph : MatterPhysics.t) (fx fy : Q) (entries : StringMap ref)
    (nearestParticle : option ref) (minDistance : option Q) : option ref :=
  match entries with
  | [] => nearestParticle
  | (_, particle) :: rest =>
      let distance :=
        dist fx fy (fst (MatterPhysics.positionOf ph particle))
                   (snd (MatterPhysics.positionOf ph particle)) in
      let closer := match minDistance with
                    | None => true
                    | Some m => Qltb distance m
                    end in
      if closer then nearest ph fx fy rest (Some particle) (Some distance)
      else nearest ph fx fy rest nearestParticle minDistance
  end.

(** The assignment [fruitParticle.fruitInfo = {size, color}]. *)
Definition setFruitInfo (fruitParticle : ref) (info : Q * Color) (ph : MatterPhysics.t)
  : MatterPhysics.t :=
  MatterPhysics.withHeap ph
    (MatterPhysics.updateAt (MatterPhysics.bodyHeap ph) fruitParticle (fun body =>
       {| MatterPhysics.position := MatterPhysics.position body;
          MatterPhysics.mass := MatterPhysics.mass body;
          MatterPhysics.circleRadius := MatterPhysics.circleRadius body;
          MatterPhysics.isStatic := MatterPhysics.isStatic body;
          MatterPhysics.original := MatterPhysics.original body;
          MatterPhysics.fruitInfo := Some info |})).

(** The body of the loop of [addFruits]. *)
Definition addFruit `{MathEnv} (p : t) (fruit : LSystem.Fruit) : t :=
  let fx := x p + LSystem.fruitX fruit * scaleFactor p in
  let fy := y p + LSystem.fruitY fruit * scaleFactor p in
  match nearest (physics p) fx fy (particleMap p) None None with
  | Some nearestParticle =>
      let (fruitParticle, ph1) :=
        MatterPhysics.createParticle fx fy (3 # 10) false (physics p) in
      let (_, ph2) :=
        MatterPhysics.createSpring (Some nearestParticle) (Some fruitParticle)
          (5 # 1000) (LSystem.size fruit * (12 # 10)) MatterPhysics.FruitSpring ph1 in
      let ph3 :=
        setFruitInfo fruitParticle
          (LSystem.size fruit * scaleFactor p, LSystem.fruitCol fruit) ph2 in
      withFruitParticles (withPhysics p ph3) (fruitParticles p ++ [fruitParticle])
  | None => p
  end.

(** [addFruits()]. *)
Definition addFruits `{MathEnv} (p : t) : t :=
  match fruits p with
  | [] => p
  | _ => fold_left addFruit (fruits p) p
  end.

(** The grouping loop of [addAngleConstraints]: [startPointMap]. *)
Definition groupByStart (segs : list LSystem.Segment) : StringMap (list LSystem.Segment) :=
  fold_left (fun startPointMap segment =>
               match mapGet (startKey segment) startPointMap with
               | Some group => mapSet (startKey segment) (group ++ [segment]) startPointMap
               | None => startPointMap ++ [(startKey segment, [segment])]
               end) segs [].

(** The innermost body: the constraint for the pair [segmentA], [segmentB]. *)
Definition constrainPair `{MathEnv} (commonParticle : option ref)
    (segmentA : LSystem.Segment) (p : t) (segmentB : LSystem.Segment) : t :=
  let endParticleA := mapGet (endKey segmentA) (particleMap p) in
  let endParticleB := mapGet (endKey segmentB) (particleMap p) in
  match endParticleA, endParticleB with
  | Some _, Some _ =>
      let originalAngle :=
        Qabs (LSystem.originalAngle segmentA - LSystem.originalAngle segmentB) in
      let strength := map (depthOf segmentA) 0 10 (1 # 100) (2 # 1000) in
      withPhysics p
        (snd (MatterPhysics.createAngleConstraint endParticleA commonParticle
                endParticleB originalAngle strength (physics p)))
  | _, _ => p                          (* continue *)
  end.

(** The loops over [i] and [j > i]. *)
Fixpoint constrainPairs `{MathEnv} (commonParticle : option ref)
    (group : list LSystem.Segment) (p : t) : t :=
  match group with
  | [] => p
  | segmentA :: rest =>
      constrainPairs commonParticle rest
        (fold_left (constrainPair commonParticle segmentA) rest p)
  end.

(** [addAngleConstraints()]. *)
Definition addAngleConstraints `{MathEnv} (p : t) : t :=
  fold_left (fun p entry =>
               let '(startKey, group) := entry in
               if (2 <=? List.length group)%nat
               then constrainPairs (mapGet startKey (particleMap p)) group p
               else p)
            (groupByStart (segments p)) p.

(** [this.lastSegmentIndex >= this.segments.length * 0.8]. *)
Definition mostlyBuilt (idx total : nat) : bool :=
  Qgeb (inject_Z (Z.of_nat idx)) (inject_Z (Z.of_nat total) * (8 # 10)).

(** [growPlant()]. *)
Definition growPlant `{MathEnv} (p : t) : t :=
  if (List.length (segments p) <=? lastSegmentIndex p)%nat then
    withProgress p (growth p) (lastSegmentIndex p) false
      (constraintsAdded p) (fruitsAdded p)
  else
    let segmentsToAddPerFrame := Nat.max 1 (List.length (segments p) / 50) in
    let endIndex :=
      Nat.min (lastSegmentIndex p + segmentsToAddPerFrame) (List.length (segments p)) in
    let batch :=
      firstn (endIndex - lastSegmentIndex p) (skipn (lastSegmentIndex p) (segments p)) in
    let p1 := fold_left setupSegmentPhysics batch p in
    let p2 := withProgress p1 (growth p1) endIndex (growingPhase p1)
                (constraintsAdded p1) (fruitsAdded p1) in
    let p3 :=
      if mostlyBuilt (lastSegmentIndex p2) (List.length (segments p2))
         && negb (constraintsAdded p2)
      then
        let q := addAngleConstraints p2 in
        withProgress q (growth q) (lastSegmentIndex q) (growingPhase q) true (fruitsAdded q)
      else p2 in
    if (List.length (segments p3) <=? lastSegmentIndex p3)%nat
       && (0 <? List.length (fruits p3))%nat && negb (fruitsAdded p3)
    then
      let q := addFruits p3 in
      withProgress q (growth q) (lastSegmentIndex q) (growingPhase q)
        (constraintsAdded q) true
    else p3.

(** [update()].  Nothing in it or below it throws. *)
Definition update `{MathEnv} `{MatterPhysics.Engine} (p : t) : completion t :=
  let growth1 :=
    if Qltb (growth p) (targetGrowth p) then
      let g := growth p + growthRate p in
      if Qgtb g (targetGrowth p) then targetGrowth p else g
    else growth p in
  let p1 := withProgress p growth1 (lastSegmentIndex p) (growingPhase p)
              (constraintsAdded p) (fruitsAdded p) in
  let p2 :=
    if growingPhase p1 && Qgtb (growth p1) (1 # 10) then
      let growthRatio := growth p1 / targetGrowth p1 in
      let targetSegments :=
        Qfloor (growthRatio * inject_Z (Z.of_nat (totalSegments p1))) in
      if (Z.of_nat (lastSegmentIndex p1) <? targetSegments)%Z then growPlant p1 else p1
    else p1 in
  Normal (withPhysics p2 (MatterPhysics.update (physics p2))).

(** [destroy()]. *)
Definition destroy (p : t) : t := withPhysics p (MatterPhysics.clear (physics p)).

(** [new ToxicPlant(x, y, type)]; [process()] may throw. *)
Definition new `{MathEnv} (px py : Q) (type : string) (g : Rng) : completion (t * Rng) :=
  let '(l, stemThickness, g1) :=
    if String.eqb type "random" then
      let (l, g') := LSystem.createRandomPlant g in
      let (th, g'') := random2 3 5 g' in (l, th, g'')
    else
      let (l, g') := LSystem.createByType type g in
      (l,
       if String.eqb type "tree" then 5
       else if String.eqb type "fern" then 3
       else if String.eqb type "bush" then 4
       else if String.eqb type "flower" then 3
       else if String.eqb type "cherry" then 4
       else if String.eqb type "cactus" then 8
       else if String.eqb type "thickbush" then 5
       else if String.eqb type "berry" then 3
       else if String.eqb type "crystal" then 3
       else 4, g') in
  bind (LSystem.process l g1) (fun '(l', g2) =>
    let (scale, g3) := random2 (6 # 10) (18 # 10) g2 in
    Normal
      (setupInitialRoot
         {| x := px; y := py; growth := 0; targetGrowth := 1; growthRate := 3 # 100;
            stemThickness := stemThickness; lsystem := l';
          stemColor := LSystem.stemColor l'; leafColor := LSystem.leafColor l';
          fruitColor := LSystem.fruitColor l';
            segments := LSystem.segments l'; fruits := LSystem.fruits l';
            scaleFactor := scale; physics := MatterPhysics.new;
            particleMap := []; segmentToSpring := []; fruitParticles := [];
            lastSegmentIndex := 0; totalSegments := List.length (LSystem.segments l');
            growingPhase := true; constraintsAdded := false; fruitsAdded := false |},
       g3)).

End Plant.

(** ** handAttractors.js *)

Module HandAttractors.

(** A number that may have left the rationals through a division. *)
Inductive jsnum := Finite (q : Q) | PosInfinity | NegInfinity | NaN.

(** [a / b] where [b] is a non-negative zero or any other number. *)
Definition jsdiv (a b : Q) : jsnum :=
  if Qeq_bool b 0 then
    if Qeq_bool a 0 then NaN
    else if Qltb a 0 then NegInfinity else PosInfinity
  else Finite (a / b).

(** [v * m]. *)
Definition jsmul (v : jsnum) (m : Q) : jsnum :=
  match v with
  | Finite q => Finite (q * m)
  | PosInfinity =>
      if Qeq_bool m 0 then NaN else if Qltb m 0 then NegInfinity else PosInfinity
  | NegInfinity =>
      if Qeq_bool m 0 then NaN else if Qltb m 0 then PosInfinity else NegInfinity
  | NaN => NaN
  end.

Record Attractor := {
  position : Q * Q;
  name : string;
  strength : Q
}.

(** The part of [EnhancedGarden] the attractors read. *)
Record Garden := { plants : list Plant.t }.

Record t := {
  garden : Garden;
  attractors : list Attractor;
  enabled : bool;
  attractionStrength : Q;
  attractionRadius : Q;
  maxForce : Q;
  isPinching : bool;
  pinchPosition : Q * Q
}.

(** The constructor's settings, around a garden. *)
Definition new (g : Garden) : t :=
  {| garden := g; attractors := []; enabled := true;
     attractionStrength := 2 # 10; attractionRadius := 60; maxForce := 1 # 10;
     isPinching := false; pinchPosition := (0, 0) |}.

(** [setStrength(strength)] and [setRadius(radius)]: the new settings. *)
Definition setStrength (h : t) (s : Q) : t :=
  {| garden := garden h; attractors := attractors h; enabled := enabled h;
     attractionStrength := Qmax (1 # 10000) (Qmin (5 # 10) s);
     attractionRadius := attractionRadius h; maxForce := maxForce h;
     isPinching := isPinching h; pinchPosition := pinchPosition h |}.

Definition setRadius (h : t) (r : Q) : t :=
  {| garden := garden h; attractors := attractors h; enabled := enabled h;
     attractionStrength := attractionStrength h;
     attractionRadius := Qmax 10 (Qmin 200 r); maxForce := maxForce h;
     isPinching := isPinching h; pinchPosition := pinchPosition h |}.

(** The pinch branch of [update(hands)]: one attractor at the pinch. *)
Definition pinchAt (h : t) (at_ : Q * Q) : t :=
  {| garden := garden h;
     attractors := [{| position := at_; name := "pinch";
                       strength := attractionStrength h |}];
     enabled := enabled h; attractionStrength := attractionStrength h;
     attractionRadius := attractionRadius h; maxForce := maxForce h;
     isPinching := true; pinchPosition := at_ |}.

(** The capped scalar [forceMagnitude] for a body at [distance]. *)
Definition forceMagnitude (h : t) (attractor : Attractor) (distance : Q) : Q :=
  let force := strength attractor * (1 - distance / attractionRadius h) in
  Qmin force (maxForce h).

(** A call [Matter.Body.applyForce(body, body.position, {x, y})]. *)
Record ForceCall := {
  onPlant : nat;
  onBody : MatterPhysics.ref;
  forceX : jsnum;
  forceY : jsnum
}.

(** The body of the inner loop: the force handed to [applyForce] for one
    body, or [None] when the body is skipped. *)
Definition forceOn `{MathEnv} (h : t) (attractor : Attractor) (body : MatterPhysics.Body)
  : option (jsnum * jsnum) :=
  if MatterPhysics.isStatic body then None
  else
    let dx := fst (position attractor) - fst (MatterPhysics.position body) in
    let dy := snd (position attractor) - snd (MatterPhysics.position body) in
    let distance := Math_sqrt (dx * dx + dy * dy) in
    if Qltb distance (attractionRadius h) then
      let dirX := jsdiv dx distance in
      let dirY := jsdiv dy distance in
      Some (jsmul dirX (forceMagnitude h attractor distance),
            jsmul dirY (forceMagnitude h attractor distance))
    else None.

Definition forcesOnPlant `{MathEnv} (h : t) (attractor : Attractor)
    (i : nat) (plant : Plant.t) : list ForceCall :=
  flat_map (fun r =>
              match MatterPhysics.getBody (Plant.physics plant) r with
              | Some body =>
                  match forceOn h attractor body with
                  | Some (fx, fy) =>
                      [{| onPlant := i; onBody := r; forceX := fx; forceY := fy |}]
                  | None => []
                  end
              | None => []
              end)
           (MatterPhysics.bodies (Plant.physics plant)).

Fixpoint forcesFrom `{MathEnv} (h : t) (attractor : Attractor)
    (i : nat) (ps : list Plant.t) : list ForceCall :=
  match ps with
  | [] => []
  | plant :: rest => forcesOnPlant h attractor i plant ++ forcesFrom h attractor (S i) rest
  end.

(** [applyAttractionToPlants()]: the calls of [applyForce] it makes, in
    order. *)
Definition applyAttractionToPlants `{MathEnv} (h : t) : list ForceCall :=
  if negb (isPinching h) then []
  else
    match attractors h with
    | [] => []
    | attractor :: _ => forcesFrom h attractor 0 (plants (garden h))
    end.

End HandAttractors.

(** ** garden.js *)

Module EnhancedGarden.

Record t := {
  plants : list Plant.t;
  maxPlants : nat;
  lastPlantTime : Q;
  minTimeBetweenPlants : Q;
  plantTypes : list string;
  currentTheme : string
}.

(** [new EnhancedGarden()]. *)
Definition new : t :=
  {| plants := []; maxPlants := 18; lastPlantTime := 0; minTimeBetweenPlants := 600;
     plantTypes := ["simple"; "tree"; "fern"; "bush"; "flower";
                    "cherry"; "cactus"; "thickbush"; "berry"; "crystal"]%string;
     currentTheme := "mixed" |}.

Definition withPlants (g : t) (ps : list Plant.t) : t :=
  {| plants := ps; maxPlants := maxPlants g; lastPlantTime := lastPlantTime g;
     minTimeBetweenPlants := minTimeBetweenPlants g; plantTypes := plantTypes g;
     currentTheme := currentTheme g |}.

Definition withTheme (g : t) (theme : string) : t :=
  {| plants := plants g; maxPlants := maxPlants g; lastPlantTime := lastPlantTime g;
     minTimeBetweenPlants := minTimeBetweenPlants g; plantTypes := plantTypes g;
     currentTheme := theme |}.

(** [array.includes(s)] and [array.indexOf(s)] on strings; [None] is [-1]. *)
Definition includes (l : list string) (s : string) : bool := existsb (String.eqb s) l.

Fixpoint indexOf (l : list string) (s : string) (i : nat) : option nat :=
  match l with
  | [] => None
  | v :: rest => if String.eqb v s then Some i else indexOf rest s (S i)
  end.

(** [setTheme(theme)]: the returned flag and the garden after the call. *)
Definition setTheme (g : t) (theme : string) : bool * t :=
  if String.eqb theme "mixed" || includes (plantTypes g) theme
  then (true, withTheme g theme)
  else (false, g).

(** [getRandomType()]: [plantTypes[floor(random(plantTypes.length))]];
    [None] is [undefined], the value of an index outside the array. *)
Definition getRandomType (g : t) (rng : Rng) : option string * Rng :=
  let (r, rng') := random rng in
  let i := Qfloor (r * inject_Z (Z.of_nat (List.length (plantTypes g)))) in
  (if (i <? 0)%Z then None else nth_error (plantTypes g) (Z.to_nat i), rng').

(** How a call of [createPlant] ends.  It returns the plant, or [null]
    when the call comes too early ([Refused]) or when the constructor threw
    and the error was caught ([Failed]); the draws the failed constructor
    consumed are not tracked. *)
Inductive Outcome :=
| Created (plant : Plant.t) (garden : t) (rng : Rng)
| Refused (garden : t) (rng : Rng)
| Failed (e : JsError) (garden : t).

Definition gardenOf (o : Outcome) : t :=
  match o with
  | Created _ g _ => g
  | Refused g _ => g
  | Failed _ g => g
  end.

(** The value [createPlant] returns; [None] is [null]. *)
Definition returned (o : Outcome) : option Plant.t :=
  match o with
  | Created plant _ _ => Some plant
  | _ => None
  end.

(** [createPlant(x, y, type)] at the time [currentTime = millis()]; an
    omitted or [null] [type] is [None].  The oldest plant of a full garden
    is destroyed and dropped before the new one is built. *)
Definition createPlant `{MathEnv} (g : t) (x y : Q) (type : option string)
    (currentTime : Q) (rng : Rng) : Outcome :=
  if Qltb (currentTime - lastPlantTime g) (minTimeBetweenPlants g) then Refused g rng
  else
    let plants1 :=
      if (maxPlants g <=? List.length (plants g))%nat then
        match plants g with
        | _ :: rest => rest
        | [] => []
        end
      else plants g in
    let themed :=
      if String.eqb (currentTheme g) "mixed" then getRandomType g rng
      else (Some (currentTheme g), rng) in
    let (type1, rng1) :=
      match type with
      | Some ty => if String.eqb ty EmptyString then themed else (Some ty, rng)
      | None => themed
      end in
    (* [new ToxicPlant(x, y, undefined)] takes the default ['random'] *)
    match Plant.new x y (LSystem.orElse type1 "random"%string) rng1 with
    | Normal (plant, rng2) =>
        Created plant
          {| plants := plants1 ++ [plant]; maxPlants := maxPlants g;
             lastPlantTime := currentTime;
             minTimeBetweenPlants := minTimeBetweenPlants g;
             plantTypes := plantTypes g; currentTheme := currentTheme g |} rng2
    | Throw e =>
        Failed e
          {| plants := plants1; maxPlants := maxPlants g;
             lastPlantTime := currentTime;
             minTimeBetweenPlants := minTimeBetweenPlants g;
             plantTypes := plantTypes g; currentTheme := currentTheme g |}
    end.

(** The loop of [update()], which runs from the last plant to the first:
    a plant whose [update()] throws is destroyed and spliced out. *)
Fixpoint updatePlants `{MathEnv} `{MatterPhysics.Engine} (ps : list Plant.t)
  : list Plant.t :=
  match ps with
  | [] => []
  | plant :: before =>
      let after := updatePlants before in
      match Plant.update plant with
      | Normal plant' => plant' :: after
      | Throw _ => after
      end
  end.

(** [update()]. *)
Definition update `{MathEnv} `{MatterPhysics.Engine} (g : t) : t :=
  withPlants g (updatePlants (plants g)).

(** [clearPlants()]: every plant is destroyed, then the list is emptied. *)
Definition clearPlants (g : t) : t := withPlants g [].

(** [getParticleCount()] and [getSpringCount()]. *)
Definition getParticleCount (g : t) : nat :=
  fold_left (fun count plant =>
               (count + List.length (MatterPhysics.bodies (Plant.physics plant)))%nat)
            (plants g) 0%nat.

Definition getSpringCount (g : t) : nat :=
  fold_left (fun count plant =>
               (count + List.length (MatterPhysics.springs (Plant.physics plant)))%nat)
            (plants g) 0%nat.

Definition getCurrentTheme (g : t) : string := currentTheme g.

(** [cycleTheme()]: the theme after the current one in
    [['mixed', ...plantTypes]]; an unknown theme has index [-1]. *)
Definition cycleTheme (g : t) : string * t :=
  let themes := "mixed"%string :: plantTypes g in
  let nextIndex :=
    match indexOf themes (currentTheme g) 0 with
    | Some currentIndex => ((currentIndex + 1) mod List.length themes)%nat
    | None => 0%nat
    end in
  let theme := nth nextIndex themes "undefined"%string in
  (theme, withTheme g theme).

(** The garden as the hand attractors read it. *)
Definition attractorView (g : t) : HandAttractors.Garden :=
  {| HandAttractors.plants := plants g |}.

End EnhancedGarden.

(** ** The hand, as ml5 reports it *)

Module Hand.

Record Point := { x : Q; y : Q }.

(** A detected hand: its named parts, read as [hand.thumb_tip] or
    [hand[key]] ([None] when the part is missing), and its [keypoints]
    array ([None] when the field is missing). *)
Record t := {
  part : string -> option Point;
  keypoints : option (list Point)
}.

End Hand.

(** ** handGestures.js *)

Module HandGestures.

Record Gestures := {
  pointing : bool;
  pinch : bool;
  grab : bool;
  wave : bool
}.

(** An entry of [history]. *)
Record Sample := { sampleX : Q; sampleY : Q; timestamp : Q }.

Record t := {
  gestures : Gestures;
  history : list Sample;
  historyLength : nat;
  lastGestureTime : Q;
  gestureCooldown : Q
}.

(** [new HandGestures()]. *)
Definition new : t :=
  {| gestures := {| pointing := false; pinch := false; grab := false; wave := false |};
     history := []; historyLength := 10; lastGestureTime := 0; gestureCooldown := 500 |}.

Definition withGestures (g : t) (gs : Gestures) : t :=
  {| gestures := gs; history := history g; historyLength := historyLength g;
     lastGestureTime := lastGestureTime g; gestureCooldown := gestureCooldown g |}.

Definition withHistory (g : t) (h : list Sample) : t :=
  {| gestures := gestures g; history := h; historyLength := historyLength g;
     lastGestureTime := lastGestureTime g; gestureCooldown := gestureCooldown g |}.

(** [resetGestures()]. *)
Definition resetGestures (g : t) : t :=
  withGestures g {| pointing := false; pinch := false; grab := false; wave := false |}.

(** [updateHistory(hand)] at the time [now = Date.now()]. *)
Definition updateHistory (g : t) (hand : Hand.t) (now : Q) : t :=
  match Hand.keypoints hand with
  | Some (wrist :: _) =>
      let pushed :=
        history g ++
        [{| sampleX := Hand.x wrist; sampleY := Hand.y wrist; timestamp := now |}] in
      withHistory g
        (if (historyLength g <? List.length pushed)%nat then List.tl pushed else pushed)
  | _ => g
  end.

(** [isFingerExtended(hand, fingerName)]. *)
Definition isFingerExtended `{MathEnv} (hand : Hand.t) (fingerName : string) : bool :=
  match Hand.part hand (fingerName ++ "_finger_tip"),
        Hand.part hand (fingerName ++ "_finger_pip"),
        Hand.part hand (fingerName ++ "_finger_mcp") with
  | Some tip, Some pip, Some mcp =>
      let distPipMcp := dist (Hand.x pip) (Hand.y pip) (Hand.x mcp) (Hand.y mcp) in
      let distTipMcp := dist (Hand.x tip) (Hand.y tip) (Hand.x mcp) (Hand.y mcp) in
      Qgtb distTipMcp (distPipMcp * (15 # 10))
  | _, _, _ => false
  end.

(** [detectPointing(hand)]. *)
Definition detectPointing `{MathEnv} (g : t) (hand : Hand.t) : t :=
  match Hand.part hand "thumb_tip", Hand.part hand "index_finger_tip" with
  | Some _, Some _ =>
      let indexExtended := isFingerExtended hand "index" in
      let otherFingersCurled :=
        negb (isFingerExtended hand "middle") &&
        negb (isFingerExtended hand "ring") &&
        negb (isFingerExtended hand "pinky") in
      withGestures g
        {| pointing := indexExtended && otherFingersCurled;
           pinch := pinch (gestures g); grab := grab (gestures g);
           wave := wave (gestures g) |}
  | _, _ => g
  end.

(** [detectPinch(hand)]. *)
Definition detectPinch `{MathEnv} (g : t) (hand : Hand.t) : t :=
  match Hand.part hand "thumb_tip", Hand.part hand "index_finger_tip" with
  | Some thumbTip, Some indexTip =>
      let distance :=
        dist (Hand.x thumbTip) (Hand.y thumbTip) (Hand.x indexTip) (Hand.y indexTip) in
      withGestures g
        {| pointing := pointing (gestures g);
           pinch := Qltb distance 20; grab := grab (gestures g);
           wave := wave (gestures g) |}
  | _, _ => g
  end.

(** [update(hand)]; [None] is a call without a hand.  It returns
    [this.gestures]. *)
Definition update `{MathEnv} (g : t) (hand : option Hand.t) (now : Q) : Gestures * t :=
  match hand with
  | None => let g' := resetGestures g in (gestures g', g')
  | Some hand =>
      let g' := detectPinch (detectPointing (updateHistory g hand now) hand) hand in
      (gestures g', g')
  end.

End HandGestures.

(** ** handAttractors.js: [update(hands)] and what it calls *)

Module HandInput.

Record ThemeButton := {
  buttonX : Q;
  buttonY : Q;
  buttonRadius : Q;
  isHovered : bool;
  lastTriggerTime : Q;
  cooldown : Q
}.

(** A [HandAttractors] object: the settings and the pinch state, and the
    fields that [update] needs besides. *)
Record t := {
  pinchState : HandAttractors.t;
  lastInteractionTime : Q;
  interactionCooldown : Q;
  themeButton : ThemeButton
}.

(** [new HandAttractors(garden)] in a window [windowWidth] wide. *)
Definition new (garden : EnhancedGarden.t) (windowWidth : Q) : t :=
  {| pinchState := HandAttractors.new (EnhancedGarden.attractorView garden);
     lastInteractionTime := 0; interactionCooldown := 100;
     themeButton :=
       {| buttonX := windowWidth - 50; buttonY := 50; buttonRadius := 30;
          isHovered := false; lastTriggerTime := 0; cooldown := 500 |} |}.

Definition withPinchState (c : t) (h : HandAttractors.t) : t :=
  {| pinchState := h; lastInteractionTime := lastInteractionTime c;
     interactionCooldown := interactionCooldown c; themeButton := themeButton c |}.

(** [this.garden] is the garden itself: the attractors read its plants as
    they are at the time of the reading. *)
Definition seeing (h : HandAttractors.t) (garden : EnhancedGarden.t) : HandAttractors.t :=
  {| HandAttractors.garden := EnhancedGarden.attractorView garden;
     HandAttractors.attractors := HandAttractors.attractors h;
     HandAttractors.enabled := HandAttractors.enabled h;
     HandAttractors.attractionStrength := HandAttractors.attractionStrength h;
     HandAttractors.attractionRadius := HandAttractors.attractionRadius h;
     HandAttractors.maxForce := HandAttractors.maxForce h;
     HandAttractors.isPinching := HandAttractors.isPinching h;
     HandAttractors.pinchPosition := HandAttractors.pinchPosition h |}.

(** The first two statements of [update]: no attractor, no pinch. *)
Definition release (h : HandAttractors.t) : HandAttractors.t :=
  {| HandAttractors.garden := HandAttractors.garden h;
     HandAttractors.attractors := [];
     HandAttractors.enabled := HandAttractors.enabled h;
     HandAttractors.attractionStrength := HandAttractors.attractionStrength h;
     HandAttractors.attractionRadius := HandAttractors.attractionRadius h;
     HandAttractors.maxForce := HandAttractors.maxForce h;
     HandAttractors.isPinching := false;
     HandAttractors.pinchPosition := HandAttractors.pinchPosition h |}.

(** [toggle()]. *)
Definition toggle (c : t) : bool * t :=
  let h := pinchState c in
  (negb (HandAttractors.enabled h),
   withPinchState c
     {| HandAttractors.garden := HandAttractors.garden h;
        HandAttractors.attractors := HandAttractors.attractors h;
        HandAttractors.enabled := negb (HandAttractors.enabled h);
        HandAttractors.attractionStrength := HandAttractors.attractionStrength h;
        HandAttractors.attractionRadius := HandAttractors.attractionRadius h;
        HandAttractors.maxForce := HandAttractors.maxForce h;
        HandAttractors.isPinching := HandAttractors.isPinching h;
        HandAttractors.pinchPosition := HandAttractors.pinchPosition h |}).

(** [setStrength(strength)] and [setRadius(radius)] on the whole object. *)
Definition setStrength (c : t) (strength : Q) : Q * t :=
  let h := HandAttractors.setStrength (pinchState c) strength in
  (HandAttractors.attractionStrength h, withPinchState c h).

Definition setRadius (c : t) (radius : Q) : Q * t :=
  let h := HandAttractors.setRadius (pinchState c) radius in
  (HandAttractors.attractionRadius h, withPinchState c h).

(** [updateThemeButtonState(hand)] at the time [now = Date.now()]: the
    button and the garden after it.  (The page's theme label, which it
    rewrites, is not part of the state.) *)
Definition updateThemeButtonState `{MathEnv} (button : ThemeButton)
    (garden : EnhancedGarden.t) (hand : Hand.t) (now : Q)
  : ThemeButton * EnhancedGarden.t :=
  match Hand.part hand "index_finger_tip" with
  | None => (button, garden)
  | Some indexTip =>
      let distance :=
        dist (Hand.x indexTip) (Hand.y indexTip) (buttonX button) (buttonY button) in
      let hovered := Qltb distance (buttonRadius button) in
      if hovered && Qgtb (now - lastTriggerTime button) (cooldown button) then
        ({| buttonX := buttonX button; buttonY := buttonY button;
            buttonRadius := buttonRadius button; isHovered := hovered;
            lastTriggerTime := now; cooldown := cooldown button |},
         snd (EnhancedGarden.cycleTheme garden))
      else
        ({| buttonX := buttonX button; buttonY := buttonY button;
            buttonRadius := buttonRadius button; isHovered := hovered;
            lastTriggerTime := lastTriggerTime button; cooldown := cooldown button |},
         garden)
  end.

(** The pinch test of [update]: the pinch state after it. *)
Definition detectPinch `{MathEnv} (h : HandAttractors.t) (hand : Hand.t)
  : HandAttractors.t :=
  match Hand.part hand "thumb_tip", Hand.part hand "index_finger_tip" with
  | Some thumbTip, Some indexTip =>
      let distance :=
        dist (Hand.x thumbTip) (Hand.y thumbTip) (Hand.x indexTip) (Hand.y indexTip) in
      if Qltb distance 35 then
        HandAttractors.pinchAt h
          ((Hand.x thumbTip + Hand.x indexTip) / 2,
           (Hand.y thumbTip + Hand.y indexTip) / 2)
      else h
  | _, _ => h
  end.

(** What one call of [update(hands)] leaves behind: the object, the
    garden, the forces it applied, and the call of [createPlant] it made,
    if any (the random generator goes on from that call's outcome). *)
Record Frame := {
  state : t;
  gardenAfter : EnhancedGarden.t;
  forces : list HandAttractors.ForceCall;
  planting : option EnhancedGarden.Outcome
}.

(** [checkPlantInteractions(hand)] at the time [now = Date.now()], in a
    canvas [height] high; [currentTime] is the [millis()] that
    [createPlant] reads. *)
Definition checkPlantInteractions `{MathEnv} (c : t) (garden : EnhancedGarden.t)
    (hand : Hand.t) (height now currentTime : Q) (rng : Rng)
  : t * option EnhancedGarden.Outcome :=
  if Qltb (now - lastInteractionTime c) (interactionCooldown c) then (c, None)
  else
    match Hand.part hand "index_finger_tip" with
    | Some indexFinger =>
        if Qgtb (Hand.y indexFinger) (height - 20) then
          ({| pinchState := pinchState c; lastInteractionTime := now;
              interactionCooldown := interactionCooldown c;
              themeButton := themeButton c |},
           Some (EnhancedGarden.createPlant garden (Hand.x indexFinger) (height - 10)
                   None currentTime rng))
        else (c, None)
    | None => (c, None)
    end.

(** [update(hands)].  [nowButton] and [nowPlant] are the two readings of
    [Date.now()]. *)
Definition update `{MathEnv} (c : t) (garden : EnhancedGarden.t) (hands : list Hand.t)
    (height nowButton nowPlant currentTime : Q) (rng : Rng) : Frame :=
  let h0 := release (pinchState c) in
  match hands with
  | [] =>
      {| state := withPinchState c (seeing h0 garden); gardenAfter := garden;
         forces := []; planting := None |}
  | hand :: _ =>
      if negb (HandAttractors.enabled h0) then
        {| state := withPinchState c (seeing h0 garden); gardenAfter := garden;
           forces := []; planting := None |}
      else
        let (button1, garden1) :=
          updateThemeButtonState (themeButton c) garden hand nowButton in
        let h1 := seeing (detectPinch h0 hand) garden1 in
        let applied :=
          if HandAttractors.isPinching h1
          then HandAttractors.applyAttractionToPlants h1 else [] in
        let c1 :=
          {| pinchState := h1; lastInteractionTime := lastInteractionTime c;
             interactionCooldown := interactionCooldown c; themeButton := button1 |} in
        let (c2, planted) :=
          checkPlantInteractions c1 garden1 hand height nowPlant currentTime rng in
        let garden2 :=
          match planted with
          | Some outcome => EnhancedGarden.gardenOf outcome
          | None => garden1
          end in
        {| state := withPinchState c2 (seeing (pinchState c2) garden2);
           gardenAfter := garden2; forces := applied; planting := planted |}
  end.

End HandInput.

(** ** atmosphere.js *)

Module Atmosphere.

(** The p5 globals the atmosphere reads. *)
Record Canvas := { width : Q; height : Q; frameCount : Q }.

(** [TWO_PI], [random(max)], [constrain(n, low, high)] and [min(a, b)]. *)
Definition TWO_PI `{MathEnv} : Q := PI * 2.

Definition random1 (hi : Q) (g : Rng) : Q * Rng :=
  let (rand, g') := random g in (rand * hi, g').

Definition constrain (n low high : Q) : Q := Qmax (Qmin n high) low.

(** An element of an array of colours; [None] is [undefined], the value
    at an index outside the array. *)
Definition at_ {A} (l : list A) (i : Z) : option A :=
  if (i <? 0)%Z then None else nth_error l (Z.to_nat i).

Record Firefly := {
  x : Q; y : Q;
  size : Q;
  color : option (list Q);
  glow : Q;
  alpha : Q;
  pulseRate : Q;
  pulseOffset : Q;
  speed : Q;
  angle : Q;
  sinOffset : Q;
  sinFrequency : Q;
  sinAmplitude : Q;
  currentAlpha : option Q             (* absent until the first update *)
}.

Record Dust := {
  dustX : Q; dustY : Q;
  dustSize : Q;
  dustColor : option (list Q);
  dustSpeed : Q;
  dustAngle : Q;
  dustSinOffset : Q;
  dustSinFrequency : Q;
  dustSinAmplitude : Q;
  lifespan : Q;
  age : Q;
  dustCurrentAlpha : option HandAttractors.jsnum
}.

Record t := {
  fireflies : list Firefly;
  maxFireflies : nat;
  fireflyColors : list (list Q);
  dustParticles : list Dust;
  maxDustParticles : nat;
  dustColors : list (list Q)
}.

Definition withFireflies (a : t) (fs : list Firefly) : t :=
  {| fireflies := fs; maxFireflies := maxFireflies a; fireflyColors := fireflyColors a;
     dustParticles := dustParticles a; maxDustParticles := maxDustParticles a;
     dustColors := dustColors a |}.

Definition withDust (a : t) (ds : list Dust) : t :=
  {| fireflies := fireflies a; maxFireflies := maxFireflies a;
     fireflyColors := fireflyColors a;
     dustParticles := ds; maxDustParticles := maxDustParticles a;
     dustColors := dustColors a |}.

(** [createFirefly()]: thirteen draws, in the order of the source. *)
Definition createFirefly `{MathEnv} (a : t) (cv : Canvas) (g : Rng) : Firefly * Rng :=
  let (r0, g) := random1 (inject_Z (Z.of_nat (List.length (fireflyColors a)))) g in
  let colorIndex := Qfloor r0 in
  let (vx, g) := random1 (width cv) g in
  let (vy, g) := random1 (height cv) g in
  let (vsize, g) := random2 2 5 g in
  let (vglow, g) := random2 20 50 g in
  let (valpha, g) := random2 100 200 g in
  let (vpulseRate, g) := random2 (2 # 100) (5 # 100) g in
  let (vpulseOffset, g) := random1 TWO_PI g in
  let (vspeed, g) := random2 (2 # 10) 1 g in
  let (vangle, g) := random1 TWO_PI g in
  let (vsinOffset, g) := random1 TWO_PI g in
  let (vsinFrequency, g) := random2 (1 # 100) (3 # 100) g in
  let (vsinAmplitude, g) := random2 (5 # 10) 2 g in
  ({| x := vx; y := vy; size := vsize; color := at_ (fireflyColors a) colorIndex;
      glow := vglow; alpha := valpha; pulseRate := vpulseRate;
      pulseOffset := vpulseOffset; speed := vspeed; angle := vangle;
      sinOffset := vsinOffset; sinFrequency := vsinFrequency;
      sinAmplitude := vsinAmplitude; currentAlpha := None |}, g).

(** [createDustParticle()]: ten draws. *)
Definition createDustParticle `{MathEnv} (a : t) (cv : Canvas) (g : Rng) : Dust * Rng :=
  let (r0, g) := random1 (inject_Z (Z.of_nat (List.length (dustColors a)))) g in
  let colorIndex := Qfloor r0 in
  let (vx, g) := random1 (width cv) g in
  let (vy, g) := random1 (height cv) g in
  let (vsize, g) := random2 (5 # 10) 2 g in
  let (vspeed, g) := random2 (1 # 10) (3 # 10) g in
  let (vangle, g) := random1 TWO_PI g in
  let (vsinOffset, g) := random1 TWO_PI g in
  let (vsinFrequency, g) := random2 (5 # 1000) (2 # 100) g in
  let (vsinAmplitude, g) := random2 (2 # 10) (8 # 10) g in
  let (vlifespan, g) := random2 100 300 g in
  ({| dustX := vx; dustY := vy; dustSize := vsize;
      dustColor := at_ (dustColors a) colorIndex;
      dustSpeed := vspeed; dustAngle := vangle; dustSinOffset := vsinOffset;
      dustSinFrequency := vsinFrequency; dustSinAmplitude := vsinAmplitude;
      lifespan := vlifespan; age := 0; dustCurrentAlpha := None |}, g).

(** The two loops of [initParticles()]. *)
Fixpoint pushFireflies `{MathEnv} (n : nat) (a : t) (cv : Canvas) (g : Rng) : t * Rng :=
  match n with
  | O => (a, g)
  | S n' =>
      let (fly, g') := createFirefly a cv g in
      pushFireflies n' (withFireflies a (fireflies a ++ [fly])) cv g'
  end.

Fixpoint pushDust `{MathEnv} (n : nat) (a : t) (cv : Canvas) (g : Rng) : t * Rng :=
  match n with
  | O => (a, g)
  | S n' =>
      let (dust, g') := createDustParticle a cv g in
      pushDust n' (withDust a (dustParticles a ++ [dust])) cv g'
  end.

Definition initParticles `{MathEnv} (a : t) (cv : Canvas) (g : Rng) : t * Rng :=
  let (a1, g1) := pushFireflies (maxFireflies a) a cv g in
  pushDust (maxDustParticles a1) a1 cv g1.

(** [new Atmosphere()]. *)
Definition new `{MathEnv} (cv : Canvas) (g : Rng) : t * Rng :=
  initParticles
    {| fireflies := []; maxFireflies := 30;
       fireflyColors := [[180; 255; 100]; [220; 255; 120]; [150; 220; 80];
                         [180; 240; 150]; [200; 255; 160]];
       dustParticles := []; maxDustParticles := 500;
       dustColors := [[255; 255; 255; 40]; [220; 220; 255; 30];
                      [255; 255; 220; 25]; [220; 255; 220; 20]] |} cv g.

(** The body of the loop of [updateFireflies()]. *)
Definition updateFirefly `{MathEnv} (cv : Canvas) (fly : Firefly) (g : Rng)
  : Firefly * Rng :=
  let pulse := sin (frameCount cv * pulseRate fly + pulseOffset fly) * (5 # 10) + (5 # 10) in
  let currentAlpha1 := alpha fly * pulse in
  let (turn, g1) := random2 (- (5 # 100)) (5 # 100) g in
  let angle1 := angle fly + turn in
  let sinValue :=
    sin (frameCount cv * sinFrequency fly + sinOffset fly) * sinAmplitude fly in
  let x1 := x fly + (cos angle1 * speed fly +
                     sin (frameCount cv * (1 # 100) + sinOffset fly) * (2 # 10)) in
  let y1 := y fly + (sin angle1 * speed fly + sinValue * (1 # 10)) in
  let x2 := if Qltb x1 (-20) then width cv + 20 else x1 in
  let x3 := if Qgtb x2 (width cv + 20) then -20 else x2 in
  let y2 := if Qltb y1 (-20) then height cv + 20 else y1 in
  let y3 := if Qgtb y2 (height cv + 20) then -20 else y2 in
  let (chance, g2) := random g1 in
  let (angle2, g3) :=
    if Qltb chance (5 # 1000) then random1 TWO_PI g2 else (angle1, g2) in
  ({| x := x3; y := y3; size := size fly; color := color fly; glow := glow fly;
      alpha := alpha fly; pulseRate := pulseRate fly; pulseOffset := pulseOffset fly;
      speed := speed fly; angle := angle2; sinOffset := sinOffset fly;
      sinFrequency := sinFrequency fly; sinAmplitude := sinAmplitude fly;
      currentAlpha := Some currentAlpha1 |}, g3).

(** [updateFireflies()], from the first firefly to the last. *)
Fixpoint updateFireflies `{MathEnv} (cv : Canvas) (flies : list Firefly) (g : Rng)
  : list Firefly * Rng :=
  match flies with
  | [] => ([], g)
  | fly :: rest =>
      let (fly', g1) := updateFirefly cv fly g in
      let (rest', g2) := updateFireflies cv rest g1 in
      (fly' :: rest', g2)
  end.

(** p5 [map(n, 0, stop1, 0, stop2)], where [stop1] may be [0]. *)
Definition mapFromZero (n stop1 stop2 : Q) : HandAttractors.jsnum :=
  HandAttractors.jsmul (HandAttractors.jsdiv (n - 0) (stop1 - 0)) (stop2 - 0).

(** The body of the loop of [updateDustParticles()]: the particle that
    is left at the index of [dust]. *)
Definition updateDust `{MathEnv} (a : t) (cv : Canvas) (dust : Dust) (g : Rng)
  : completion (Dust * Rng) :=
  let age1 := 1 in                        (* [dust.age =+ 1] *)
  match dustColor dust with
  | None => Throw (TypeError "Cannot read properties of undefined (reading '3')")
  | Some channels =>
          let currentAlpha1 :=
            match nth_error channels 3 with
            | Some alpha3 =>
                mapFromZero
                  (constrain (Qmin age1 (lifespan dust - age1)) 0 (lifespan dust / 4))
                  (lifespan dust / 4) alpha3
            | None => HandAttractors.NaN          (* [undefined - 0] *)
            end in
          let sinValue :=
            sin (frameCount cv * dustSinFrequency dust + dustSinOffset dust) *
            dustSinAmplitude dust in
          let x1 := dustX dust + (cos (dustAngle dust) * dustSpeed dust +
                                  sinValue * (5 # 100)) in
          let y1 := dustY dust + (sin (dustAngle dust) * dustSpeed dust -
                                  dustSpeed dust * (2 # 10)) in
          let x2 := if Qltb x1 (-10) then width cv + 10 else x1 in
          let x3 := if Qgtb x2 (width cv + 10) then -10 else x2 in
          if Qltb y1 (-10) || Qgtb y1 (height cv + 10) || Qgtb age1 (lifespan dust) then
            (* replaced by a new particle that enters from the bottom; the
               change of direction below goes to the old one *)
            let (fresh, g1) := createDustParticle a cv g in
            let (rise, g2) := random2 5 15 g1 in
            let (chance, g3) := random g2 in
            let g4 := if Qltb chance (2 # 100)
                      then snd (random2 (- (1 # 10)) (1 # 10) g3) else g3 in
            Normal ({| dustX := dustX fresh; dustY := height cv + rise;
                       dustSize := dustSize fresh; dustColor := dustColor fresh;
                       dustSpeed := dustSpeed fresh; dustAngle := dustAngle fresh;
                       dustSinOffset := dustSinOffset fresh;
                       dustSinFrequency := dustSinFrequency fresh;
                       dustSinAmplitude := dustSinAmplitude fresh;
                       lifespan := lifespan fresh; age := age fresh;
                       dustCurrentAlpha := dustCurrentAlpha fresh |}, g4)
          else
            let (chance, g1) := random g in
            let (angle1, g2) :=
              if Qltb chance (2 # 100) then
                let (turn, g2) := random2 (- (1 # 10)) (1 # 10) g1 in
                (dustAngle dust + turn, g2)
              else (dustAngle dust, g1) in
            Normal ({| dustX := x3; dustY := y1; dustSize := dustSize dust;
                       dustColor := dustColor dust; dustSpeed := dustSpeed dust;
                       dustAngle := angle1; dustSinOffset := dustSinOffset dust;
                       dustSinFrequency := dustSinFrequency dust;
                       dustSinAmplitude := dustSinAmplitude dust;
                       lifespan := lifespan dust; age := age1;
                       dustCurrentAlpha := Some currentAlpha1 |}, g2)
  end.

(** [updateDustParticles()], from the last particle to the first. *)
Fixpoint updateDustParticles `{MathEnv} (a : t) (cv : Canvas) (ds : list Dust) (g : Rng)
  : completion (list Dust * Rng) :=
  match ds with
  | [] => Normal ([], g)
  | dust :: before =>
      bind (updateDustParticles a cv before g) (fun '(after, g1) =>
        bind (updateDust a cv dust g1) (fun '(dust', g2) =>
          Normal (dust' :: after, g2)))
  end.

(** [update()]. *)
Definition update `{MathEnv} (a : t) (cv : Canvas) (g : Rng) : completion (t * Rng) :=
  let (flies, g1) := updateFireflies cv (fireflies a) g in
  bind (updateDustParticles a cv (dustParticles a) g1) (fun '(ds, g2) =>
    Normal (withDust (withFireflies a flies) ds, g2)).

(** One turn of the loops of [addLocalEffect(x, y, type, count)]. *)
Definition addDust `{MathEnv} (px py : Q) (a : t) (cv : Canvas) (g : Rng) : t * Rng :=
  let radius := 50 in
  let (angle, g1) := random1 TWO_PI g in
  let (distance, g2) := random2 5 radius g1 in
  let (dust, g3) := createDustParticle a cv g2 in
  let placed :=
    {| dustX := px + cos angle * distance; dustY := py + sin angle * distance;
       dustSize := dustSize dust; dustColor := dustColor dust;
       dustSpeed := dustSpeed dust * (15 # 10); dustAngle := dustAngle dust;
       dustSinOffset := dustSinOffset dust;
       dustSinFrequency := dustSinFrequency dust;
       dustSinAmplitude := dustSinAmplitude dust;
       lifespan := lifespan dust; age := age dust;
       dustCurrentAlpha := dustCurrentAlpha dust |} in
  let pushed := dustParticles a ++ [placed] in
  (withDust a (if (maxDustParticles a + 50 <? List.length pushed)%nat
               then List.tl pushed else pushed), g3).

Definition addFirefly `{MathEnv} (px py : Q) (a : t) (cv : Canvas) (g : Rng) : t * Rng :=
  let radius := 50 in
  let (angle, g1) := random1 TWO_PI g in
  let (distance, g2) := random2 5 radius g1 in
  let (fly, g3) := createFirefly a cv g2 in
  let placed :=
    {| x := px + cos angle * distance; y := py + sin angle * distance;
       size := size fly; color := color fly; glow := glow fly; alpha := alpha fly;
       pulseRate := pulseRate fly; pulseOffset := pulseOffset fly; speed := speed fly;
       angle := Atmosphere.angle fly; sinOffset := sinOffset fly;
       sinFrequency := sinFrequency fly; sinAmplitude := sinAmplitude fly;
       currentAlpha := currentAlpha fly |} in
  let pushed := fireflies a ++ [placed] in
  (withFireflies a (if (maxFireflies a + 10 <? List.length pushed)%nat
                    then List.tl pushed else pushed), g3).

Fixpoint times {S} (n : nat) (f : S -> Rng -> S * Rng) (s : S) (g : Rng) : S * Rng :=
  match n with
  | O => (s, g)
  | S n' => let (s', g') := f s g in times n' f s' g'
  end.

(** [addLocalEffect(x, y, type, count)], for a whole number [count]. *)
Definition addLocalEffect `{MathEnv} (a : t) (cv : Canvas) (px py : Q) (type : string)
    (count : nat) (g : Rng) : t * Rng :=
  if String.eqb type "dust" then times count (fun a g => addDust px py a cv g) a g
  else if String.eqb type "firefly" then
    times count (fun a g => addFirefly px py a cv g) a g
  else (a, g).

(** [windowResized()]. *)
Definition windowResized (a : t) (cv : Canvas) : t :=
  withDust
    (withFireflies a
       (List.map (fun fly =>
          {| x := constrain (x fly) 0 (width cv); y := constrain (y fly) 0 (height cv);
             size := size fly; color := color fly; glow := glow fly; alpha := alpha fly;
             pulseRate := pulseRate fly; pulseOffset := pulseOffset fly;
             speed := speed fly; angle := angle fly; sinOffset := sinOffset fly;
             sinFrequency := sinFrequency fly; sinAmplitude := sinAmplitude fly;
             currentAlpha := currentAlpha fly |}) (fireflies a)))
    (List.map (fun dust =>
       {| dustX := constrain (dustX dust) 0 (width cv);
          dustY := constrain (dustY dust) 0 (height cv);
          dustSize := dustSize dust; dustColor := dustColor dust;
          dustSpeed := dustSpeed dust; dustAngle := dustAngle dust;
          dustSinOffset := dustSinOffset dust;
          dustSinFrequency := dustSinFrequency dust;
          dustSinAmplitude := dustSinAmplitude dust;
          lifespan := lifespan dust; age := age dust;
          dustCurrentAlpha := dustCurrentAlpha dust |}) (dustParticles a)).

End Atmosphere.

(** ** sketch.js *)

Module Sketch.

Record WindEffect := {
  active : bool;
  force : Q;
  targetForce : Q;
  changeRate : Q;
  maxForce : Q
}.

(** The initial [windEffect]. *)
Definition windEffect : WindEffect :=
  {| active := true; force := 0; targetForce := 0; changeRate := 93 # 100;
     maxForce := 25 # 100000 |}.

(** p5 [lerp(start, stop, amt)]. *)
Definition lerp (start stop amt : Q) : Q := amt * (stop - start) + start.

(** p5 [random(min, max)] on bounds that are not literals: they are
    swapped when [min > max]. *)
Definition randomBetween (lo hi : Q) (g : Rng) : Q * Rng :=
  if Qgtb lo hi then random2 hi lo g else random2 lo hi g.

(** [v + c]. *)
Definition jsadd (v : HandAttractors.jsnum) (c : Q) : HandAttractors.jsnum :=
  match v with
  | HandAttractors.Finite q => HandAttractors.Finite (q + c)
  | other => other
  end.

(** The body of the inner loop of [updateWindEffect()]: the force handed
    to [applyForce] for one body, or [None] when the body is skipped. *)
Definition windOn `{MathEnv} (w : WindEffect) (height frameCount : Q)
    (body : MatterPhysics.Body) : option (HandAttractors.jsnum * HandAttractors.jsnum) :=
  if MatterPhysics.isStatic body then None
  else
    let heightFactor :=
      jsadd (HandAttractors.jsmul
               (HandAttractors.jsdiv (snd (MatterPhysics.position body) - height)
                                     (0 - height))
               (2 - (5 # 10)))
            (5 # 10) in
    let massFactor := map (MatterPhysics.mass body) (1 # 10) 2 (15 # 10) (5 # 10) in
    let verticalFactor :=
      sin (fst (MatterPhysics.position body) * (1 # 100) + frameCount * (1 # 100)) *
      (2 # 10) in
    Some (HandAttractors.jsmul (HandAttractors.jsmul heightFactor (force w)) massFactor,
          HandAttractors.jsmul
            (HandAttractors.jsmul heightFactor (force w * verticalFactor)) massFactor).

Definition windOnPlant `{MathEnv} (w : WindEffect) (height frameCount : Q)
    (i : nat) (plant : Plant.t) : list HandAttractors.ForceCall :=
  flat_map (fun r =>
              match MatterPhysics.getBody (Plant.physics plant) r with
              | Some body =>
                  match windOn w height frameCount body with
                  | Some (fx, fy) =>
                      [{| HandAttractors.onPlant := i; HandAttractors.onBody := r;
                          HandAttractors.forceX := fx; HandAttractors.forceY := fy |}]
                  | None => []
                  end
              | None => []
              end)
           (MatterPhysics.bodies (Plant.physics plant)).

Fixpoint windFrom `{MathEnv} (w : WindEffect) (height frameCount : Q)
    (i : nat) (ps : list Plant.t) : list HandAttractors.ForceCall :=
  match ps with
  | [] => []
  | plant :: rest =>
      windOnPlant w height frameCount i plant ++ windFrom w height frameCount (S i) rest
  end.

(** [updateWindEffect()]: the wind after the call, the calls of
    [applyForce] it makes, in order, and the generator. *)
Definition updateWindEffect `{MathEnv} (w : WindEffect) (plants : list Plant.t)
    (height frameCount : Q) (g : Rng)
  : WindEffect * list HandAttractors.ForceCall * Rng :=
  if negb (active w) then (w, [], g)
  else
    let force1 := lerp (force w) (targetForce w) (1 # 100) in
    let (chance, g1) := random g in
    let (target1, g2) :=
      if Qltb chance (5 # 10) then randomBetween (- maxForce w) (maxForce w) g1
      else (targetForce w, g1) in
    let w1 := {| active := active w; force := force1; targetForce := target1;
                 changeRate := changeRate w; maxForce := maxForce w |} in
    (w1, windFrom w1 height frameCount 0 plants, g2).

End Sketch.

(** ** One executable environment *)

(** Decimal rounding of arguments and results, as a floating-point unit
    rounds them. *)
Definition roundTo (digitsKept : Z) (v : Q) : Q :=
  Qred (Qfloor (v * inject_Z (10 ^ digitsKept) + (1 # 2)) # Z.to_pos (10 ^ digitsKept)).

(** [sum_{k<n} (-1)^k x^(2k+off) / (2k+off)!], by Horner's rule in [x*x]. *)
Fixpoint series (n : nat) (k : Z) (x2 : Q) : Q :=
  match n with
  | O => 1
  | S n' => 1 - x2 / inject_Z (k * (k + 1)) * series n' (k + 2) x2
  end.

Definition cosQ (v : Q) : Q :=
  let v := roundTo 9 v in roundTo 9 (series 10 1 (v * v)).
Definition sinQ (v : Q) : Q :=
  let v := roundTo 9 v in roundTo 9 (v * series 10 2 (v * v)).

(** The square root to six decimals, exact on squares of such numbers. *)
Definition sqrtQ (v : Q) : Q :=
  Qred (Z.sqrt (Qfloor (v * inject_Z (10 ^ 12))) # Z.to_pos (10 ^ 6)).

#[export] Instance rationalMath : MathEnv :=
  {| PI := 3141592654 # 1000000000;
     cos := cosQ; sin := sinQ; Math_sqrt := sqrtQ |}.

(** An engine step that leaves every body where it is. *)
#[export] Instance stillEngine : MatterPhysics.Engine :=
  {| MatterPhysics.Engine_update := fun _ heap _ _ _ => heap;
     MatterPhysics.Engine_update_length := fun _ _ _ _ _ => eq_refl |}.

(** The generator whose every draw is [r]. *)
Definition constantRng (r : Q) : Rng := {| draws := fun _ => r; cursor := 0 |}.

(* ================================================================== *)
(** * Part II. Vocabulary of the properties                            *)
(* ================================================================== *)

(** The grammar of the first end-to-end scenario: axiom [F], the single
    rule [F -> FF+[+F]-[-F]], two iterations. *)
Definition scenario1 : LSystem.Config :=
  {| LSystem.cfg_axiom := Some "F"%string;
     LSystem.cfg_rules := Some (LSystem.oneRule "F" "FF+[+F]-[-F]");
     LSystem.cfg_angle := None;
     LSystem.cfg_iterations := Some 2;
     LSystem.cfg_colorVariation := None;
     LSystem.cfg_fruitProbability := None; LSystem.cfg_fruitColor := None;
     LSystem.cfg_leafColor := None; LSystem.cfg_stemColor := None |}.

(** A grammar that outgrows the cap in its second generation. *)
Definition fifty : string :=
  "FFFFFFFFFFFFFFFFFFFFFFFFFFFFFFFFFFFFFFFFFFFFFFFFFF".

Definition explosive : LSystem.Config :=
  {| LSystem.cfg_axiom := Some "F"%string;
     LSystem.cfg_rules := Some (LSystem.oneRule "F" fifty);
     LSystem.cfg_angle := None;
     LSystem.cfg_iterations := Some 4;
     LSystem.cfg_colorVariation := None;
     LSystem.cfg_fruitProbability := None; LSystem.cfg_fruitColor := None;
     LSystem.cfg_leafColor := None; LSystem.cfg_stemColor := None |}.

(** A grammar whose production is the single colour-shift symbol, with
    colour variation switched on. *)
Definition colourShift : LSystem.Config :=
  {| LSystem.cfg_axiom := Some "c"%string;
     LSystem.cfg_rules := None;
     LSystem.cfg_angle := None;
     LSystem.cfg_iterations := None;
     LSystem.cfg_colorVariation := Some true;
     LSystem.cfg_fruitProbability := None; LSystem.cfg_fruitColor := None;
     LSystem.cfg_leafColor := None; LSystem.cfg_stemColor := None |}.

(** Whether the body behind a reference is fixed (static). *)
Definition isFixed (ph : MatterPhysics.t) (r : MatterPhysics.ref) : bool :=
  match MatterPhysics.getBody ph r with
  | Some body => MatterPhysics.isStatic body
  | None => false
  end.

Definition isAngle (c : MatterPhysics.Constraint) : bool :=
  match MatterPhysics.origin c with
  | MatterPhysics.AngleSpring => true
  | _ => false
  end.

(** The angle-constraint springs a plant has created so far. *)
Definition angleLinks (p : Plant.t) : list MatterPhysics.Constraint :=
  filter isAngle (MatterPhysics.springHeap (Plant.physics p)).


(** [n] calls of [update()]. *)
Fixpoint updateTimes `{MathEnv} `{MatterPhysics.Engine} (n : nat) (p : Plant.t)
  : completion Plant.t :=
  match n with
  | O => Normal p
  | S n' => bind (Plant.update p) (updateTimes n')
  end.

(** The plants the program can hold: built by the constructor, then
    updated, grown and destroyed in any order. *)
Inductive reachable `{MathEnv} `{MatterPhysics.Engine} : Plant.t -> Prop :=
| reach_new : forall px py type g p g',
    Plant.new px py type g = Normal (p, g') -> reachable p
| reach_update : forall p p',
    reachable p -> Plant.update p = Normal p' -> reachable p'
| reach_grow : forall p, reachable p -> reachable (Plant.growPlant p)
| reach_destroy : forall p, reachable p -> reachable (Plant.destroy p).

(** Every keyed particle is an allocated body. *)
Definition mapValid (ph : MatterPhysics.t) (pm : Plant.StringMap Plant.ref) : Prop :=
  forall k r, In (k, r) pm -> (r < List.length (MatterPhysics.bodyHeap ph))%nat.

(** Two keys never share a particle. *)
Definition mapInj (pm : Plant.StringMap Plant.ref) : Prop :=
  forall k1 k2 r, Plant.mapGet k1 pm = Some r -> Plant.mapGet k2 pm = Some r -> k1 = k2.

(** What a call [setupSegmentPhysics(seg)] does to a plant [p]: the start
    point resolves to the particle [r1], the end point to [r2], and the
    one new spring is [c]. *)
Record materialised (p : Plant.t) (seg : LSystem.Segment) (p' : Plant.t)
    (r1 r2 : Plant.ref) (c : MatterPhysics.Constraint) : Prop := {
  m_frame : exists ph pm s2s, p' = Plant.withBuilt p ph pm s2s;
  m_springs : MatterPhysics.springHeap (Plant.physics p') =
                MatterPhysics.springHeap (Plant.physics p) ++ [c];
  m_a : MatterPhysics.a c = r1;
  m_b : MatterPhysics.b c = r2;
  m_origin : MatterPhysics.origin c = MatterPhysics.SegmentSpring;
  m_s2s : Plant.segmentToSpring p' =
            Plant.segmentToSpring p ++
              [(seg, List.length (MatterPhysics.springHeap (Plant.physics p)))];
  m_start : Plant.mapGet (Plant.startKey seg) (Plant.particleMap p') = Some r1;
  m_end : Plant.mapGet (Plant.endKey seg) (Plant.particleMap p') = Some r2;
  m_keep : forall k r, Plant.mapGet k (Plant.particleMap p) = Some r ->
             Plant.mapGet k (Plant.particleMap p') = Some r;
  m_heap : (List.length (MatterPhysics.bodyHeap (Plant.physics p)) <=
            List.length (MatterPhysics.bodyHeap (Plant.physics p')))%nat;
  m_old : forall r, (r < List.length (MatterPhysics.bodyHeap (Plant.physics p)))%nat ->
            MatterPhysics.getBody (Plant.physics p') r =
            MatterPhysics.getBody (Plant.physics p) r;
  m_sound : mapValid (Plant.physics p) (Plant.particleMap p) ->
            mapInj (Plant.particleMap p) ->
            mapValid (Plant.physics p') (Plant.particleMap p') /\
            mapInj (Plant.particleMap p');
  m_newStart : Plant.mapGet (Plant.startKey seg) (Plant.particleMap p) = None ->
               r1 = List.length (MatterPhysics.bodyHeap (Plant.physics p)) /\
               isFixed (Plant.physics p') r1 = LSystem.isRoot seg;
  m_newEnd : Plant.mapGet (Plant.endKey seg) (Plant.particleMap p) = None ->
             Plant.startKey seg <> Plant.endKey seg ->
             (List.length (MatterPhysics.bodyHeap (Plant.physics p)) <= r2)%nat /\
             isFixed (Plant.physics p') r2 = false;
  m_reuse : forall ra rb,
              Plant.mapGet (Plant.startKey seg) (Plant.particleMap p) = Some ra ->
              Plant.mapGet (Plant.endKey seg) (Plant.particleMap p) = Some rb ->
              r1 = ra /\ r2 = rb /\
              MatterPhysics.bodyHeap (Plant.physics p') =
              MatterPhysics.bodyHeap (Plant.physics p)
}.

(** The spring heap [ph'] is the heap of [ph] followed by new springs that
    all satisfy [P]. *)
Definition springsAdded (P : MatterPhysics.Constraint -> Prop)
    (ph ph' : MatterPhysics.t) : Prop :=
  exists added,
    MatterPhysics.springHeap ph' = MatterPhysics.springHeap ph ++ added /\
    Forall P added.

(** The structural invariant of a plant's physics graph. *)
Record wf (p : Plant.t) : Prop := {
  wf_valid : mapValid (Plant.physics p) (Plant.particleMap p);
  wf_inj : mapInj (Plant.particleMap p);
  (* a segment's spring joins the particles of its two keys *)
  wf_joined : forall seg sp, In (seg, sp) (Plant.segmentToSpring p) ->
    exists c, nth_error (MatterPhysics.springHeap (Plant.physics p)) sp = Some c /\
      Plant.mapGet (Plant.startKey seg) (Plant.particleMap p) = Some (MatterPhysics.a c) /\
      Plant.mapGet (Plant.endKey seg) (Plant.particleMap p) = Some (MatterPhysics.b c);
  (* a fruit hangs from another particle than itself *)
  wf_fruit : forall c, In c (MatterPhysics.springHeap (Plant.physics p)) ->
    MatterPhysics.origin c = MatterPhysics.FruitSpring ->
    MatterPhysics.a c <> MatterPhysics.b c;
  (* no angle constraint exists before the phase flag is set *)
  wf_phase : Plant.constraintsAdded p = false -> angleLinks p = []
}.

(** A step that touches nothing but the physics object. *)
Definition physicsOnly (p p' : Plant.t) : Prop :=
  p' = Plant.withPhysics p (Plant.physics p').

(** A step of the angle-constraint pass: only springs labelled
    [AngleSpring] are added, and no body. *)
Definition angleStep (p p' : Plant.t) : Prop :=
  physicsOnly p p' /\
  MatterPhysics.bodyHeap (Plant.physics p') = MatterPhysics.bodyHeap (Plant.physics p) /\
  springsAdded (fun c => MatterPhysics.origin c = MatterPhysics.AngleSpring)
    (Plant.physics p) (Plant.physics p').

(** A step of the fruit pass: only springs labelled [FruitSpring] are added,
    each between two different bodies; bodies are only added. *)
Definition fruitStep (p p' : Plant.t) : Prop :=
  (exists ph fp, p' = Plant.withFruitParticles (Plant.withPhysics p ph) fp) /\
  (List.length (MatterPhysics.bodyHeap (Plant.physics p)) <=
   List.length (MatterPhysics.bodyHeap (Plant.physics p')))%nat /\
  springsAdded (fun c => MatterPhysics.origin c = MatterPhysics.FruitSpring /\
                         MatterPhysics.a c <> MatterPhysics.b c)
    (Plant.physics p) (Plant.physics p').

(** A plant without its physics graph: what is left is its geometry and
    its growth state. *)
Definition skeleton (p : Plant.t) : Plant.t :=
  Plant.withFruitParticles (Plant.withBuilt p MatterPhysics.new [] []) [].

(** What [growPlant()] does to the growth state. *)
Definition growProgress (p : Plant.t) : Plant.t :=
  let total := List.length (Plant.segments p) in
  if (total <=? Plant.lastSegmentIndex p)%nat then
    Plant.withProgress p (Plant.growth p) (Plant.lastSegmentIndex p) false
      (Plant.constraintsAdded p) (Plant.fruitsAdded p)
  else
    let endIndex := Nat.min (Plant.lastSegmentIndex p + Nat.max 1 (total / 50)) total in
    let fires := Plant.mostlyBuilt endIndex total && negb (Plant.constraintsAdded p) in
    let fruiting :=
      (total <=? endIndex)%nat && (0 <? List.length (Plant.fruits p))%nat
      && negb (Plant.fruitsAdded p) in
    Plant.withProgress p (Plant.growth p) endIndex (Plant.growingPhase p)
      (if fires then true else Plant.constraintsAdded p)
      (if fruiting then true else Plant.fruitsAdded p).

(** What [update()] does to the growth state. *)
Definition updateProgress (p : Plant.t) : Plant.t :=
  let growth1 :=
    if Qltb (Plant.growth p) (Plant.targetGrowth p) then
      if Qgtb (Plant.growth p + Plant.growthRate p) (Plant.targetGrowth p)
      then Plant.targetGrowth p else Plant.growth p + Plant.growthRate p
    else Plant.growth p in
  let p1 := Plant.withProgress p growth1 (Plant.lastSegmentIndex p) (Plant.growingPhase p)
              (Plant.constraintsAdded p) (Plant.fruitsAdded p) in
  if Plant.growingPhase p1 && Qgtb (Plant.growth p1) (1 # 10) then
    if (Z.of_nat (Plant.lastSegmentIndex p1) <?
        Qfloor (Plant.growth p1 / Plant.targetGrowth p1 *
                inject_Z (Z.of_nat (Plant.totalSegments p1))))%Z
    then growProgress p1 else p1
  else p1.


(** A generator whose draws are all different; the turns drawn second,
    third, fifth and sixth balance: 2.0 = 1.0 + 2.5 - 1.5 steps of the
    angle. *)
Definition balancedRng : Rng :=
  {| draws := fun i => nth i [1 # 10; 6 # 11; 7 # 22; 3 # 10; 1 # 11; 17 # 22; 1 # 2; 9 # 10]
                         (Z.of_nat ((i * 37) mod 100) # 100);
     cursor := 0 |}.

(** The simple plant created at (100, 500) with these draws, as the
    constructor returns it, and after 29 ticks of [update()]. *)
Abbreviation seedling := (Plant.new 100 500 "simple" balancedRng) (only parsing).

Definition seedlingBuilt : completion (Plant.t * Rng) := Eval vm_compute in seedling.


(** The seedling destroyed and then updated for six ticks. *)
Definition seedlingRevived : completion Plant.t :=
  Eval vm_compute in
    bind seedlingBuilt (fun '(p, _) => updateTimes 6 (Plant.destroy p)).

(** The index in the spring heap of the first spring that satisfies [f]. *)
Fixpoint findSpring (f : MatterPhysics.Constraint -> bool)
    (l : list MatterPhysics.Constraint) (i : nat) : option nat :=
  match l with
  | [] => None
  | c :: rest => if f c then Some i else findSpring f rest (S i)
  end.

(** The thicknesses the turtle carries, saves and draws are positive. *)
Definition positive (s : LSystem.Turtle) : Prop :=
  0 < LSystem.thick s /\
  Forall (fun st => 0 < LSystem.savedThickness st) (LSystem.stack s) /\
  Forall (fun seg => 0 < LSystem.thickness seg) (LSystem.drawn s).

(** A grammar whose production is twelve pushes and one stroke. *)
Definition deepConfig : LSystem.Config :=
  {| LSystem.cfg_axiom := Some "[[[[[[[[[[[[F"%string;
     LSystem.cfg_rules := Some (fun _ => None);
     LSystem.cfg_angle := None;
     LSystem.cfg_iterations := Some 1;
     LSystem.cfg_colorVariation := None;
     LSystem.cfg_fruitProbability := None; LSystem.cfg_fruitColor := None;
     LSystem.cfg_leafColor := None; LSystem.cfg_stemColor := None |}.

(** The turtle's run on that grammar. *)
Definition deepRun : completion (LSystem.t * Rng) :=
  Eval vm_compute in
    LSystem.process (fst (LSystem.new deepConfig (constantRng 0)))
                    (snd (LSystem.new deepConfig (constantRng 0))).

(** The attractors while a pinch is held at [at_] over the plants [ps]. *)
Definition pinchOver (ps : list Plant.t) (at_ : Q * Q) : HandAttractors.t :=
  HandAttractors.pinchAt (HandAttractors.new {| HandAttractors.plants := ps |}) at_.

(** A plain segment record. *)
Definition segment (sx sy ex ey : Q) (d : nat) (th : Q) (root : bool) : LSystem.Segment :=
  {| LSystem.x1 := sx; LSystem.y1 := sy; LSystem.x2 := ex; LSystem.y2 := ey;
     LSystem.depth := d; LSystem.thickness := th; LSystem.originalAngle := 0;
     LSystem.segColor := color 80 120 40; LSystem.isRoot := root |}.

(** [k] generations of rewriting, none of them cut. *)
Fixpoint generations (rules : LSystem.RuleTable) (k : nat) (result : string) (g : Rng)
  : string * Rng :=
  match k with
  | O => (result, g)
  | S k' =>
      let (nextGen, g') := LSystem.rewriteAll rules result EmptyString g in
      generations rules k' nextGen g'
  end.

(** [n] copies of a string, one after the other. *)
Fixpoint copies (n : nat) (s : string) : string :=
  match n with
  | O => EmptyString
  | S n' => (s ++ copies n' s)%string
  end.

(** An axiom of 2001 symbols, with a negative iteration count. *)
Definition overlong : string := (copies 40 fifty ++ "F")%string.

Definition negativeCount : LSystem.Config :=
  {| LSystem.cfg_axiom := Some overlong;
     LSystem.cfg_rules := None;
     LSystem.cfg_angle := None;
     LSystem.cfg_iterations := Some (- 1);
     LSystem.cfg_colorVariation := None;
     LSystem.cfg_fruitProbability := None; LSystem.cfg_fruitColor := None;
     LSystem.cfg_leafColor := None; LSystem.cfg_stemColor := None |}.

(** The string [s] has no character [mark]. *)
Fixpoint lacks (mark : ascii) (s : string) : bool :=
  match s with
  | EmptyString => true
  | String c rest => negb (Ascii.eqb c mark) && lacks mark rest
  end.

Definition isDigit (c : ascii) : bool :=
  existsb (Ascii.eqb c) ["0"; "1"; "2"; "3"; "4"; "5"; "6"; "7"; "8"; "9"]%char.

(** The number of hundredths that [toFixed(2)] prints for [x]: [|x|]
    rounded to the nearest hundredth, upwards on a tie. *)
Definition hundredths (x : Q) : N := Z.to_N (Qfloor (Qabs x * 100 + (1 # 2))).

(** Two coordinates that [toFixed(2)] prints alike: both negative or both
    not, and the same number of hundredths. *)
Definition sameCell (x x' : Q) : Prop :=
  Qltb x 0 = Qltb x' 0 /\ hundredths x = hundredths x'.

(** Two segments that meet within two ten-thousandths, on either side of
    the half hundredth, and two that meet within a thousandth, on either
    side of zero. *)
Definition nearA : LSystem.Segment := segment 0 990 (49 # 10000) 1000 0 1 false.
Definition nearB : LSystem.Segment := segment (51 # 10000) 1000 0 1010 0 1 false.
Definition zeroA : LSystem.Segment := segment 990 2000 0 2000 0 1 false.
Definition zeroB : LSystem.Segment := segment (- (1 # 1000)) 2000 10 2000 0 1 false.

(** ** Vocabulary of the garden, the hands and the atmosphere *)

(** Number of occurrences of a symbol in a string. *)
Fixpoint occurs (c : ascii) (w : string) : nat :=
  match w with
  | EmptyString => 0
  | String a rest => ((if Ascii.eqb a c then 1 else 0) + occurs c rest)%nat
  end.

(** The brackets of [w] match when [opened] brackets are open before it. *)
Fixpoint balancedFrom (w : string) (opened : nat) : bool :=
  match w with
  | EmptyString => Nat.eqb opened 0
  | String a rest =>
      if Ascii.eqb a "[" then balancedFrom rest (S opened)
      else if Ascii.eqb a "]" then
        match opened with
        | O => false
        | S k => balancedFrom rest k
        end
      else balancedFrom rest opened
  end.

(** A rule table of plain replacement strings. *)
Definition plainRules (rules : LSystem.RuleTable) : Prop :=
  forall c, match rules c with
            | Some (LSystem.RWeighted _) | Some (LSystem.RFunction _) => False
            | _ => True
            end.

(** The plants a garden holds: built by the constructor and from then on
    only updated. *)
Inductive grown `{MathEnv} `{MatterPhysics.Engine} : Plant.t -> Prop :=
| grown_new : forall px py type g p g',
    Plant.new px py type g = Normal (p, g') -> grown p
| grown_update : forall p p',
    grown p -> Plant.update p = Normal p' -> grown p'.

(** The bounds of the growth state. *)
Record paced (p : Plant.t) : Prop := {
  paced_target : Plant.targetGrowth p = 1;
  paced_rate : Plant.growthRate p = 3 # 100;
  paced_growth : 0 <= Plant.growth p <= 1;
  paced_index : (Plant.lastSegmentIndex p <= List.length (Plant.segments p))%nat;
  paced_total : Plant.totalSegments p = List.length (Plant.segments p)
}.

(** The fruit particles of a plant match its fruit flag. *)
Definition fruitful (p : Plant.t) : Prop :=
  (Plant.fruitsAdded p = false -> Plant.fruitParticles p = []) /\
  (Plant.fruitsAdded p = true ->
   List.length (Plant.fruitParticles p) = List.length (Plant.fruits p)).

(** The segments the constructor materialises. *)
Definition rootSegments (segs : list LSystem.Segment) : list LSystem.Segment :=
  firstn 3 (filter (fun segment => Nat.eqb (LSystem.depth segment) 0) segs).

(** The gardens the program can hold. *)
Inductive tended `{MathEnv} `{MatterPhysics.Engine} : EnhancedGarden.t -> Prop :=
| tended_new : tended EnhancedGarden.new
| tended_create : forall g x y type currentTime rng,
    tended g ->
    tended (EnhancedGarden.gardenOf (EnhancedGarden.createPlant g x y type currentTime rng))
| tended_update : forall g, tended g -> tended (EnhancedGarden.update g)
| tended_clear : forall g, tended g -> tended (EnhancedGarden.clearPlants g)
| tended_setTheme : forall g theme,
    tended g -> tended (snd (EnhancedGarden.setTheme g theme))
| tended_cycle : forall g, tended g -> tended (snd (EnhancedGarden.cycleTheme g)).

(** [n] presses of the theme button. *)
Fixpoint cycleTimes (n : nat) (g : EnhancedGarden.t) : EnhancedGarden.t :=
  match n with
  | O => g
  | S n' => cycleTimes n' (snd (EnhancedGarden.cycleTheme g))
  end.

(** What every garden the program can hold satisfies. *)
Record kept `{MathEnv} `{MatterPhysics.Engine} (g : EnhancedGarden.t) : Prop := {
  kept_max : EnhancedGarden.maxPlants g = 18%nat;
  kept_gap : EnhancedGarden.minTimeBetweenPlants g = 600;
  kept_types : EnhancedGarden.plantTypes g = LSystem.plantTypes;
  kept_room : (List.length (EnhancedGarden.plants g) <= 18)%nat;
  kept_grown : Forall grown (EnhancedGarden.plants g);
  kept_theme : In (EnhancedGarden.currentTheme g) ("mixed"%string :: LSystem.plantTypes)
}.

(** The theme that follows [theme] on the theme button. *)
Definition nextTheme (theme : string) : string :=
  EnhancedGarden.currentTheme
    (snd (EnhancedGarden.cycleTheme
            (EnhancedGarden.withTheme EnhancedGarden.new theme))).

(** The last [n] elements of a list. *)
Definition lastn {A} (n : nat) (l : list A) : list A := skipn (List.length l - n) l.

(** The samples a list of frames asks [updateHistory] to push. *)
Definition wristSamples (frames : list (option Hand.t * Q)) : list HandGestures.Sample :=
  flat_map (fun frame =>
              match fst frame with
              | Some hand =>
                  match Hand.keypoints hand with
                  | Some (wrist :: _) =>
                      [{| HandGestures.sampleX := Hand.x wrist;
                          HandGestures.sampleY := Hand.y wrist;
                          HandGestures.timestamp := snd frame |}]
                  | _ => []
                  end
              | None => []
              end) frames.

(** The gesture detector after a run of frames. *)
Definition watch `{MathEnv} (g : HandGestures.t) (frames : list (option Hand.t * Q))
  : HandGestures.t :=
  fold_left (fun g frame => snd (HandGestures.update g (fst frame) (snd frame))) frames g.

(** The settings of the hand attractors the program can reach. *)
Inductive tuned `{MathEnv} : HandInput.t -> Prop :=
| tuned_new : forall garden windowWidth, tuned (HandInput.new garden windowWidth)
| tuned_toggle : forall c, tuned c -> tuned (snd (HandInput.toggle c))
| tuned_strength : forall c strength,
    tuned c -> tuned (snd (HandInput.setStrength c strength))
| tuned_radius : forall c radius, tuned c -> tuned (snd (HandInput.setRadius c radius))
| tuned_update : forall c garden hands height nowButton nowPlant currentTime rng,
    tuned c ->
    tuned (HandInput.state
             (HandInput.update c garden hands height nowButton nowPlant currentTime rng)).

(** The atmospheres the program can hold, on canvases of any size. *)
Inductive aired `{MathEnv} : Atmosphere.t -> Prop :=
| aired_new : forall cv g, aired (fst (Atmosphere.new cv g))
| aired_update : forall a cv g a' g',
    aired a -> Atmosphere.update a cv g = Normal (a', g') -> aired a'
| aired_effect : forall a cv px py type count g,
    aired a -> aired (fst (Atmosphere.addLocalEffect a cv px py type count g))
| aired_resized : forall a cv, aired a -> aired (Atmosphere.windowResized a cv).

(** A generator whose draws lie in [[0, 1)], as those of p5 do. *)
Definition fair (g : Rng) : Prop := forall n, 0 <= draws g n < 1.

(** The winds the program can hold. *)
Inductive blown `{MathEnv} : Sketch.WindEffect -> Prop :=
| blown_start : blown Sketch.windEffect
| blown_update : forall w plants height frameCount g,
    blown w -> fair g ->
    blown (fst (fst (Sketch.updateWindEffect w plants height frameCount g))).

(** A dust particle is new or was updated: its age is [0] or [1]. *)
Definition ageless (d : Atmosphere.Dust) : Prop :=
  Atmosphere.age d = 0 \/ Atmosphere.age d = 1.

(** What every atmosphere the program can hold satisfies. *)
Record settled (a : Atmosphere.t) : Prop := {
  settled_maxFireflies : Atmosphere.maxFireflies a = 30%nat;
  settled_maxDust : Atmosphere.maxDustParticles a = 500%nat;
  settled_fireflies : (30 <= List.length (Atmosphere.fireflies a) <= 40)%nat;
  settled_dust : (500 <= List.length (Atmosphere.dustParticles a) <= 550)%nat;
  settled_age : Forall ageless (Atmosphere.dustParticles a)
}.

(** What every wind the program can hold satisfies. *)
Record gentle (w : Sketch.WindEffect) : Prop := {
  gentle_active : Sketch.active w = true;
  gentle_max : Sketch.maxForce w = 25 # 100000;
  gentle_force : - (25 # 100000) <= Sketch.force w <= 25 # 100000;
  gentle_target : - (25 # 100000) <= Sketch.targetForce w <= 25 # 100000
}.

(** The tracking lists of a physics object name every particle and every
    spring it created, once each, in the order of creation. *)
Definition tracked (ph : MatterPhysics.t) : Prop :=
  MatterPhysics.bodies ph = seq 0 (List.length (MatterPhysics.bodyHeap ph)) /\
  MatterPhysics.springs ph = seq 0 (List.length (MatterPhysics.springHeap ph)).

(** A rule table with one weighted rule: [F] becomes [FF] or [F[+F]], each
    with weight one half. *)
Definition coinRules : LSystem.RuleTable :=
  fun a => if Ascii.eqb a "F"
           then Some (LSystem.RWeighted [("FF"%string, 1 # 2); ("F[+F]"%string, 1 # 2)])
           else None.

(** A hand that shows its thumb tip at (0, 0) and its index finger tip at
    (3, 4), five pixels apart. *)
Definition pinchingHand : Hand.t :=
  {| Hand.part := fun name =>
       if String.eqb name "thumb_tip" then Some {| Hand.x := 0; Hand.y := 0 |}
       else if String.eqb name "index_finger_tip" then Some {| Hand.x := 3; Hand.y := 4 |}
       else None;
     Hand.keypoints := None |}.

(** A canvas of 800 by 600 pixels at its first frame. *)
Definition canvas : Atmosphere.Canvas :=
  {| Atmosphere.width := 800; Atmosphere.height := 600; Atmosphere.frameCount := 0 |}.

(** The first planting in a new garden, one second after it was made. *)
Abbreviation firstPlanting :=
  (EnhancedGarden.createPlant EnhancedGarden.new 100 500 (Some "simple"%string) 1000
     balancedRng) (only parsing).

(* ================================================================== *)
(** * Part III. Properties                                             *)
(* ================================================================== *)

(** ** Grammar engine *)

Section Grammar.
Context {env : MathEnv}.

Lemma length_substring_0 : forall n s,
  String.length (substring 0 n s) = Nat.min n (String.length s).
Proof.
  induction n as [|n IH]; intros [|c s]; simpl; auto.
Qed.

Lemma iterate_capped : forall rules n result g,
  (1 <= n \/ String.length result <= LSystem.cap)%nat ->
  (String.length (fst (LSystem.iterate rules n result g)) <= LSystem.cap)%nat.
Proof.
  intros rules n; induction n as [|n IH]; intros result g Hn; simpl.
  - destruct Hn as [Hn|Hn]; [lia|exact Hn].
  - destruct (LSystem.rewriteAll rules result EmptyString g) as [nextGen g'] eqn:E.
    destruct (LSystem.cap <? String.length nextGen)%nat eqn:Hc.
    + simpl. rewrite length_substring_0. lia.
    + apply IH. right. apply Nat.ltb_ge in Hc. exact Hc.
Qed.

Lemma generate_fields : forall l g,
  LSystem.generate l g =
    ({| LSystem.axiom := LSystem.axiom l; LSystem.rules := LSystem.rules l;
        LSystem.angle := LSystem.angle l; LSystem.iterations := LSystem.iterations l;
        LSystem.segments := LSystem.segments l;
        LSystem.colorVariation := LSystem.colorVariation l;
        LSystem.fruitProbability := LSystem.fruitProbability l;
        LSystem.fruitColor := LSystem.fruitColor l;
        LSystem.leafColor := LSystem.leafColor l;
        LSystem.stemColor := LSystem.stemColor l;
        LSystem.production :=
          fst (LSystem.iterate (LSystem.rules l) (LSystem.passes (LSystem.iterations l))
                 (LSystem.axiom l) g);
        LSystem.fruits := LSystem.fruits l |},
     snd (LSystem.iterate (LSystem.rules l) (LSystem.passes (LSystem.iterations l))
            (LSystem.axiom l) g)).
Proof.
  intros l g. unfold LSystem.generate.
  destruct (LSystem.iterate (LSystem.rules l) (LSystem.passes (LSystem.iterations l))
              (LSystem.axiom l) g).
  reflexivity.
Qed.

(** The loop runs at least once for a positive count, not at all for
    another, and never more often than the count rounded up. *)
Lemma passes_positive : forall count, 0 < count -> (1 <= LSystem.passes count)%nat.
Proof.
  intros count Hc. unfold LSystem.passes.
  pose proof (Qle_ceiling count) as Hle.
  assert (0 < inject_Z (Qceiling count)) as Hpos by lra.
  change 0 with (inject_Z 0) in Hpos. rewrite <- Zlt_Qlt in Hpos. lia.
Qed.

Lemma passes_none : forall count, count <= 0 -> LSystem.passes count = 0%nat.
Proof.
  intros count Hc. unfold LSystem.passes.
  pose proof (Qceiling_resp_le _ _ Hc) as Hle.
  change (Qceiling 0) with 0%Z in Hle. lia.
Qed.

Lemma passes_bounded : forall count (n : nat),
  count <= inject_Z (Z.of_nat n) -> (LSystem.passes count <= n)%nat.
Proof.
  intros count n Hc. unfold LSystem.passes.
  pose proof (Qceiling_resp_le _ _ Hc) as Hle.
  rewrite Qceiling_Z in Hle. lia.
Qed.

Lemma iterations_clamped : forall config g,
  LSystem.iterations (fst (LSystem.new config g)) =
    Qmin (orNum (LSystem.orElse (LSystem.cfg_iterations config) 0) 2) 4 /\
  LSystem.iterations (fst (LSystem.new config g)) <= 4 /\
  ~ LSystem.iterations (fst (LSystem.new config g)) == 0.
Proof.
  intros config g. unfold LSystem.new. rewrite generate_fields.
  cbn [fst LSystem.iterations]. split; [reflexivity|]. split; [apply Q.le_min_r|].
  unfold orNum.
  destruct (Qeq_bool (LSystem.orElse (LSystem.cfg_iterations config) 0) 0) eqn:E.
  - rewrite Q.min_l by lra. lra.
  - apply Qeq_bool_neq in E.
    destruct (Q.min_spec (LSystem.orElse (LSystem.cfg_iterations config) 0) 4)
      as [[_ ->]|[_ ->]]; [exact E | lra].
Qed.

(** The loop of [generate] against the generations it runs: it returns
    the first generation that is longer than the cap, cut, or the last one
    when none is. *)
Lemma iterate_cut : forall rules k n result g,
  (k < n)%nat ->
  (forall j, (1 <= j <= k)%nat ->
     (String.length (fst (generations rules j result g)) <= LSystem.cap)%nat) ->
  (LSystem.cap < String.length (fst (generations rules (S k) result g)))%nat ->
  LSystem.iterate rules n result g =
    (substring 0 LSystem.cap (fst (generations rules (S k) result g)),
     snd (generations rules (S k) result g)).
Proof.
  intros rules; induction k as [|k IH]; intros n result g Hk Hshort Hlong;
    (destruct n as [|n]; [lia|]); cbn [LSystem.iterate generations] in *.
  - destruct (LSystem.rewriteAll rules result EmptyString g) as [nextGen g'].
    cbn [fst snd] in *. apply Nat.ltb_lt in Hlong. rewrite Hlong. reflexivity.
  - pose proof (Hshort 1%nat ltac:(lia)) as H1. cbn [generations] in H1.
    destruct (LSystem.rewriteAll rules result EmptyString g) as [nextGen g'] eqn:E.
    cbn [fst] in H1. apply Nat.leb_le in H1. rewrite Nat.leb_antisym in H1.
    apply negb_true_iff in H1. rewrite H1.
    apply IH; [lia| |exact Hlong].
    intros j Hj. specialize (Hshort (S j) ltac:(lia)).
    cbn [generations] in Hshort. rewrite E in Hshort. exact Hshort.
Qed.

Lemma iterate_all : forall rules n result g,
  (forall j, (1 <= j <= n)%nat ->
     (String.length (fst (generations rules j result g)) <= LSystem.cap)%nat) ->
  LSystem.iterate rules n result g = generations rules n result g.
Proof.
  intros rules; induction n as [|n IH]; intros result g Hshort;
    cbn [LSystem.iterate generations]; [reflexivity|].
  pose proof (Hshort 1%nat ltac:(lia)) as H1. cbn [generations] in H1.
  destruct (LSystem.rewriteAll rules result EmptyString g) as [nextGen g'] eqn:E.
  cbn [fst] in H1. apply Nat.leb_le in H1. rewrite Nat.leb_antisym in H1.
  apply negb_true_iff in H1. rewrite H1.
  apply IH. intros j Hj. specialize (Hshort (S j) ltac:(lia)).
  cbn [generations] in Hshort. rewrite E in Hshort. exact Hshort.
Qed.

(** C5: the constructor keeps the iteration count at 4 or below, so that
    [generate] runs at most four generations.  With a positive count the
    production has at most [cap] = 2000 symbols: [generate] returns the
    first generation that is longer than the cap, cut to its first 2000
    symbols, and runs no generation after it (the generator is left as that
    generation left it); when no generation is longer it returns the last
    one.  But a negative count is kept as it is: then no generation runs,
    the length is never checked and the production is the axiom, so that the
    axiom of 2001 symbols comes back whole. *)
Theorem generate_within_cap : forall config g,
  let l := fst (LSystem.new config g) in
  let after := snd (LSystem.new config g) in
  let generation k := generations (LSystem.rules l) k (LSystem.axiom l) g in
  LSystem.iterations l <= 4 /\
  (LSystem.passes (LSystem.iterations l) <= 4)%nat /\
  (0 < LSystem.iterations l ->
   (String.length (LSystem.production l) <= LSystem.cap)%nat) /\
  (forall k,
     (k < LSystem.passes (LSystem.iterations l))%nat ->
     (forall j, (1 <= j <= k)%nat ->
        (String.length (fst (generation j)) <= LSystem.cap)%nat) ->
     (LSystem.cap < String.length (fst (generation (S k))))%nat ->
     LSystem.production l = substring 0 LSystem.cap (fst (generation (S k))) /\
     String.length (LSystem.production l) = LSystem.cap /\
     after = snd (generation (S k))) /\
  ((forall j, (1 <= j <= LSystem.passes (LSystem.iterations l))%nat ->
      (String.length (fst (generation j)) <= LSystem.cap)%nat) ->
   LSystem.production l = fst (generation (LSystem.passes (LSystem.iterations l))) /\
   after = snd (generation (LSystem.passes (LSystem.iterations l)))) /\
  (LSystem.iterations l < 0 -> LSystem.production l = LSystem.axiom l /\ after = g) /\
  LSystem.iterations (fst (LSystem.new negativeCount g)) == - 1 /\
  LSystem.production (fst (LSystem.new negativeCount g)) = overlong /\
  String.length (LSystem.production (fst (LSystem.new negativeCount g))) = 2001%nat.
Proof.
  intros config g l after generation.
  destruct (iterations_clamped config g) as [_ [Hmax _]].
  assert (Hnew : LSystem.new config g =
            (l, snd (LSystem.iterate (LSystem.rules l) (LSystem.passes (LSystem.iterations l))
                       (LSystem.axiom l) g)) /\
          LSystem.production l =
            fst (LSystem.iterate (LSystem.rules l) (LSystem.passes (LSystem.iterations l))
                   (LSystem.axiom l) g)).
  { subst l. unfold LSystem.new. rewrite generate_fields. split; reflexivity. }
  destruct Hnew as [Hnew Hprod].
  assert (Hafter : after =
            snd (LSystem.iterate (LSystem.rules l) (LSystem.passes (LSystem.iterations l))
                   (LSystem.axiom l) g)).
  { subst after. rewrite Hnew. reflexivity. }
  split; [exact Hmax|].
  split; [apply (@passes_bounded _ 4%nat); exact Hmax|].
  split; [intros Hpos; rewrite Hprod; apply iterate_capped; left;
          apply passes_positive; exact Hpos|].
  split; [|split; [|split]].
  - intros k Hk Hshort Hlong.
    rewrite Hprod, Hafter, (iterate_cut _ _ _ Hk Hshort Hlong). cbn [fst snd].
    split; [reflexivity|]. split; [|reflexivity].
    rewrite length_substring_0. unfold generation in Hlong. lia.
  - intros Hshort. rewrite Hprod, Hafter, (iterate_all _ _ _ Hshort).
    split; reflexivity.
  - intros Hneg. rewrite Hprod, Hafter, passes_none by lra. split; reflexivity.
  - split; [reflexivity|]. split; [reflexivity|]. vm_compute. reflexivity.
Qed.

(** C2 (as the code has it): the scenario's grammar rewrites [F] twice
    into one fixed string of 56 symbols, whatever the random generator
    holds, and leaves the generator untouched. *)
Theorem scenario1_production : forall g,
  LSystem.production (fst (LSystem.new scenario1 g)) =
    "FF+[+F]-[-F]FF+[+F]-[-F]+[+FF+[+F]-[-F]]-[-FF+[+F]-[-F]]"%string /\
  String.length (LSystem.production (fst (LSystem.new scenario1 g))) = 56%nat /\
  snd (LSystem.new scenario1 g) = g.
Proof.
  intros g. repeat split.
Qed.

End Grammar.

(** Witness of C5, at its two ends: in the grammar [F -> F^50] with four
    iterations the second generation has 2500 symbols and the production is
    its first 2000; with the count [-1] the axiom of 2001 symbols is the
    production. *)
Lemma generate_within_cap_witness :
  String.length (LSystem.production (fst (LSystem.new explosive (constantRng 0)))) =
    2000%nat /\
  String.length (LSystem.production (fst (LSystem.new negativeCount (constantRng 0)))) =
    2001%nat.
Proof.
  destruct (generate_within_cap explosive (constantRng 0))
    as [_ [_ [_ [Hcut [_ [_ [_ [_ Hlong]]]]]]]].
  split; [|exact Hlong].
  refine (proj1 (proj2 (Hcut 1%nat _ _ _))).
  - vm_compute. lia.
  - intros j Hj. assert (j = 1%nat) as -> by lia. vm_compute. lia.
  - vm_compute. lia.
Defined.

(** C2, refuted as stated: the production has 56 symbols, not 11. *)
Lemma scenario1_length_not_11 :
  String.length (LSystem.production (fst (LSystem.new scenario1 (constantRng 0)))) <> 11%nat.
Proof.
  vm_compute. discriminate.
Qed.

(** ** Turtle interpreter *)

Section TurtleProperties.
Context {env : MathEnv}.

(** A pop on the empty stack is a step that changes nothing and does not
    throw, so the walk over [']' :: rest] is the walk over [rest]. *)
Lemma pop_on_empty_stack : forall l s rest,
  LSystem.stack s = [] ->
  LSystem.step l s "]" = Normal s /\
  LSystem.walk l s (String "]" rest) = LSystem.walk l s rest.
Proof.
  intros l s rest Hempty.
  assert (Hstep : LSystem.step l s "]" = Normal s).
  { unfold LSystem.step. simpl. rewrite Hempty. reflexivity. }
  split; [exact Hstep|].
  simpl LSystem.walk. rewrite Hstep. reflexivity.
Qed.

(** Without colour variation no symbol makes a step throw. *)
Lemma step_normal : forall l s char,
  LSystem.colorVariation l = false -> exists s', LSystem.step l s char = Normal s'.
Proof.
  intros l s char Hcv. unfold LSystem.step. rewrite Hcv.
  repeat match goal with
         | |- context [if ?b then _ else _] => destruct b
         | |- context [let (_, _) := ?e in _] => destruct e
         | |- context [match LSystem.stack s with _ => _ end] => destruct (LSystem.stack s)
         end; eauto.
Qed.

Lemma walk_normal : forall l production s,
  LSystem.colorVariation l = false -> exists s', LSystem.walk l s production = Normal s'.
Proof.
  intros l production; induction production as [|char rest IH]; intros s Hcv; simpl.
  - eauto.
  - destruct (step_normal l s char Hcv) as [s' Hs]. rewrite Hs. simpl. apply IH, Hcv.
Qed.

Lemma step_positive : forall l s char s',
  positive s -> LSystem.step l s char = Normal s' -> positive s'.
Proof.
  intros l s char s' [Ht [Hs Hd]]. unfold LSystem.step.
  repeat match goal with
         | |- context [if ?b then _ else _] => destruct b
         | |- context [let (_, _) := ?e in _] => destruct e
         end;
  try destruct (LSystem.stack s) as [|state rest] eqn:Est;
  intros H; inversion H; subst; clear H; unfold positive; simpl;
  try rewrite Est; try (inversion Hs; subst);
  repeat split; auto; try lra;
  try (apply Forall_app; split; auto).
Qed.

Lemma walk_positive : forall l production s s',
  positive s -> LSystem.walk l s production = Normal s' -> positive s'.
Proof.
  intros l production; induction production as [|char rest IH]; intros s s' Hp; simpl.
  - intros H; inversion H; subst; exact Hp.
  - destruct (LSystem.step l s char) as [s1|e] eqn:Hs; simpl; [|discriminate].
    apply IH. eapply step_positive; eauto.
Qed.

Lemma process_thickness_positive : forall l g l' g',
  LSystem.process l g = Normal (l', g') ->
  Forall (fun seg => 0 < LSystem.thickness seg) (LSystem.segments l').
Proof.
  intros l g l' g'. unfold LSystem.process.
  destruct (LSystem.walk l (LSystem.start l g) (LSystem.production l)) as [s|e] eqn:Hw;
    simpl; [|discriminate].
  intros H; inversion H; subst; clear H. simpl.
  eapply walk_positive; [|exact Hw].
  unfold positive, LSystem.start; simpl. repeat split; auto.
Qed.

(** C10: a pop on the empty stack changes nothing, does not throw, and
    the walk goes on with the rest of the string; without colour variation
    the walk of every string returns normally; but with colour variation
    on, the production ["c"] makes [process()] throw a [TypeError], so the
    interpreter is not total. *)
Theorem turtle_totality : forall l s rest g,
  (LSystem.stack s = [] ->
   LSystem.step l s "]" = Normal s /\
   LSystem.walk l s (String "]" rest) = LSystem.walk l s rest) /\
  (LSystem.colorVariation l = false -> exists s', LSystem.walk l s rest = Normal s') /\
  LSystem.production (fst (LSystem.new colourShift g)) = "c"%string /\
  LSystem.colorVariation (fst (LSystem.new colourShift g)) = true /\
  LSystem.process (fst (LSystem.new colourShift g)) (snd (LSystem.new colourShift g)) =
    Throw (TypeError "color is not a function").
Proof.
  intros l s rest g. split; [|split].
  - apply pop_on_empty_stack.
  - apply walk_normal.
  - repeat split.
Qed.

End TurtleProperties.

(** ** Mass derivation *)

Section Masses.



End Masses.



(** ** Coordinate keys *)

Section Keys.

Lemma lacks_app : forall mark a b,
  lacks mark (a ++ b) = lacks mark a && lacks mark b.
Proof.
  intros mark; induction a as [|c a IH]; intros b; cbn [append lacks]; [reflexivity|].
  rewrite IH. apply andb_assoc.
Qed.

(** Two strings cut at their first [mark] are equal part by part. *)
Lemma cut_at_mark : forall mark a a' t t',
  lacks mark a = true -> lacks mark a' = true ->
  (a ++ String mark t)%string = (a' ++ String mark t')%string ->
  a = a' /\ t = t'.
Proof.
  intros mark; induction a as [|c a IH]; intros [|c' a'] t t'; cbn [append lacks].
  - intros _ _ H. injection H as ->. split; reflexivity.
  - intros _ Ha' H. injection H as <- _.
    rewrite Ascii.eqb_refl in Ha'. discriminate.
  - intros Ha _ H. injection H as -> _.
    rewrite Ascii.eqb_refl in Ha. discriminate.
  - intros Ha Ha' H. injection H as -> H.
    apply andb_true_iff in Ha. apply andb_true_iff in Ha'.
    destruct (IH a' t t' (proj2 Ha) (proj2 Ha') H) as [-> ->]. split; reflexivity.
Qed.

Lemma to_uint_nonnil : forall n : N, N.to_uint n <> Nil.
Proof.
  intros [|p]; [discriminate|]. apply DecimalPos.Unsigned.to_uint_nonnil.
Qed.

Lemma digits_plain : forall n, digits n = NilEmpty.string_of_uint (N.to_uint n).
Proof.
  intros n. unfold digits, NilZero.string_of_uint.
  pose proof (to_uint_nonnil n) as Hn. destruct (N.to_uint n); [contradiction|..]; reflexivity.
Qed.

Lemma digits_inj : forall n m, digits n = digits m -> n = m.
Proof.
  intros n m H. apply (f_equal NilZero.uint_of_string) in H. unfold digits in H.
  rewrite !NilZero.usu in H by apply to_uint_nonnil.
  injection H as H. apply (f_equal N.of_uint) in H.
  now rewrite !DecimalN.Unsigned.of_to in H.
Qed.

Lemma uint_lacks : forall mark d,
  isDigit mark = false -> lacks mark (NilEmpty.string_of_uint d) = true.
Proof.
  intros mark d Hm. induction d; cbn [NilEmpty.string_of_uint lacks]; try reflexivity;
    rewrite IHd, andb_true_r; apply negb_true_iff;
    match goal with |- Ascii.eqb ?c mark = false =>
      destruct (Ascii.eqb_spec c mark) as [<-|]; [discriminate Hm|reflexivity] end.
Qed.

Lemma digits_lacks : forall mark n, isDigit mark = false -> lacks mark (digits n) = true.
Proof. intros mark n Hm. rewrite digits_plain. apply uint_lacks, Hm. Qed.

Lemma digits_head : forall n, exists c rest, digits n = String c rest /\ isDigit c = true.
Proof.
  intros n. rewrite digits_plain. pose proof (to_uint_nonnil n) as Hn.
  destruct (N.to_uint n); [contradiction|..]; cbn [NilEmpty.string_of_uint];
    do 2 eexists; (split; [reflexivity|reflexivity]).
Qed.

Lemma digits_one : forall n, (n < 10)%N -> exists c, digits n = String c EmptyString.
Proof.
  intros n Hn. rewrite <- (N2Nat.id n).
  assert (N.to_nat n < 10)%nat as Hlt by lia.
  destruct (N.to_nat n) as [|[|[|[|[|[|[|[|[|[|k]]]]]]]]]]; try (eexists; reflexivity).
  lia.
Qed.

(** What [toFixed(2)] prints for the sign [neg] and [n] hundredths. *)
Lemma toFixed2_print : forall x,
  toFixed2 x =
    ((if Qltb x 0 then "-" else EmptyString) ++
     digits (N.div (hundredths x) 100) ++
     String "." (digits (N.div (N.modulo (hundredths x) 100) 10) ++
                 digits (N.modulo (N.modulo (hundredths x) 100) 10)))%string.
Proof. reflexivity. Qed.

Lemma print_inj : forall (neg neg' : bool) (n n' : N),
  ((if neg then "-" else EmptyString) ++
   digits (N.div n 100) ++
   String "." (digits (N.div (N.modulo n 100) 10) ++
               digits (N.modulo (N.modulo n 100) 10)))%string =
  ((if neg' then "-" else EmptyString) ++
   digits (N.div n' 100) ++
   String "." (digits (N.div (N.modulo n' 100) 10) ++
               digits (N.modulo (N.modulo n' 100) 10)))%string ->
  neg = neg' /\ n = n'.
Proof.
  intros neg neg' n n' H.
  assert (Hbody : neg = neg' /\
            (digits (N.div n 100) ++
             String "." (digits (N.div (N.modulo n 100) 10) ++
                         digits (N.modulo (N.modulo n 100) 10)))%string =
            (digits (N.div n' 100) ++
             String "." (digits (N.div (N.modulo n' 100) 10) ++
                         digits (N.modulo (N.modulo n' 100) 10)))%string).
  { destruct neg, neg'; cbn [append] in H.
    - injection H as H. split; [reflexivity|exact H].
    - destruct (digits_head (N.div n' 100)) as [c [rest [E Hc]]]. rewrite E in H.
      cbn [append] in H. injection H as <- _. discriminate Hc.
    - destruct (digits_head (N.div n 100)) as [c [rest [E Hc]]]. rewrite E in H.
      cbn [append] in H. injection H as -> _. discriminate Hc.
    - split; [reflexivity|exact H]. }
  destruct Hbody as [Hneg Hbody]. split; [exact Hneg|].
  apply cut_at_mark in Hbody; try (apply digits_lacks; reflexivity).
  destruct Hbody as [Hq Hfrac]. apply digits_inj in Hq.
  assert (Hlt : forall m, (N.modulo m 100 / 10 < 10)%N /\ (N.modulo (N.modulo m 100) 10 < 10)%N).
  { intros m. split.
    - apply N.Div0.div_lt_upper_bound. change (10 * 10)%N with 100%N.
      apply N.mod_lt. discriminate.
    - apply N.mod_lt. discriminate. }
  destruct (digits_one (proj1 (Hlt n))) as [c1 E1], (digits_one (proj2 (Hlt n))) as [c2 E2].
  destruct (digits_one (proj1 (Hlt n'))) as [d1 F1], (digits_one (proj2 (Hlt n'))) as [d2 F2].
  pose proof Hfrac as Hfrac'. rewrite E1, E2, F1, F2 in Hfrac'. cbn [append] in Hfrac'.
  injection Hfrac' as -> ->. rewrite <- F1 in E1. rewrite <- F2 in E2.
  apply digits_inj in E1. apply digits_inj in E2.
  rewrite (N.div_mod n 100), (N.div_mod n' 100) by discriminate.
  rewrite (N.div_mod (N.modulo n 100) 10), (N.div_mod (N.modulo n' 100) 10) by discriminate.
  rewrite Hq, E1, E2. reflexivity.
Qed.

(** [toFixed(2)] prints two numbers alike exactly when they have the same
    sign flag and round to the same number of hundredths. *)
Lemma toFixed2_same : forall x x', toFixed2 x = toFixed2 x' <-> sameCell x x'.
Proof.
  intros x x'. rewrite !toFixed2_print. split.
  - intros H. apply print_inj in H. exact H.
  - intros [-> ->]. reflexivity.
Qed.

Lemma toFixed2_lacks_comma : forall x, lacks "," (toFixed2 x) = true.
Proof.
  intros x. rewrite toFixed2_print, !lacks_app. cbn [lacks]. rewrite lacks_app.
  rewrite !digits_lacks by reflexivity. destruct (Qltb x 0); reflexivity.
Qed.

(** Two points have one key exactly when [toFixed(2)] prints their
    coordinates alike, one by one. *)
Lemma key_same : forall px py px' py',
  Plant.key px py = Plant.key px' py' <-> sameCell px px' /\ sameCell py py'.
Proof.
  intros px py px' py'. unfold Plant.key. rewrite <- !toFixed2_same. split.
  - intros H. cbn [append] in H.
    apply cut_at_mark in H; try apply toFixed2_lacks_comma. exact H.
  - intros [-> ->]. reflexivity.
Qed.

(** Coordinates that are printed alike are less than a hundredth apart. *)
Lemma sameCell_close : forall x x', sameCell x x' -> Qabs (x - x') < 1 # 100.
Proof.
  intros x x' [Hsign Hn]. unfold hundredths in Hn.
  assert (Hnn : forall v, (0 <= Qfloor (Qabs v * 100 + (1 # 2)))%Z).
  { intros v. change 0%Z with (Qfloor 0). apply Qfloor_resp_le.
    pose proof (Qabs_nonneg v). lra. }
  apply (f_equal Z.of_N) in Hn. rewrite !Z2N.id in Hn by apply Hnn.
  pose proof (Qfloor_le (Qabs x * 100 + (1 # 2))) as L1.
  pose proof (Qlt_floor (Qabs x * 100 + (1 # 2))) as U1.
  pose proof (Qfloor_le (Qabs x' * 100 + (1 # 2))) as L2.
  pose proof (Qlt_floor (Qabs x' * 100 + (1 # 2))) as U2.
  rewrite Hn in L1, U1. rewrite inject_Z_plus in U1, U2.
  change (inject_Z 1) with 1 in U1, U2.
  assert (Habs : forall v, Qltb v 0 = true -> Qabs v == - v).
  { intros v Hv. apply Qabs_neg. unfold Qltb in Hv. apply negb_true_iff in Hv.
    destruct (Qlt_le_dec v 0) as [Hlt|Hle]; [lra|].
    apply Qle_bool_iff in Hle. congruence. }
  assert (Hpos : forall v, Qltb v 0 = false -> Qabs v == v).
  { intros v Hv. apply Qabs_pos. unfold Qltb in Hv. apply negb_false_iff in Hv.
    apply Qle_bool_iff in Hv. exact Hv. }
  apply Qabs_Qlt_condition.
  destruct (Qltb x 0) eqn:Ex; symmetry in Hsign.
  - pose proof (Habs x Ex) as A. pose proof (Habs x' Hsign) as B.
    set (fl := inject_Z (Qfloor (Qabs x' * 100 + (1 # 2)))) in *. lra.
  - pose proof (Hpos x Ex) as A. pose proof (Hpos x' Hsign) as B.
    set (fl := inject_Z (Qfloor (Qabs x' * 100 + (1 # 2)))) in *. lra.
Qed.

End Keys.

(** ** Physics graph builder *)

Section Heap.

Lemma updateAt_length : forall A (l : list A) r f,
  List.length (MatterPhysics.updateAt l r f) = List.length l.
Proof.
  induction l as [|v l IH]; intros [|r] f; simpl; auto.
Qed.

Lemma nth_error_updateAt_other : forall A (l : list A) r i f,
  r <> i -> nth_error (MatterPhysics.updateAt l i f) r = nth_error l r.
Proof.
  induction l as [|v l IH]; intros r [|i] f Hne; simpl; auto.
  - destruct r; [congruence|reflexivity].
  - destruct r; simpl; auto.
Qed.

Lemma nth_error_updateAt_same : forall A (l : list A) i f v,
  nth_error l i = Some v -> nth_error (MatterPhysics.updateAt l i f) i = Some (f v).
Proof.
  induction l as [|w l IH]; intros [|i] f v; simpl; try discriminate.
  - intros H; inversion H; reflexivity.
  - apply IH.
Qed.

Lemma updateAt_app_last : forall A (l : list A) v f,
  MatterPhysics.updateAt (l ++ [v]) (List.length l) f = l ++ [f v].
Proof.
  induction l as [|w l IH]; intros v f; simpl; [reflexivity|].
  rewrite IH. reflexivity.
Qed.

Lemma mapGet_mapSet : forall V k k' (v : V) m,
  Plant.mapGet k' (Plant.mapSet k v m) =
    if String.eqb k' k then Some v else Plant.mapGet k' m.
Proof.
  induction m as [|[k0 w] m IH]; simpl.
  - reflexivity.
  - destruct (String.eqb_spec k k0) as [->|Hk]; simpl.
    + destruct (String.eqb k' k0); reflexivity.
    + rewrite IH. destruct (String.eqb_spec k' k0) as [->|Hk'].
      * destruct (String.eqb_spec k0 k); [congruence|reflexivity].
      * reflexivity.
Qed.

(** What [createParticle] allocates. *)
Lemma createParticle_spec : forall x y m fixed ph,
  fst (MatterPhysics.createParticle x y m fixed ph) =
    List.length (MatterPhysics.bodyHeap ph) /\
  List.length (MatterPhysics.bodyHeap (snd (MatterPhysics.createParticle x y m fixed ph))) =
    S (List.length (MatterPhysics.bodyHeap ph)) /\
  MatterPhysics.springHeap (snd (MatterPhysics.createParticle x y m fixed ph)) =
    MatterPhysics.springHeap ph /\
  (forall r, (r < List.length (MatterPhysics.bodyHeap ph))%nat ->
     MatterPhysics.getBody (snd (MatterPhysics.createParticle x y m fixed ph)) r =
     MatterPhysics.getBody ph r) /\
  isFixed (snd (MatterPhysics.createParticle x y m fixed ph))
    (List.length (MatterPhysics.bodyHeap ph)) = fixed.
Proof.
  intros x y m fixed ph. unfold MatterPhysics.createParticle. simpl.
  destruct fixed; simpl.
  - rewrite updateAt_length, length_app. simpl.
    repeat split; try lia.
    + intros r Hr. unfold MatterPhysics.getBody. simpl.
      rewrite nth_error_updateAt_other by lia.
      apply nth_error_app1. exact Hr.
    + unfold isFixed, MatterPhysics.getBody. simpl.
      rewrite updateAt_app_last, nth_error_app2 by lia.
      rewrite Nat.sub_diag. reflexivity.
  - rewrite length_app. simpl. repeat split; try lia.
    + intros r Hr. unfold MatterPhysics.getBody. simpl.
      apply nth_error_app1. exact Hr.
    + unfold isFixed, MatterPhysics.getBody. simpl.
      rewrite nth_error_app2 by lia. rewrite Nat.sub_diag. reflexivity.
Qed.

Lemma mapGet_In : forall V k (v : V) m, Plant.mapGet k m = Some v -> In (k, v) m.
Proof.
  induction m as [|[k0 w] m IH]; simpl; [discriminate|].
  destruct (String.eqb_spec k k0) as [->|Hk].
  - intros H; inversion H; auto.
  - auto.
Qed.

Lemma In_mapSet : forall V k (v : V) k0 w m,
  In (k0, w) (Plant.mapSet k v m) -> In (k0, w) m \/ (k0 = k /\ w = v).
Proof.
  induction m as [|[k1 u] m IH]; simpl.
  - intros [H|[]]; inversion H; auto.
  - destruct (String.eqb_spec k k1) as [->|Hk]; simpl.
    + intros [H|H]; [inversion H; auto|auto].
    + intros [H|H]; [auto|]. destruct (IH H) as [H'|H']; auto.
Qed.

(** Binding a fresh key to the body just allocated keeps the map sound. *)
Lemma bind_fresh : forall ph ph' pm k,
  mapValid ph pm -> mapInj pm -> Plant.mapGet k pm = None ->
  List.length (MatterPhysics.bodyHeap ph') = S (List.length (MatterPhysics.bodyHeap ph)) ->
  mapValid ph' (Plant.mapSet k (List.length (MatterPhysics.bodyHeap ph)) pm) /\
  mapInj (Plant.mapSet k (List.length (MatterPhysics.bodyHeap ph)) pm).
Proof.
  intros ph ph' pm k Hv Hi Hnone Hlen. split.
  - intros k0 r Hin. apply In_mapSet in Hin. destruct Hin as [Hin|[_ ->]].
    + apply Hv in Hin. lia.
    + lia.
  - intros k1 k2 r. rewrite !mapGet_mapSet.
    destruct (String.eqb_spec k1 k) as [->|H1], (String.eqb_spec k2 k) as [->|H2];
      intros E1 E2; auto.
    + inversion E1; subst. apply mapGet_In, Hv in E2. lia.
    + inversion E2; subst. apply mapGet_In, Hv in E1. lia.
    + eapply Hi; eauto.
Qed.

End Heap.

Section Builder.
Context {env : MathEnv}.

(** The shape shared by the two halves of [setupSegmentPhysics]: look the
    key up, create and bind a particle when it is absent. *)
Lemma getOrCreate_spec : forall k pm ph x y m fixed r ph' pm',
  match Plant.mapGet k pm with
  | Some r0 => (r0, ph, pm)
  | None =>
      let (r0, ph1) := MatterPhysics.createParticle x y m fixed ph in
      (r0, ph1, Plant.mapSet k r0 pm)
  end = (r, ph', pm') ->
  Plant.mapGet k pm' = Some r /\
  (forall k0 r0, Plant.mapGet k0 pm = Some r0 -> Plant.mapGet k0 pm' = Some r0) /\
  MatterPhysics.springHeap ph' = MatterPhysics.springHeap ph /\
  (List.length (MatterPhysics.bodyHeap ph) <= List.length (MatterPhysics.bodyHeap ph'))%nat /\
  (forall r0, (r0 < List.length (MatterPhysics.bodyHeap ph))%nat ->
     MatterPhysics.getBody ph' r0 = MatterPhysics.getBody ph r0) /\
  (mapValid ph pm -> mapInj pm -> mapValid ph' pm' /\ mapInj pm') /\
  (Plant.mapGet k pm = None ->
     r = List.length (MatterPhysics.bodyHeap ph) /\ isFixed ph' r = fixed /\
     List.length (MatterPhysics.bodyHeap ph') = S (List.length (MatterPhysics.bodyHeap ph))) /\
  (forall r0, Plant.mapGet k pm = Some r0 -> r = r0 /\ ph' = ph /\ pm' = pm) /\
  (forall k0, k0 <> k -> Plant.mapGet k0 pm' = Plant.mapGet k0 pm).
Proof.
  intros k pm ph x y m fixed r ph' pm'.
  destruct (Plant.mapGet k pm) as [r0|] eqn:Hget.
  - intros H; inversion H; subst; clear H.
    split; [exact Hget|]. split; [auto|]. split; [reflexivity|].
    split; [lia|]. split; [auto|]. split; [auto|]. split; [discriminate|].
    split; [|auto].
    intros r1 H1; inversion H1; auto.
  - destruct (createParticle_spec x y m fixed ph) as [Hr [Hlen [Hsp [Hold Hfix]]]].
    destruct (MatterPhysics.createParticle x y m fixed ph) as [r0 ph1].
    simpl in *. intros H; inversion H; subst; clear H.
    split; [rewrite mapGet_mapSet, String.eqb_refl; reflexivity|].
    split.
    { intros k0 r0 H0. rewrite mapGet_mapSet.
      destruct (String.eqb_spec k0 k) as [->|]; [congruence|exact H0]. }
    split; [exact Hsp|]. split; [lia|]. split; [exact Hold|].
    split; [intros Hv Hi; eapply bind_fresh; eauto|].
    split; [auto|]. split; [discriminate|].
    intros k0 Hk0. rewrite mapGet_mapSet.
    destruct (String.eqb_spec k0 k); [contradiction|reflexivity].
Qed.

(** The annotation of a spring leaves the bodies alone. *)
Lemma annotate_bodies : forall seg sp ph,
  MatterPhysics.bodyHeap (Plant.annotate seg sp ph) = MatterPhysics.bodyHeap ph.
Proof. reflexivity. Qed.

Lemma isFixed_getBody : forall ph ph' r,
  MatterPhysics.getBody ph' r = MatterPhysics.getBody ph r -> isFixed ph' r = isFixed ph r.
Proof. intros ph ph' r H. unfold isFixed. rewrite H. reflexivity. Qed.

(** [setupSegmentPhysics] resolves both end points and adds one spring. *)
Lemma setup_materialised : forall p seg,
  exists r1 r2 c, materialised p seg (Plant.setupSegmentPhysics p seg) r1 r2 c.
Proof.
  intros p seg. unfold Plant.setupSegmentPhysics.
  destruct (Plant.startParticleOf p seg) as [[r1 ph1] pm1] eqn:E1.
  destruct (Plant.endParticleOf p seg ph1 pm1) as [[r2 ph2] pm2] eqn:E2.
  unfold Plant.startParticleOf in E1. unfold Plant.endParticleOf in E2.
  apply getOrCreate_spec in E1. apply getOrCreate_spec in E2.
  destruct E1 as [S1 [K1 [P1 [L1 [O1 [V1 [N1 [R1 U1]]]]]]]].
  destruct E2 as [S2 [K2 [P2 [L2 [O2 [V2 [N2 [R2 U2]]]]]]]].
  simpl.
  exists r1, r2.
  eexists. constructor; simpl.
  - eauto.
  - rewrite updateAt_app_last, P2, P1. reflexivity.
  - reflexivity.
  - reflexivity.
  - reflexivity.
  - rewrite P2, P1. reflexivity.
  - auto.
  - exact S2.
  - auto.
  - lia.
  - intros r Hr. unfold MatterPhysics.getBody in *. simpl.
    rewrite O2 by lia. apply O1. exact Hr.
  - intros Hv Hi. destruct (V1 Hv Hi) as [Hv1 Hi1].
    destruct (V2 Hv1 Hi1) as [Hv2 Hi2]. split; [|exact Hi2].
    exact Hv2.
  - intros Hnone. destruct (N1 Hnone) as [Hr1 [Hf1 Hl1]]. split; [exact Hr1|].
    rewrite <- Hf1. apply isFixed_getBody. unfold MatterPhysics.getBody. simpl.
    apply O2. lia.
  - intros Hnone Hne.
    assert (Hnone1 : Plant.mapGet (Plant.endKey seg) pm1 = None).
    { rewrite U1 by congruence. exact Hnone. }
    destruct (N2 Hnone1) as [Hr2 [Hf2 Hl2]]. split; [lia|].
    rewrite <- Hf2. apply isFixed_getBody. reflexivity.
  - intros ra rb Ha Hb.
    destruct (R1 ra Ha) as [-> [-> ->]].
    destruct (R2 rb Hb) as [-> [-> ->]]. auto.
Qed.

End Builder.

Section Invariant.
Context {env : MathEnv}.

Lemma angleLinks_added : forall ph ph',
  springsAdded (fun c => isAngle c = false) ph ph' ->
  filter isAngle (MatterPhysics.springHeap ph') = filter isAngle (MatterPhysics.springHeap ph).
Proof.
  intros ph ph' [added [Heq Hall]]. rewrite Heq, filter_app.
  assert (Hnil : filter isAngle added = []).
  { clear Heq. induction Hall as [|c l Hc Hl IH]; simpl; [reflexivity|].
    rewrite Hc. exact IH. }
  rewrite Hnil, app_nil_r. reflexivity.
Qed.

Lemma springsAdded_weaken : forall (P R : MatterPhysics.Constraint -> Prop) ph ph',
  (forall c, P c -> R c) -> springsAdded P ph ph' -> springsAdded R ph ph'.
Proof.
  intros P R ph ph' HPR [added [Heq Hall]]. exists added. split; [exact Heq|].
  eapply Forall_impl; eauto.
Qed.

Lemma springsAdded_refl : forall P ph, springsAdded P ph ph.
Proof.
  intros P ph. exists []. rewrite app_nil_r. auto.
Qed.

Lemma springsAdded_same : forall P ph ph',
  MatterPhysics.springHeap ph' = MatterPhysics.springHeap ph -> springsAdded P ph ph'.
Proof.
  intros P ph ph' H. exists []. rewrite app_nil_r. auto.
Qed.

Lemma springsAdded_trans : forall P ph1 ph2 ph3,
  springsAdded P ph1 ph2 -> springsAdded P ph2 ph3 -> springsAdded P ph1 ph3.
Proof.
  intros P ph1 ph2 ph3 [a1 [E1 F1]] [a2 [E2 F2]]. exists (a1 ++ a2).
  rewrite E2, E1, app_assoc. split; [reflexivity|]. apply Forall_app; auto.
Qed.

(** The invariant survives a step that keeps the keys and the segment
    springs, and only adds bodies and harmless springs. *)
Lemma wf_extend : forall p p',
  wf p ->
  Plant.particleMap p' = Plant.particleMap p ->
  Plant.segmentToSpring p' = Plant.segmentToSpring p ->
  (List.length (MatterPhysics.bodyHeap (Plant.physics p)) <=
   List.length (MatterPhysics.bodyHeap (Plant.physics p')))%nat ->
  springsAdded (fun c => MatterPhysics.origin c = MatterPhysics.FruitSpring ->
                         MatterPhysics.a c <> MatterPhysics.b c)
    (Plant.physics p) (Plant.physics p') ->
  (Plant.constraintsAdded p' = false -> angleLinks p' = []) ->
  wf p'.
Proof.
  intros p p' [Hv Hi Hj Hf Hp] Hpm Hs2s Hlen [added [Heq Hall]] Hphase.
  constructor.
  - rewrite Hpm. intros k r Hin. apply Hv in Hin. lia.
  - rewrite Hpm. exact Hi.
  - rewrite Hpm, Hs2s, Heq. intros seg sp Hin.
    destruct (Hj seg sp Hin) as [c [Hn [Ha Hb]]].
    exists c. repeat split; auto.
    rewrite nth_error_app1; [exact Hn|].
    apply nth_error_Some. congruence.
  - rewrite Heq. intros c Hin. apply in_app_or in Hin. destruct Hin as [Hin|Hin].
    + apply Hf. exact Hin.
    + rewrite Forall_forall in Hall. apply Hall. exact Hin.
  - exact Hphase.
Qed.

Lemma setup_constraintsAdded : forall p seg,
  Plant.constraintsAdded (Plant.setupSegmentPhysics p seg) = Plant.constraintsAdded p.
Proof.
  intros p seg. destruct (setup_materialised p seg) as [r1 [r2 [c M]]].
  destruct (m_frame M) as [ph [pm [s2s ->]]]. reflexivity.
Qed.

(** [setupSegmentPhysics] keeps the invariant. *)
Lemma setup_wf : forall p seg, wf p -> wf (Plant.setupSegmentPhysics p seg).
Proof.
  intros p seg [Hv Hi Hj Hf Hp].
  destruct (setup_materialised p seg) as [r1 [r2 [c M]]].
  destruct (m_sound M Hv Hi) as [Hv' Hi'].
  constructor; auto.
  - rewrite (m_s2s M), (m_springs M). intros seg0 sp Hin.
    apply in_app_or in Hin. destruct Hin as [Hin|[Hin|[]]].
    + destruct (Hj seg0 sp Hin) as [c0 [Hn [Ha Hb]]].
      exists c0. repeat split.
      * rewrite nth_error_app1; [exact Hn|]. apply nth_error_Some. congruence.
      * apply (m_keep M). exact Ha.
      * apply (m_keep M). exact Hb.
    + inversion Hin; subst. exists c. repeat split.
      * rewrite nth_error_app2 by lia. rewrite Nat.sub_diag. reflexivity.
      * rewrite (m_a M). exact (m_start M).
      * rewrite (m_b M). exact (m_end M).
  - rewrite (m_springs M). intros c0 Hin. apply in_app_or in Hin.
    destruct Hin as [Hin|[Hin|[]]].
    + apply Hf. exact Hin.
    + subst c0. rewrite (m_origin M). discriminate.
  - rewrite setup_constraintsAdded. intros Hflag. unfold angleLinks.
    rewrite (m_springs M), filter_app. simpl.
    unfold isAngle at 2. rewrite (m_origin M). rewrite app_nil_r. apply Hp, Hflag.
Qed.

Lemma fold_setup_wf : forall segs p,
  wf p -> wf (fold_left Plant.setupSegmentPhysics segs p).
Proof.
  induction segs as [|seg segs IH]; intros p Hwf; simpl; [exact Hwf|].
  apply IH, setup_wf, Hwf.
Qed.

End Invariant.

Section Passes.
Context {env : MathEnv}.

Lemma physicsOnly_refl : forall p, physicsOnly p p.
Proof. intros p. destruct p; reflexivity. Qed.

Lemma physicsOnly_trans : forall p1 p2 p3,
  physicsOnly p1 p2 -> physicsOnly p2 p3 -> physicsOnly p1 p3.
Proof.
  unfold physicsOnly. intros p1 p2 p3 H12 H23. rewrite H23, H12. reflexivity.
Qed.

Lemma angleStep_refl : forall p, angleStep p p.
Proof.
  intros p. split; [apply physicsOnly_refl|]. split; [reflexivity|].
  apply springsAdded_refl.
Qed.

Lemma angleStep_trans : forall p1 p2 p3,
  angleStep p1 p2 -> angleStep p2 p3 -> angleStep p1 p3.
Proof.
  intros p1 p2 p3 [F1 [B1 S1]] [F2 [B2 S2]]. split; [|split].
  - eapply physicsOnly_trans; eauto.
  - congruence.
  - eapply springsAdded_trans; eauto.
Qed.

Lemma fold_angleStep : forall X (f : Plant.t -> X -> Plant.t),
  (forall p x, angleStep p (f p x)) ->
  forall l p, angleStep p (fold_left f l p).
Proof.
  intros X f Hf l; induction l as [|x l IH]; intros p; simpl.
  - apply angleStep_refl.
  - eapply angleStep_trans; [apply Hf|apply IH].
Qed.

(** [createAngleConstraint] adds at most one spring, between its first and
    its third particle, and no body. *)
Lemma createAngleConstraint_spec : forall A B C ang s ph,
  MatterPhysics.bodyHeap (snd (MatterPhysics.createAngleConstraint A B C ang s ph)) =
    MatterPhysics.bodyHeap ph /\
  springsAdded (fun c => MatterPhysics.origin c = MatterPhysics.AngleSpring /\
                         A = Some (MatterPhysics.a c) /\ C = Some (MatterPhysics.b c))
    ph (snd (MatterPhysics.createAngleConstraint A B C ang s ph)).
Proof.
  intros [pa|] [pb|] [pc|] ang s ph; simpl;
    try (split; [reflexivity|apply springsAdded_refl]).
  match goal with |- context [if ?b then _ else _] => destruct b end; simpl.
  - split; [reflexivity|apply springsAdded_refl].
  - split; [reflexivity|]. eexists. split; [reflexivity|].
    constructor; [|constructor]. simpl. auto.
Qed.

(** The constraint of a pair joins the particles of the two end keys. *)
Lemma constrainPair_spec : forall common segA p segB,
  physicsOnly p (Plant.constrainPair common segA p segB) /\
  MatterPhysics.bodyHeap (Plant.physics (Plant.constrainPair common segA p segB)) =
    MatterPhysics.bodyHeap (Plant.physics p) /\
  springsAdded
    (fun c => MatterPhysics.origin c = MatterPhysics.AngleSpring /\
              Plant.mapGet (Plant.endKey segA) (Plant.particleMap p) =
                Some (MatterPhysics.a c) /\
              Plant.mapGet (Plant.endKey segB) (Plant.particleMap p) =
                Some (MatterPhysics.b c))
    (Plant.physics p) (Plant.physics (Plant.constrainPair common segA p segB)).
Proof.
  intros common segA p segB. unfold Plant.constrainPair.
  destruct (Plant.mapGet (Plant.endKey segA) (Plant.particleMap p)) as [ra|] eqn:EA;
    [|split; [apply physicsOnly_refl|split; [reflexivity|apply springsAdded_refl]]].
  destruct (Plant.mapGet (Plant.endKey segB) (Plant.particleMap p)) as [rb|] eqn:EB;
    [|split; [apply physicsOnly_refl|split; [reflexivity|apply springsAdded_refl]]].
  match goal with |- context [MatterPhysics.createAngleConstraint ?A ?B ?C ?g ?s ?ph] =>
    destruct (createAngleConstraint_spec A B C g s ph) as [Hb Hs] end.
  split; [reflexivity|]. split; [exact Hb|].
  simpl. eapply springsAdded_weaken; [|exact Hs].
  intros c [Ho [Ha Hc]]. auto.
Qed.

Lemma constrainPair_angleStep : forall common segA p segB,
  angleStep p (Plant.constrainPair common segA p segB).
Proof.
  intros common segA p segB.
  destruct (constrainPair_spec common segA p segB) as [F [B S]].
  split; [exact F|]. split; [exact B|].
  eapply springsAdded_weaken; [|exact S]. intros c [Ho _]. exact Ho.
Qed.

Lemma constrainPairs_angleStep : forall common group p,
  angleStep p (Plant.constrainPairs common group p).
Proof.
  intros common group; induction group as [|segA rest IH]; intros p; simpl.
  - apply angleStep_refl.
  - eapply angleStep_trans; [|apply IH].
    apply fold_angleStep. intros q x. apply constrainPair_angleStep.
Qed.

(** [addAngleConstraints] adds angle springs and nothing else. *)
Lemma addAngleConstraints_angleStep : forall p,
  angleStep p (Plant.addAngleConstraints p).
Proof.
  intros p. unfold Plant.addAngleConstraints. apply fold_angleStep.
  intros q [k group]. destruct (2 <=? Datatypes.length group)%nat.
  - apply constrainPairs_angleStep.
  - apply angleStep_refl.
Qed.

(** The nearest particle is one of the map's. *)
Lemma nearest_In : forall entries ph fx fy init m r,
  Plant.nearest ph fx fy entries init m = Some r ->
  init = Some r \/ exists k, In (k, r) entries.
Proof.
  induction entries as [|[k particle] rest IH]; intros ph fx fy init m r; simpl.
  - auto.
  - match goal with |- context [if ?b then _ else _] => destruct b end; intros H;
      apply IH in H; destruct H as [H|[k0 H]]; eauto.
    inversion H; subst. eauto.
Qed.

Lemma fruitStep_refl : forall p, fruitStep p p.
Proof.
  intros p. split; [|split; [lia|apply springsAdded_refl]].
  exists (Plant.physics p), (Plant.fruitParticles p). destruct p; reflexivity.
Qed.

Lemma fruitStep_trans : forall p1 p2 p3,
  fruitStep p1 p2 -> fruitStep p2 p3 -> fruitStep p1 p3.
Proof.
  intros p1 p2 p3 [[ph1 [fp1 F1]] [L1 S1]] [[ph2 [fp2 F2]] [L2 S2]]. split; [|split].
  - exists ph2, fp2. rewrite F2, F1. reflexivity.
  - lia.
  - eapply springsAdded_trans; eauto.
Qed.

Lemma fruitStep_valid : forall p p',
  fruitStep p p' -> mapValid (Plant.physics p) (Plant.particleMap p) ->
  mapValid (Plant.physics p') (Plant.particleMap p').
Proof.
  intros p p' [[ph [fp F]] [L S]] Hv k r Hin.
  rewrite F in Hin. simpl in Hin. apply Hv in Hin. lia.
Qed.

(** A fruit hangs by one spring from a keyed particle to a new body. *)
Lemma addFruit_fruitStep : forall p fruit,
  mapValid (Plant.physics p) (Plant.particleMap p) ->
  fruitStep p (Plant.addFruit p fruit).
Proof.
  intros p fruit Hv. unfold Plant.addFruit.
  match goal with |- context [Plant.nearest ?ph ?fx ?fy ?e ?i ?m] =>
    destruct (Plant.nearest ph fx fy e i m) as [n|] eqn:Hn end;
    [|apply fruitStep_refl].
  apply nearest_In in Hn. destruct Hn as [Hn|[k Hn]]; [discriminate|].
  apply Hv in Hn.
  match goal with |- context [MatterPhysics.createParticle ?x ?y ?m ?f ?ph] =>
    destruct (createParticle_spec x y m f ph) as [Hr [Hlen [Hsp _]]];
    destruct (MatterPhysics.createParticle x y m f ph) as [fruitParticle ph1] end.
  simpl in Hr, Hlen, Hsp. subst fruitParticle. simpl.
  split; [eauto|]. split.
  - simpl. rewrite updateAt_length. lia.
  - simpl. rewrite Hsp. eexists. split; [reflexivity|].
    constructor; [|constructor]. simpl. split; [reflexivity|lia].
Qed.

Lemma fold_addFruit_fruitStep : forall fruits p,
  mapValid (Plant.physics p) (Plant.particleMap p) ->
  fruitStep p (fold_left Plant.addFruit fruits p).
Proof.
  induction fruits as [|fruit rest IH]; intros p Hv; simpl.
  - apply fruitStep_refl.
  - eapply fruitStep_trans; [apply addFruit_fruitStep, Hv|].
    apply IH. eapply fruitStep_valid; [apply addFruit_fruitStep, Hv|exact Hv].
Qed.

(** [addFruits] adds fruit bodies and fruit springs and nothing else. *)
Lemma addFruits_fruitStep : forall p,
  mapValid (Plant.physics p) (Plant.particleMap p) -> fruitStep p (Plant.addFruits p).
Proof.
  intros p Hv. unfold Plant.addFruits. destruct (Plant.fruits p) eqn:E.
  - apply fruitStep_refl.
  - apply fold_addFruit_fruitStep, Hv.
Qed.

End Passes.

Section Lifecycle.
Context {env : MathEnv} {engine : MatterPhysics.Engine}.

Lemma wf_withProgress : forall p g i a c f,
  wf p -> (c = false -> Plant.constraintsAdded p = false) ->
  wf (Plant.withProgress p g i a c f).
Proof.
  intros p g i a c f [Hv Hi Hj Hf Hp] Hc. constructor; simpl; auto.
Qed.

Lemma angle_wf : forall p p' g i a f,
  wf p -> angleStep p p' -> wf (Plant.withProgress p' g i a true f).
Proof.
  intros p p' g i a f Hwf [F [B S]]. unfold physicsOnly in F.
  apply (wf_extend (p := p)); auto.
  - simpl. rewrite F. reflexivity.
  - simpl. rewrite F. reflexivity.
  - simpl. rewrite B. lia.
  - simpl. eapply springsAdded_weaken; [|exact S].
    intros c Ho Hfr. rewrite Ho in Hfr. discriminate.
  - simpl. discriminate.
Qed.

Lemma fruit_wf : forall p p' g i a f,
  wf p -> fruitStep p p' ->
  wf (Plant.withProgress p' g i a (Plant.constraintsAdded p') f).
Proof.
  intros p p' g i a f Hwf [[ph [fp F]] [L S]].
  apply (wf_extend (p := p)); auto.
  - simpl. rewrite F. reflexivity.
  - simpl. rewrite F. reflexivity.
  - simpl. eapply springsAdded_weaken; [|exact S]. intros c [_ Hne] _. exact Hne.
  - simpl. intros Hflag. unfold angleLinks. simpl.
    rewrite (angleLinks_added (ph := Plant.physics p)).
    + apply (wf_phase Hwf). rewrite F in Hflag. exact Hflag.
    + eapply springsAdded_weaken; [|exact S].
      intros c [Ho _]. unfold isAngle. rewrite Ho. reflexivity.
Qed.

(** [growPlant] keeps the invariant. *)
Lemma growPlant_wf : forall p, wf p -> wf (Plant.growPlant p).
Proof.
  intros p Hwf. unfold Plant.growPlant.
  destruct (Datatypes.length (Plant.segments p) <=? Plant.lastSegmentIndex p)%nat.
  - apply wf_withProgress; auto.
  - cbv zeta.
    match goal with |- context [fold_left Plant.setupSegmentPhysics ?b p] =>
      pose proof (fold_setup_wf b Hwf) as H1;
      set (p1 := fold_left Plant.setupSegmentPhysics b p) in * end.
    match goal with |- context [Plant.withProgress p1 ?g ?i ?a ?c ?f] =>
      assert (H2 : wf (Plant.withProgress p1 g i a c f))
        by (apply wf_withProgress; auto);
      set (p2 := Plant.withProgress p1 g i a c f) in * end.
    match goal with |- context [if ?b then Plant.withProgress (Plant.addAngleConstraints p2) ?g ?i ?a true ?f else p2] =>
      assert (H3 : wf (if b then Plant.withProgress (Plant.addAngleConstraints p2) g i a true f else p2))
        by (destruct b; [eapply angle_wf; [exact H2|apply addAngleConstraints_angleStep]|exact H2]);
      set (p3 := if b then Plant.withProgress (Plant.addAngleConstraints p2) g i a true f else p2) in * end.
    match goal with |- context [if ?b then _ else p3] => destruct b end; [|exact H3].
    eapply fruit_wf; [exact H3|]. apply addFruits_fruitStep. apply (wf_valid H3).
Qed.

Lemma engine_wf : forall q, wf q ->
  wf (Plant.withPhysics q (MatterPhysics.update (Plant.physics q))).
Proof.
  intros q Hwf. apply (wf_extend (p := q)); auto.
  - simpl. rewrite MatterPhysics.Engine_update_length. lia.
  - apply springsAdded_same. reflexivity.
  - simpl. apply (wf_phase Hwf).
Qed.

(** [update] keeps the invariant. *)
Lemma update_wf : forall p p', wf p -> Plant.update p = Normal p' -> wf p'.
Proof.
  intros p p' Hwf. unfold Plant.update. cbv zeta. intros H. injection H as <-.
  apply engine_wf.
  match goal with |- context [Plant.withProgress p ?g ?i ?a ?c ?f] =>
    assert (H1 : wf (Plant.withProgress p g i a c f))
      by (apply wf_withProgress; auto);
    set (p1 := Plant.withProgress p g i a c f) in * end.
  match goal with |- wf (if ?b then _ else _) => destruct b end; [|exact H1].
  match goal with |- wf (if ?b then _ else _) => destruct b end; [|exact H1].
  apply growPlant_wf, H1.
Qed.

(** [destroy] keeps the invariant: it forgets the tracked objects, not the
    objects. *)
Lemma destroy_wf : forall p, wf p -> wf (Plant.destroy p).
Proof.
  intros p Hwf. unfold Plant.destroy. apply (wf_extend (p := p)); auto.
  - apply springsAdded_same. reflexivity.
  - simpl. apply (wf_phase Hwf).
Qed.

Lemma wf_empty : forall p,
  Plant.particleMap p = [] -> Plant.segmentToSpring p = [] ->
  MatterPhysics.springHeap (Plant.physics p) = [] -> wf p.
Proof.
  intros p Hpm Hs Hsh. constructor.
  - rewrite Hpm. intros k r [].
  - rewrite Hpm. intros k1 k2 r H. discriminate.
  - rewrite Hs. intros seg sp [].
  - rewrite Hsh. intros c [].
  - intros _. unfold angleLinks. rewrite Hsh. reflexivity.
Qed.

Lemma setupInitialRoot_wf : forall p, wf p -> wf (Plant.setupInitialRoot p).
Proof.
  intros p Hwf. unfold Plant.setupInitialRoot. cbv zeta.
  apply wf_withProgress; auto. apply fold_setup_wf, Hwf.
Qed.

(** The constructor establishes the invariant. *)
Lemma new_wf : forall px py type g p g',
  Plant.new px py type g = Normal (p, g') -> wf p.
Proof.
  intros px py type g p g'. unfold Plant.new.
  destruct (String.eqb type "random").
  - destruct (LSystem.createRandomPlant g) as [l g1].
    destruct (random2 3 5 g1) as [th g2].
    destruct (LSystem.process l g2) as [[l' g3]|e]; unfold bind; [|discriminate].
    destruct (random2 (6 # 10) (18 # 10) g3) as [scale g4].
    intros H; injection H as <- <-.
    apply setupInitialRoot_wf, wf_empty; reflexivity.
  - destruct (LSystem.createByType type g) as [l g1].
    destruct (LSystem.process l g1) as [[l' g3]|e]; unfold bind; [|discriminate].
    destruct (random2 (6 # 10) (18 # 10) g3) as [scale g4].
    intros H; injection H as <- <-.
    apply setupInitialRoot_wf, wf_empty; reflexivity.
Qed.

(** Every plant the program can hold satisfies the invariant. *)
Lemma reachable_wf : forall p, reachable p -> wf p.
Proof.
  intros p Hr. induction Hr.
  - eapply new_wf; eauto.
  - eapply update_wf; eauto.
  - apply growPlant_wf; auto.
  - apply destroy_wf; auto.
Qed.

End Lifecycle.

(** Reduction of the projections of a plant that is written out. *)
Ltac plant_fields :=
  cbn [Plant.withBuilt Plant.withProgress Plant.withPhysics Plant.withFruitParticles
       Plant.x Plant.y Plant.growth Plant.targetGrowth Plant.growthRate
       Plant.stemThickness Plant.lsystem Plant.stemColor Plant.leafColor
       Plant.fruitColor Plant.segments Plant.fruits Plant.scaleFactor
       Plant.physics Plant.particleMap Plant.segmentToSpring Plant.fruitParticles
       Plant.lastSegmentIndex Plant.totalSegments Plant.growingPhase
       Plant.constraintsAdded Plant.fruitsAdded] in *.

Section Frames.
Context {env : MathEnv} {engine : MatterPhysics.Engine}.

Lemma setup_frame : forall p seg,
  exists ph pm s2s, Plant.setupSegmentPhysics p seg = Plant.withBuilt p ph pm s2s.
Proof.
  intros p seg. destruct (setup_materialised p seg) as [r1 [r2 [c M]]].
  exact (m_frame M).
Qed.

Lemma fold_setup_frame : forall segs p,
  exists ph pm s2s, fold_left Plant.setupSegmentPhysics segs p = Plant.withBuilt p ph pm s2s.
Proof.
  induction segs as [|seg segs IH]; intros p; simpl.
  - exists (Plant.physics p), (Plant.particleMap p), (Plant.segmentToSpring p).
    destruct p; reflexivity.
  - destruct (setup_frame p seg) as [ph [pm [s2s ->]]].
    destruct (IH (Plant.withBuilt p ph pm s2s)) as [ph' [pm' [s2s' ->]]].
    exists ph', pm', s2s'. reflexivity.
Qed.

Lemma addAngleConstraints_frame : forall p,
  exists ph, Plant.addAngleConstraints p = Plant.withPhysics p ph.
Proof.
  intros p. destruct (addAngleConstraints_angleStep p) as [F _].
  eexists. exact F.
Qed.

Lemma addFruit_frame : forall p fruit,
  exists ph fp, Plant.addFruit p fruit = Plant.withFruitParticles (Plant.withPhysics p ph) fp.
Proof.
  intros p fruit. unfold Plant.addFruit.
  match goal with |- context [Plant.nearest ?ph ?fx ?fy ?e ?i ?m] =>
    destruct (Plant.nearest ph fx fy e i m) as [n|] end.
  - match goal with |- context [MatterPhysics.createParticle ?x ?y ?m ?f ?ph] =>
      destruct (MatterPhysics.createParticle x y m f ph) as [fruitParticle ph1] end.
    simpl. eauto.
  - exists (Plant.physics p), (Plant.fruitParticles p). destruct p; reflexivity.
Qed.

Lemma addFruits_frame : forall p,
  exists ph fp, Plant.addFruits p = Plant.withFruitParticles (Plant.withPhysics p ph) fp.
Proof.
  intros p. unfold Plant.addFruits.
  assert (Hfold : forall fruits q, exists ph fp,
            fold_left Plant.addFruit fruits q =
            Plant.withFruitParticles (Plant.withPhysics q ph) fp).
  { induction fruits as [|fruit rest IH]; intros q; simpl.
    - exists (Plant.physics q), (Plant.fruitParticles q). destruct q; reflexivity.
    - destruct (addFruit_frame q fruit) as [ph [fp ->]].
      destruct (IH (Plant.withFruitParticles (Plant.withPhysics q ph) fp))
        as [ph' [fp' ->]].
      exists ph', fp'. reflexivity. }
  destruct (Plant.fruits p).
  - exists (Plant.physics p), (Plant.fruitParticles p). destruct p; reflexivity.
  - apply Hfold.
Qed.

(** [growPlant] changes the growth state as [growProgress] says, whatever
    the physics graph holds. *)
Lemma growPlant_frame : forall p,
  exists ph pm s2s fp,
    Plant.growPlant p =
    Plant.withFruitParticles (Plant.withBuilt (growProgress p) ph pm s2s) fp.
Proof.
  intros p. unfold Plant.growPlant, growProgress. cbv zeta.
  destruct (Datatypes.length (Plant.segments p) <=? Plant.lastSegmentIndex p)%nat.
  - exists (Plant.physics p), (Plant.particleMap p), (Plant.segmentToSpring p),
      (Plant.fruitParticles p). destruct p; reflexivity.
  - match goal with |- context [fold_left Plant.setupSegmentPhysics ?b p] =>
      destruct (fold_setup_frame b p) as [ph1 [pm1 [s1 ->]]] end.
    plant_fields.
    match goal with |- context [if ?b then true else Plant.constraintsAdded p] =>
      destruct b end.
    + match goal with |- context [Plant.addAngleConstraints ?q] =>
        destruct (addAngleConstraints_frame q) as [ph2 ->] end.
      plant_fields.
      match goal with |- context [if ?b then true else Plant.fruitsAdded p] =>
        destruct b end.
      * match goal with |- context [Plant.addFruits ?q] =>
          destruct (addFruits_frame q) as [ph3 [fp3 ->]] end.
        do 4 eexists; reflexivity.
      * do 4 eexists; reflexivity.
    + plant_fields.
      match goal with |- context [if ?b then true else Plant.fruitsAdded p] =>
        destruct b end.
      * match goal with |- context [Plant.addFruits ?q] =>
          destruct (addFruits_frame q) as [ph3 [fp3 ->]] end.
        do 4 eexists; reflexivity.
      * do 4 eexists; reflexivity.
Qed.

End Frames.

Section Growth.
Context {env : MathEnv} {engine : MatterPhysics.Engine}.

(** [update] changes the growth state as [updateProgress] says, whatever
    the physics graph holds. *)
Lemma update_frame : forall p,
  exists ph pm s2s fp,
    Plant.update p =
    Normal (Plant.withFruitParticles (Plant.withBuilt (updateProgress p) ph pm s2s) fp).
Proof.
  intros p. unfold Plant.update, updateProgress. cbv zeta. plant_fields.
  match goal with |- context [if ?b then _ else _] => destruct b end.
  - match goal with |- context [if ?b then growProgress _ else _] => destruct b end.
    + match goal with |- context [Plant.growPlant ?q] =>
        destruct (growPlant_frame q) as [ph [pm [s2s [fp ->]]]] end.
      plant_fields.
      exists (MatterPhysics.update ph), pm, s2s, fp. reflexivity.
    + exists (MatterPhysics.update (Plant.physics p)), (Plant.particleMap p),
        (Plant.segmentToSpring p), (Plant.fruitParticles p). reflexivity.
  - exists (MatterPhysics.update (Plant.physics p)), (Plant.particleMap p),
      (Plant.segmentToSpring p), (Plant.fruitParticles p). reflexivity.
Qed.

(** The growth state does not depend on the physics object. *)
Lemma growProgress_physics : forall p ph,
  growProgress (Plant.withPhysics p ph) = Plant.withPhysics (growProgress p) ph.
Proof.
  intros p ph. unfold growProgress. cbv zeta. plant_fields.
  destruct (Datatypes.length (Plant.segments p) <=? Plant.lastSegmentIndex p)%nat;
    reflexivity.
Qed.

Lemma updateProgress_physics : forall p ph,
  updateProgress (Plant.withPhysics p ph) = Plant.withPhysics (updateProgress p) ph.
Proof.
  intros p ph. unfold updateProgress. cbv zeta. plant_fields.
  match goal with |- context [if ?b then _ else _] => destruct b end; [|reflexivity].
  match goal with |- context [if ?b then growProgress _ else _] => destruct b end;
    [|reflexivity].
  match goal with |- growProgress ?q = _ =>
    change q with (Plant.withPhysics
      (Plant.withProgress p (Plant.growth q) (Plant.lastSegmentIndex p)
         (Plant.growingPhase p) (Plant.constraintsAdded p) (Plant.fruitsAdded p)) ph) end.
  rewrite growProgress_physics. reflexivity.
Qed.

(** C3 (as the code has it): [destroy()] leaves no mark on the plant, and
    an [update()] after it is accepted: it returns normally and moves the
    growth fraction, the count of materialised segments and the phase
    flags exactly as the same [update()] does on the live plant. *)
Theorem update_after_destroy : forall p,
  exists p1 p2,
    Plant.update p = Normal p1 /\
    Plant.update (Plant.destroy p) = Normal p2 /\
    Plant.growth p2 = Plant.growth p1 /\
    Plant.lastSegmentIndex p2 = Plant.lastSegmentIndex p1 /\
    Plant.growingPhase p2 = Plant.growingPhase p1 /\
    Plant.constraintsAdded p2 = Plant.constraintsAdded p1 /\
    Plant.fruitsAdded p2 = Plant.fruitsAdded p1.
Proof.
  intros p.
  destruct (update_frame p) as [ph [pm [s2s [fp H1]]]].
  destruct (update_frame (Plant.destroy p)) as [ph' [pm' [s2s' [fp' H2]]]].
  unfold Plant.destroy in H2 at 2. rewrite updateProgress_physics in H2.
  eexists. eexists. split; [exact H1|]. split; [exact H2|].
  repeat split.
Qed.











End Growth.

Section Graph.
Context {env : MathEnv} {engine : MatterPhysics.Engine}.

(** C1 (as the code has it): materialising a segment leaves the fixed or
    free state of every existing particle as it is; a particle created for
    the start point is fixed exactly when the segment is flagged [isRoot];
    a particle created for the end point is free, also when the segment is
    flagged [isRoot]. *)
Theorem fixed_iff_root_start : forall p seg,
  exists r1 r2,
    Plant.mapGet (Plant.startKey seg)
      (Plant.particleMap (Plant.setupSegmentPhysics p seg)) = Some r1 /\
    Plant.mapGet (Plant.endKey seg)
      (Plant.particleMap (Plant.setupSegmentPhysics p seg)) = Some r2 /\
    (forall r, (r < List.length (MatterPhysics.bodyHeap (Plant.physics p)))%nat ->
       isFixed (Plant.physics (Plant.setupSegmentPhysics p seg)) r =
       isFixed (Plant.physics p) r) /\
    (Plant.mapGet (Plant.startKey seg) (Plant.particleMap p) = None ->
       r1 = List.length (MatterPhysics.bodyHeap (Plant.physics p)) /\
       isFixed (Plant.physics (Plant.setupSegmentPhysics p seg)) r1 = LSystem.isRoot seg) /\
    (Plant.mapGet (Plant.endKey seg) (Plant.particleMap p) = None ->
       Plant.startKey seg <> Plant.endKey seg ->
       (List.length (MatterPhysics.bodyHeap (Plant.physics p)) <= r2)%nat /\
       isFixed (Plant.physics (Plant.setupSegmentPhysics p seg)) r2 = false).
Proof.
  intros p seg. destruct (setup_materialised p seg) as [r1 [r2 [c M]]].
  exists r1, r2. split; [exact (m_start M)|]. split; [exact (m_end M)|].
  split; [|split].
  - intros r Hr. apply isFixed_getBody. apply (m_old M). exact Hr.
  - exact (m_newStart M).
  - exact (m_newEnd M).
Qed.

(** C7 (as the code has it): in every plant the program can hold, the
    springs of two segments meet in one and the same particle exactly when
    the two end points have the same coordinate key.  Two points have the
    same key exactly when [toFixed(2)] prints their coordinates alike: the
    same sign flag and the same number of hundredths, one coordinate after
    the other; such points are less than a hundredth apart in each
    coordinate, but points that close need not have one key.  Materialising
    a segment keeps every key on the particle it had, joins the new spring
    to the particles already keyed by its end points, allocates no body when
    both keys are present, and allocates a new body for a start point whose
    key is absent. *)
Theorem shared_endpoints_one_particle : forall p,
  reachable p ->
  (forall s1 sp1 c1 s2 sp2 c2,
     In (s1, sp1) (Plant.segmentToSpring p) ->
     In (s2, sp2) (Plant.segmentToSpring p) ->
     nth_error (MatterPhysics.springHeap (Plant.physics p)) sp1 = Some c1 ->
     nth_error (MatterPhysics.springHeap (Plant.physics p)) sp2 = Some c2 ->
     (Plant.startKey s1 = Plant.startKey s2 <-> MatterPhysics.a c1 = MatterPhysics.a c2) /\
     (Plant.startKey s1 = Plant.endKey s2 <-> MatterPhysics.a c1 = MatterPhysics.b c2) /\
     (Plant.endKey s1 = Plant.startKey s2 <-> MatterPhysics.b c1 = MatterPhysics.a c2) /\
     (Plant.endKey s1 = Plant.endKey s2 <-> MatterPhysics.b c1 = MatterPhysics.b c2)) /\
  (forall px py px' py',
     (Plant.key px py = Plant.key px' py' <-> sameCell px px' /\ sameCell py py') /\
     (Plant.key px py = Plant.key px' py' ->
      Qabs (px - px') < 1 # 100 /\ Qabs (py - py') < 1 # 100)) /\
  (forall seg, exists c,
     MatterPhysics.springHeap (Plant.physics (Plant.setupSegmentPhysics p seg)) =
       MatterPhysics.springHeap (Plant.physics p) ++ [c] /\
     (forall k r, Plant.mapGet k (Plant.particleMap p) = Some r ->
        Plant.mapGet k (Plant.particleMap (Plant.setupSegmentPhysics p seg)) = Some r) /\
     (forall ra, Plant.mapGet (Plant.startKey seg) (Plant.particleMap p) = Some ra ->
        MatterPhysics.a c = ra) /\
     (forall rb, Plant.mapGet (Plant.endKey seg) (Plant.particleMap p) = Some rb ->
        MatterPhysics.b c = rb) /\
     (forall ra rb,
        Plant.mapGet (Plant.startKey seg) (Plant.particleMap p) = Some ra ->
        Plant.mapGet (Plant.endKey seg) (Plant.particleMap p) = Some rb ->
        MatterPhysics.bodyHeap (Plant.physics (Plant.setupSegmentPhysics p seg)) =
        MatterPhysics.bodyHeap (Plant.physics p)) /\
     (Plant.mapGet (Plant.startKey seg) (Plant.particleMap p) = None ->
        MatterPhysics.a c = List.length (MatterPhysics.bodyHeap (Plant.physics p)))).
Proof.
  intros p Hr. pose proof (reachable_wf Hr) as Hwf. split; [|split].
  - intros s1 sp1 c1 s2 sp2 c2 In1 In2 N1 N2.
    destruct (wf_joined Hwf _ _ In1) as [d1 [M1 [A1 B1]]].
    destruct (wf_joined Hwf _ _ In2) as [d2 [M2 [A2 B2]]].
    assert (d1 = c1) by congruence. assert (d2 = c2) by congruence. subst d1 d2.
    pose proof (wf_inj Hwf) as Hinj.
    repeat split; intros Hk;
      try (rewrite Hk in *; congruence);
      try (rewrite Hk in *; eapply Hinj; eassumption).
  - intros px py px' py'. split; [apply key_same|].
    intros Hk. apply key_same in Hk. destruct Hk as [Hx Hy].
    split; apply sameCell_close; assumption.
  - intros seg. destruct (setup_materialised p seg) as [r1 [r2 [c M]]].
    exists c. split; [exact (m_springs M)|]. split; [exact (m_keep M)|].
    split; [|split; [|split]].
    + intros ra Ha. apply (m_keep M) in Ha. rewrite (m_start M) in Ha.
      rewrite (m_a M). congruence.
    + intros rb Hb. apply (m_keep M) in Hb. rewrite (m_end M) in Hb.
      rewrite (m_b M). congruence.
    + intros ra rb Ha Hb. apply (m_reuse M Ha Hb).
    + intros Hnone. rewrite (m_a M). exact (proj1 (m_newStart M Hnone)).
Qed.


End Graph.

(** ** External force sources *)

Section Attraction.
Context {env : MathEnv}.

(** A fixed body receives no force. *)
Lemma fixed_body_not_attracted : forall h attractor body,
  MatterPhysics.isStatic body = true -> HandAttractors.forceOn h attractor body = None.
Proof.
  intros h attractor body Hs. unfold HandAttractors.forceOn. rewrite Hs. reflexivity.
Qed.

(** A body whose distance from the source is the radius or more receives
    no force. *)
Lemma beyond_radius_not_attracted : forall h attractor body,
  HandAttractors.attractionRadius h <=
    dist (fst (MatterPhysics.position body)) (snd (MatterPhysics.position body))
         (fst (HandAttractors.position attractor))
         (snd (HandAttractors.position attractor)) ->
  HandAttractors.forceOn h attractor body = None.
Proof.
  intros h attractor body Hfar. unfold HandAttractors.forceOn, dist in *.
  destruct (MatterPhysics.isStatic body); [reflexivity|].
  unfold Qltb. apply Qle_bool_iff in Hfar. rewrite Hfar. reflexivity.
Qed.

(** The capped scalar is positive and at most the maximum for a positive
    strength, strictly inside the radius. *)
Lemma forceMagnitude_capped : forall h attractor distance,
  0 < HandAttractors.strength attractor ->
  0 < HandAttractors.maxForce h ->
  0 <= distance -> distance < HandAttractors.attractionRadius h ->
  0 < HandAttractors.forceMagnitude h attractor distance <= HandAttractors.maxForce h.
Proof.
  intros h attractor distance Hs Hm Hd Hr. unfold HandAttractors.forceMagnitude.
  split; [|apply Q.le_min_r].
  apply Q.min_glb_lt; [|exact Hm].
  apply Qmult_lt_0_compat; [exact Hs|].
  assert (Hq : distance / HandAttractors.attractionRadius h < 1).
  { apply Qlt_shift_div_r; lra. }
  lra.
Qed.

(** A free body strictly inside the radius, and not at the source,
    receives the unit direction scaled by the capped scalar. *)
Lemma inside_radius_attracted : forall h attractor body,
  MatterPhysics.isStatic body = false ->
  let dx := fst (HandAttractors.position attractor) - fst (MatterPhysics.position body) in
  let dy := snd (HandAttractors.position attractor) - snd (MatterPhysics.position body) in
  let distance := Math_sqrt (dx * dx + dy * dy) in
  0 < distance -> distance < HandAttractors.attractionRadius h ->
  HandAttractors.forceOn h attractor body =
    Some (HandAttractors.Finite
            (dx / distance * HandAttractors.forceMagnitude h attractor distance),
          HandAttractors.Finite
            (dy / distance * HandAttractors.forceMagnitude h attractor distance)).
Proof.
  intros h attractor body Hfree dx dy distance Hpos Hin.
  unfold HandAttractors.forceOn. rewrite Hfree. fold dx dy distance.
  assert (Hlt : Qltb distance (HandAttractors.attractionRadius h) = true).
  { unfold Qltb. destruct (Qle_bool (HandAttractors.attractionRadius h) distance) eqn:E;
      [|reflexivity].
    apply Qle_bool_iff in E. lra. }
  rewrite Hlt. unfold HandAttractors.jsdiv.
  assert (Hnz : Qeq_bool distance 0 = false).
  { destruct (Qeq_bool distance 0) eqn:E; [|reflexivity].
    apply Qeq_bool_eq in E. lra. }
  rewrite Hnz. reflexivity.
Qed.

(** A free body at the very position of the source is handed the force
    [(NaN, NaN)], for any positive radius and whatever the strength. *)
Lemma at_source_NaN : forall h attractor body,
  MatterPhysics.isStatic body = false ->
  MatterPhysics.position body = HandAttractors.position attractor ->
  (forall q, q == 0 -> Math_sqrt q == 0) ->
  0 < HandAttractors.attractionRadius h ->
  HandAttractors.forceOn h attractor body =
    Some (HandAttractors.NaN, HandAttractors.NaN).
Proof.
  intros h attractor body Hfree Hpos Hsqrt Hr.
  unfold HandAttractors.forceOn. rewrite Hfree, Hpos.
  set (dx := fst (HandAttractors.position attractor) - fst (HandAttractors.position attractor)).
  set (dy := snd (HandAttractors.position attractor) - snd (HandAttractors.position attractor)).
  assert (Hdx : dx == 0) by (unfold dx; ring).
  assert (Hdy : dy == 0) by (unfold dy; ring).
  assert (Hd : Math_sqrt (dx * dx + dy * dy) == 0).
  { apply Hsqrt. rewrite Hdx, Hdy. ring. }
  assert (Hlt : Qltb (Math_sqrt (dx * dx + dy * dy)) (HandAttractors.attractionRadius h) = true).
  { unfold Qltb.
    destruct (Qle_bool (HandAttractors.attractionRadius h) (Math_sqrt (dx * dx + dy * dy)))
      eqn:E; [|reflexivity].
    apply Qle_bool_iff in E. lra. }
  rewrite Hlt. unfold HandAttractors.jsdiv.
  assert (Hz : Qeq_bool (Math_sqrt (dx * dx + dy * dy)) 0 = true)
    by (apply Qeq_bool_iff; exact Hd).
  assert (Hzx : Qeq_bool dx 0 = true) by (apply Qeq_bool_iff; exact Hdx).
  assert (Hzy : Qeq_bool dy 0 = true) by (apply Qeq_bool_iff; exact Hdy).
  rewrite Hz, Hzx, Hzy. reflexivity.
Qed.

End Attraction.

(** The executable square root is [0] at [0]. *)
Lemma sqrtQ_zero : forall q, q == 0 -> sqrtQ q == 0.
Proof.
  intros q Hq. unfold sqrtQ. rewrite Qred_correct.
  assert (Hf : Qfloor (q * inject_Z (10 ^ 12)) = 0%Z).
  { rewrite (Qfloor_comp (q * inject_Z (10 ^ 12)) 0); [reflexivity|].
    rewrite Hq. ring. }
  rewrite Hf. reflexivity.
Qed.

(* ================================================================== *)
(** * Part IV. Runs of the program                                     *)
(* ================================================================== *)

Lemma seedling_built : seedling = seedlingBuilt.
Proof. vm_compute. reflexivity. Qed.


Lemma seedling_revived : forall p g,
  seedlingBuilt = Normal (p, g) -> updateTimes 6 (Plant.destroy p) = seedlingRevived.
Proof.
  intros p g H. unfold seedlingBuilt in H. injection H as <- <-.
  vm_compute. reflexivity.
Qed.

Lemma deep_run :
  LSystem.process (fst (LSystem.new deepConfig (constantRng 0)))
                  (snd (LSystem.new deepConfig (constantRng 0))) = deepRun.
Proof. vm_compute. reflexivity. Qed.

Lemma seedlingBuilt_normal : exists p g, seedlingBuilt = Normal (p, g).
Proof. unfold seedlingBuilt. do 2 eexists. reflexivity. Qed.

Lemma seedling_reachable : forall p g, seedlingBuilt = Normal (p, g) -> reachable p.
Proof.
  intros p g H. eapply reach_new. rewrite <- H. exact seedling_built.
Qed.

(** C1, refuted as stated: the first segment of the seedling is flagged
    [isRoot], and the particle of its end point is free. *)
Lemma root_end_point_is_free :
  exists p g seg r,
    seedling = Normal (p, g) /\
    nth_error (Plant.segments p) 0 = Some seg /\
    LSystem.isRoot seg = true /\
    Plant.mapGet (Plant.endKey seg) (Plant.particleMap p) = Some r /\
    isFixed (Plant.physics p) r = false.
Proof.
  rewrite seedling_built. do 3 eexists. exists 1%nat.
  split; [reflexivity|]. split; [reflexivity|]. split; [reflexivity|].
  split; vm_compute; reflexivity.
Qed.

Lemma seedling_fresh_keys : forall p g,
  seedlingBuilt = Normal (p, g) ->
  Plant.mapGet (Plant.startKey (segment 50 0 50 (-10) 0 1 true)) (Plant.particleMap p) = None /\
  Plant.mapGet (Plant.endKey (segment 50 0 50 (-10) 0 1 true)) (Plant.particleMap p) = None.
Proof.
  intros p g H. unfold seedlingBuilt in H. injection H as <- <-.
  split; vm_compute; reflexivity.
Qed.

(** Witness of C1: a new root segment on the seedling gets a fixed start
    particle and a free end particle. *)
Lemma fixed_iff_root_start_witness :
  exists p g r1 r2,
    seedling = Normal (p, g) /\
    isFixed (Plant.physics (Plant.setupSegmentPhysics p (segment 50 0 50 (-10) 0 1 true)))
      r1 = true /\
    isFixed (Plant.physics (Plant.setupSegmentPhysics p (segment 50 0 50 (-10) 0 1 true)))
      r2 = false.
Proof.
  rewrite seedling_built. destruct seedlingBuilt_normal as [p [g E]]. rewrite E.
  destruct (seedling_fresh_keys E) as [Hstart Hend].
  destruct (fixed_iff_root_start p (segment 50 0 50 (-10) 0 1 true))
    as [r1 [r2 [_ [_ [_ [Hs He]]]]]].
  exists p, g, r1, r2. split; [reflexivity|]. split.
  - apply Hs. exact Hstart.
  - apply He; [exact Hend|]. intros H. vm_compute in H. discriminate.
Defined.

Lemma seedlingRevived_state :
  exists p6,
    seedlingRevived = Normal p6 /\
    Plant.lastSegmentIndex p6 = 6%nat /\
    MatterPhysics.bodies (Plant.physics p6) = [4; 5; 6]%nat.
Proof.
  unfold seedlingRevived. eexists. split; [reflexivity|]. split; reflexivity.
Qed.

Lemma seedling_index : forall p g,
  seedlingBuilt = Normal (p, g) -> Plant.lastSegmentIndex p = 3%nat.
Proof.
  intros p g H. unfold seedlingBuilt in H. injection H as <- <-. reflexivity.
Qed.

(** C3, refuted as stated: after [destroy()] the seedling still accepts
    [update()]; six ticks later it has materialised three more segments
    into the cleared backend. *)
Lemma update_accepted_after_destroy :
  exists p g p1 p6,
    seedling = Normal (p, g) /\
    Plant.update (Plant.destroy p) = Normal p1 /\
    updateTimes 6 (Plant.destroy p) = Normal p6 /\
    Plant.lastSegmentIndex p = 3%nat /\
    Plant.lastSegmentIndex p6 = 6%nat /\
    MatterPhysics.bodies (Plant.physics p6) = [4; 5; 6]%nat.
Proof.
  rewrite seedling_built. destruct seedlingBuilt_normal as [p [g E]]. rewrite E.
  pose proof (seedling_revived E) as Hr.
  destruct seedlingRevived_state as [p6 [E6 [Hi Hb]]]. rewrite E6 in Hr.
  exists p, g. eexists. exists p6.
  split; [reflexivity|]. split; [reflexivity|]. split; [exact Hr|].
  split; [exact (seedling_index E)|]. split; [exact Hi|exact Hb].
Qed.

Lemma seedling_pinched : forall p g,
  seedlingBuilt = Normal (p, g) ->
  exists body,
    MatterPhysics.getBody (Plant.physics p) 1%nat = Some body /\
    MatterPhysics.isStatic body = false /\
    nth_error
      (HandAttractors.applyAttractionToPlants (pinchOver [p] (MatterPhysics.position body)))
      0%nat
    = Some {| HandAttractors.onPlant := 0%nat; HandAttractors.onBody := 1%nat;
              HandAttractors.forceX := HandAttractors.NaN;
              HandAttractors.forceY := HandAttractors.NaN |}.
Proof.
  intros p g H. unfold seedlingBuilt in H. injection H as <- <-.
  eexists. split; [reflexivity|]. split; [reflexivity|]. vm_compute. reflexivity.
Qed.

(** C4, the failing run: a pinch held exactly on the free particle at the
    end of the seedling's first segment hands that particle the force
    [(NaN, NaN)]. *)
Theorem force_at_source_is_NaN :
  exists p g body,
    seedling = Normal (p, g) /\
    MatterPhysics.getBody (Plant.physics p) 1%nat = Some body /\
    MatterPhysics.isStatic body = false /\
    nth_error
      (HandAttractors.applyAttractionToPlants (pinchOver [p] (MatterPhysics.position body)))
      0%nat
    = Some {| HandAttractors.onPlant := 0%nat; HandAttractors.onBody := 1%nat;
              HandAttractors.forceX := HandAttractors.NaN;
              HandAttractors.forceY := HandAttractors.NaN |}.
Proof.
  rewrite seedling_built. destruct seedlingBuilt_normal as [p [g E]]. rewrite E.
  destruct (seedling_pinched E) as [body [Hb [Hs Hf]]].
  exists p, g, body. split; [reflexivity|]. split; [exact Hb|]. split; [exact Hs|exact Hf].
Qed.



Lemma seedling_first_springs : forall p g,
  seedlingBuilt = Normal (p, g) ->
  exists s0 s1 c0 c1,
    In (s0, 0%nat) (Plant.segmentToSpring p) /\
    In (s1, 1%nat) (Plant.segmentToSpring p) /\
    nth_error (MatterPhysics.springHeap (Plant.physics p)) 0 = Some c0 /\
    nth_error (MatterPhysics.springHeap (Plant.physics p)) 1 = Some c1 /\
    Plant.endKey s0 = Plant.startKey s1 /\
    Plant.constraintsAdded p = false.
Proof.
  intros p g H. unfold seedlingBuilt in H. injection H as <- <-.
  do 4 eexists. split; [left; reflexivity|]. split; [right; left; reflexivity|].
  split; [reflexivity|]. split; [reflexivity|]. split; [vm_compute; reflexivity|].
  reflexivity.
Qed.


(** Witness of C7: in the seedling the end of the first segment and the
    start of the second have one key, and their springs meet in one
    particle. *)
Lemma shared_endpoints_one_particle_witness :
  exists p g c0 c1,
    seedling = Normal (p, g) /\
    nth_error (MatterPhysics.springHeap (Plant.physics p)) 0 = Some c0 /\
    nth_error (MatterPhysics.springHeap (Plant.physics p)) 1 = Some c1 /\
    MatterPhysics.b c0 = MatterPhysics.a c1.
Proof.
  rewrite seedling_built. destruct seedlingBuilt_normal as [p [g E]]. rewrite E.
  destruct (seedling_first_springs E) as [s0 [s1 [c0 [c1 [I0 [I1 [N0 [N1 [K _]]]]]]]]].
  exists p, g, c0, c1. split; [reflexivity|]. split; [exact N0|]. split; [exact N1|].
  destruct (proj1 (shared_endpoints_one_particle (seedling_reachable E))
              s0 0%nat c0 s1 1%nat c1 I0 I1 N0 N1) as [_ [_ [H _]]].
  exact (proj1 H K).
Defined.

(** C7, refuted as stated: on the seedling, the end of [nearA] and the
    start of [nearB] are two ten-thousandths apart, and the end of [zeroA]
    and the start of [zeroB] one thousandth; their keys differ (["0.00"]
    against ["0.01"], and ["0.00"] against ["-0.00"]), and the springs of the
    two segments end and start on two different particles. *)
Lemma near_endpoints_two_particles :
  exists p g cA cB cC cD,
    seedling = Normal (p, g) /\
    MatterPhysics.springHeap
      (Plant.physics (fold_left Plant.setupSegmentPhysics [nearA; nearB; zeroA; zeroB] p)) =
      MatterPhysics.springHeap (Plant.physics p) ++ [cA; cB; cC; cD] /\
    Qabs (LSystem.x2 nearA - LSystem.x1 nearB) < 1 # 1000 /\
    Qabs (LSystem.y2 nearA - LSystem.y1 nearB) < 1 # 1000 /\
    Plant.endKey nearA = "0.00,1000.00"%string /\
    Plant.startKey nearB = "0.01,1000.00"%string /\
    MatterPhysics.b cA <> MatterPhysics.a cB /\
    Qabs (LSystem.x2 zeroA - LSystem.x1 zeroB) <= 1 # 1000 /\
    Qabs (LSystem.y2 zeroA - LSystem.y1 zeroB) < 1 # 1000 /\
    Plant.endKey zeroA = "0.00,2000.00"%string /\
    Plant.startKey zeroB = "-0.00,2000.00"%string /\
    MatterPhysics.b cC <> MatterPhysics.a cD.
Proof.
  rewrite seedling_built. unfold seedlingBuilt.
  do 6 eexists. split; [reflexivity|]. split; [vm_compute; reflexivity|].
  repeat split; try (vm_compute; reflexivity); vm_compute; discriminate.
Qed.


(** Witness of C10: the start state has an empty stack, and the default
    grammar has no colour variation. *)
Lemma turtle_totality_witness :
  LSystem.walk (fst (LSystem.new emptyConfig (constantRng 0)))
    (LSystem.start (fst (LSystem.new emptyConfig (constantRng 0))) (constantRng 0)) "]F" =
  LSystem.walk (fst (LSystem.new emptyConfig (constantRng 0)))
    (LSystem.start (fst (LSystem.new emptyConfig (constantRng 0))) (constantRng 0)) "F" /\
  exists s',
    LSystem.walk (fst (LSystem.new emptyConfig (constantRng 0)))
      (LSystem.start (fst (LSystem.new emptyConfig (constantRng 0))) (constantRng 0)) "F"
    = Normal s'.
Proof.
  destruct (turtle_totality
              (fst (LSystem.new emptyConfig (constantRng 0)))
              (LSystem.start (fst (LSystem.new emptyConfig (constantRng 0))) (constantRng 0))
              "F" (constantRng 0)) as [Hpop [Htotal _]].
  split.
  - apply Hpop. reflexivity.
  - apply Htotal. reflexivity.
Defined.


(* ================================================================== *)
(** * Part V. The garden, the hands and the atmosphere                *)
(* ================================================================== *)

(** ** The life of a plant *)

(** ** The constructor *)

Section Constructor.
Context {env : MathEnv}.

Lemma isChar_eqb : forall a c, LSystem.isChar a (String c EmptyString) = Ascii.eqb a c.
Proof.
  intros a c. unfold LSystem.isChar. simpl. apply andb_true_r.
Qed.

(** Only the colour-shift symbol can make a step throw. *)
Lemma step_normal_unless_c : forall l s char,
  Ascii.eqb char "c" = false -> exists s', LSystem.step l s char = Normal s'.
Proof.
  intros l s char Hc. unfold LSystem.step. rewrite !isChar_eqb, Hc.
  repeat match goal with
         | |- context [if ?b then _ else _] => destruct b
         | |- context [let (_, _) := ?e in _] => destruct e
         | |- context [match LSystem.stack s with _ => _ end] => destruct (LSystem.stack s)
         end; eauto.
Qed.

Lemma walk_normal_without_c : forall l production s,
  occurs "c" production = 0%nat -> exists s', LSystem.walk l s production = Normal s'.
Proof.
  intros l production; induction production as [|char rest IH]; intros s Hc; simpl.
  - eauto.
  - simpl in Hc. destruct (Ascii.eqb char "c") eqn:E; [discriminate|].
    destruct (step_normal_unless_c l s char E) as [s' Hs]. rewrite Hs. simpl.
    apply IH. exact Hc.
Qed.

Lemma process_normal_without_c : forall l g,
  occurs "c" (LSystem.production l) = 0%nat ->
  exists l' g', LSystem.process l g = Normal (l', g').
Proof.
  intros l g Hc. unfold LSystem.process.
  destruct (walk_normal_without_c l _ (LSystem.start l g) Hc) as [s' ->].
  simpl. eauto.
Qed.

(** No preset grammar produces the colour-shift symbol. *)
Lemma preset_without_c : forall type g,
  occurs "c" (LSystem.production (fst (LSystem.createByType type g))) = 0%nat.
Proof.
  intros type g. unfold LSystem.createByType.
  repeat match goal with
         | |- context [if ?b then _ else _] => destruct b
         end; vm_compute; reflexivity.
Qed.

Lemma setupInitialRoot_fields : forall p,
  exists ph pm s2s,
    Plant.setupInitialRoot p =
    Plant.withBuilt
      (Plant.withProgress p (Plant.growth p) (List.length (rootSegments (Plant.segments p)))
         (Plant.growingPhase p) (Plant.constraintsAdded p) (Plant.fruitsAdded p))
      ph pm s2s.
Proof.
  intros p. unfold Plant.setupInitialRoot. cbv zeta. fold (rootSegments (Plant.segments p)).
  destruct (fold_setup_frame (rootSegments (Plant.segments p)) p) as [ph [pm [s2s ->]]].
  exists ph, pm, s2s. reflexivity.
Qed.

(** The constructor returns, and the fields of the plant it returns. *)
Lemma new_fields : forall px py type g,
  exists p g',
    Plant.new px py type g = Normal (p, g') /\
    Plant.growth p = 0 /\
    Plant.growingPhase p = true /\
    Plant.constraintsAdded p = false /\
    Plant.fruitsAdded p = false /\
    Plant.fruitParticles p = [] /\
    Plant.lastSegmentIndex p = List.length (rootSegments (Plant.segments p)) /\
    (Plant.lastSegmentIndex p <= 3)%nat.
Proof.
  intros px py type g.
  assert (Hlen : forall segs, (List.length (rootSegments segs) <= 3)%nat).
  { intros segs. unfold rootSegments. rewrite length_firstn. lia. }
  unfold Plant.new.
  destruct (String.eqb type "random").
  - unfold LSystem.createRandomPlant. destruct (random g) as [r g0].
    match goal with |- context [LSystem.createByType ?ty g0] =>
      pose proof (preset_without_c ty g0) as Hc;
      destruct (LSystem.createByType ty g0) as [l g1] end.
    simpl in Hc. destruct (random2 3 5 g1) as [th g2].
    destruct (process_normal_without_c l g2 Hc) as [l' [g3 ->]]. simpl.
    destruct (random2 (6 # 10) (18 # 10) g3) as [scale g4].
    match goal with |- context [Plant.setupInitialRoot ?p0] =>
      destruct (setupInitialRoot_fields p0) as [ph [pm [s2s ->]]] end.
    do 2 eexists. split; [reflexivity|]. simpl. repeat split; auto.
  - pose proof (preset_without_c type g) as Hc.
    destruct (LSystem.createByType type g) as [l g1]. simpl in Hc.
    destruct (process_normal_without_c l g1 Hc) as [l' [g3 ->]]. simpl.
    destruct (random2 (6 # 10) (18 # 10) g3) as [scale g4].
    match goal with |- context [Plant.setupInitialRoot ?p0] =>
      destruct (setupInitialRoot_fields p0) as [ph [pm [s2s ->]]] end.
    do 2 eexists. split; [reflexivity|]. simpl. repeat split; auto.
Qed.

(** X1: the plant constructor never throws, whatever type name and
    position it is given and whatever the random generator holds: no
    preset grammar produces the colour-shift symbol.  The new plant has
    growth 0, is in its growing phase with both pass flags unset and no
    fruit particle, and counts as materialised as many segments as it
    found among the first three of depth 0. *)
Theorem plant_constructor_total : forall px py type g,
  (occurs "c" (LSystem.production (fst (LSystem.createByType type g))) = 0%nat) /\
  (exists p g',
    Plant.new px py type g = Normal (p, g') /\
    Plant.growth p = 0 /\
    Plant.growingPhase p = true /\
    Plant.constraintsAdded p = false /\
    Plant.fruitsAdded p = false /\
    Plant.fruitParticles p = [] /\
    Plant.lastSegmentIndex p = List.length (rootSegments (Plant.segments p)) /\
    (Plant.lastSegmentIndex p <= 3)%nat).
Proof.
  intros px py type g. split; [apply preset_without_c|apply new_fields].
Qed.

End Constructor.

(** ** The growth state *)

Section Pace.
Context {env : MathEnv} {engine : MatterPhysics.Engine}.

Lemma grown_reachable : forall p, grown p -> reachable p.
Proof.
  intros p H. induction H.
  - eapply reach_new; eauto.
  - eapply reach_update; eauto.
Qed.

Lemma paced_frame : forall q ph pm s2s fp,
  paced q -> paced (Plant.withFruitParticles (Plant.withBuilt q ph pm s2s) fp).
Proof.
  intros q ph pm s2s fp [A B C D E]. constructor; assumption.
Qed.

Lemma paced_growProgress : forall p, paced p -> paced (growProgress p).
Proof.
  intros p [A B C D E]. unfold growProgress. cbv zeta.
  destruct (Datatypes.length (Plant.segments p) <=? Plant.lastSegmentIndex p)%nat;
    constructor; plant_fields; auto.
  lia.
Qed.

(** The growth fraction after the first statement of [update()]. *)
Lemma growth_tick : forall p,
  paced p ->
  let growth1 :=
    if Qltb (Plant.growth p) (Plant.targetGrowth p) then
      if Qgtb (Plant.growth p + Plant.growthRate p) (Plant.targetGrowth p)
      then Plant.targetGrowth p else Plant.growth p + Plant.growthRate p
    else Plant.growth p in
  0 <= growth1 <= 1 /\
  Plant.growth p <= growth1 /\
  (growth1 == 1 \/ growth1 == Plant.growth p + (3 # 100)).
Proof.
  intros p [A B [C1 C2] D E]. rewrite A, B. cbv zeta.
  unfold Qltb, Qgtb.
  destruct (Qle_bool 1 (Plant.growth p)) eqn:E1; simpl.
  - apply Qle_bool_iff in E1. repeat split; try lra.
  - destruct (Qle_bool (Plant.growth p + (3 # 100)) 1) eqn:E2; simpl.
    + apply Qle_bool_iff in E2. repeat split; try lra; try (right; reflexivity).
    + repeat split; try lra; try (left; reflexivity).
Qed.

Lemma paced_updateProgress : forall p, paced p -> paced (updateProgress p).
Proof.
  intros p Hp. pose proof (growth_tick Hp) as [Hg _]. cbv zeta in Hg.
  destruct Hp as [A B C D E].
  unfold updateProgress. cbv zeta.
  match goal with |- context [Plant.withProgress p ?g ?i ?a ?c ?f] =>
    assert (H1 : paced (Plant.withProgress p g i a c f))
      by (constructor; plant_fields; auto);
    set (p1 := Plant.withProgress p g i a c f) in * end.
  destruct (Plant.growingPhase p1 && Qgtb (Plant.growth p1) (1 # 10)); [|exact H1].
  match goal with |- context [if ?b then _ else _] => destruct b end; [|exact H1].
  apply paced_growProgress, H1.
Qed.

Lemma paced_new : forall px py type g p g',
  Plant.new px py type g = Normal (p, g') -> paced p.
Proof.
  intros px py type g p g'. unfold Plant.new.
  assert (Hlen : forall segs, (List.length (rootSegments segs) <= List.length segs)%nat).
  { intros segs. unfold rootSegments. rewrite length_firstn.
    pose proof (filter_length_le (fun segment => Nat.eqb (LSystem.depth segment) 0) segs).
    lia. }
  destruct (String.eqb type "random").
  - destruct (LSystem.createRandomPlant g) as [l g1].
    destruct (random2 3 5 g1) as [th g2].
    destruct (LSystem.process l g2) as [[l' g3]|e]; unfold bind; [|discriminate].
    destruct (random2 (6 # 10) (18 # 10) g3) as [scale g4].
    intros H; injection H as <- <-.
    match goal with |- context [Plant.setupInitialRoot ?p0] =>
      destruct (setupInitialRoot_fields p0) as [ph [pm [s2s ->]]] end.
    constructor; simpl; auto. lra.
  - destruct (LSystem.createByType type g) as [l g1].
    destruct (LSystem.process l g1) as [[l' g3]|e]; unfold bind; [|discriminate].
    destruct (random2 (6 # 10) (18 # 10) g3) as [scale g4].
    intros H; injection H as <- <-.
    match goal with |- context [Plant.setupInitialRoot ?p0] =>
      destruct (setupInitialRoot_fields p0) as [ph [pm [s2s ->]]] end.
    constructor; simpl; auto. lra.
Qed.

Lemma paced_update : forall p p', paced p -> Plant.update p = Normal p' -> paced p'.
Proof.
  intros p p' Hp Hu. destruct (update_frame p) as [ph [pm [s2s [fp E]]]].
  rewrite E in Hu. injection Hu as <-. apply paced_frame, paced_updateProgress, Hp.
Qed.

Lemma paced_growPlant : forall p, paced p -> paced (Plant.growPlant p).
Proof.
  intros p Hp. destruct (growPlant_frame p) as [ph [pm [s2s [fp ->]]]].
  apply paced_frame, paced_growProgress, Hp.
Qed.

Lemma reachable_paced : forall p, reachable p -> paced p.
Proof.
  intros p Hr. induction Hr.
  - eapply paced_new; eauto.
  - eapply paced_update; eauto.
  - apply paced_growPlant; auto.
  - destruct IHHr as [A B C D E]. constructor; assumption.
Qed.

(** X2: in every plant the program can hold, the growth fraction lies
    between 0 and the target 1, the count of materialised segments never
    exceeds the number of segments, and [totalSegments] is that number. *)
Theorem growth_state_bounds : forall p,
  reachable p ->
  Plant.targetGrowth p = 1 /\
  0 <= Plant.growth p <= Plant.targetGrowth p /\
  (Plant.lastSegmentIndex p <= List.length (Plant.segments p))%nat /\
  Plant.totalSegments p = List.length (Plant.segments p).
Proof.
  intros p Hr. destruct (reachable_paced Hr) as [A B C D E].
  rewrite A. auto.
Qed.

(** The number of segments [update()] aims at never exceeds the total. *)
Lemma target_within_total : forall growth total,
  growth <= 1 ->
  (Qfloor (growth / 1 * inject_Z (Z.of_nat total)) <= Z.of_nat total)%Z.
Proof.
  intros growth total Hg.
  rewrite <- (Qfloor_Z (Z.of_nat total)) at 2.
  apply Qfloor_resp_le.
  assert (H0 : 0 <= inject_Z (Z.of_nat total)).
  { change 0 with (inject_Z 0). rewrite <- Zle_Qle. lia. }
  setoid_replace (growth / 1) with growth by field.
  nra.
Qed.

Lemma updateProgress_phase : forall p,
  paced p -> Plant.growingPhase p = true ->
  Plant.growingPhase (updateProgress p) = true.
Proof.
  intros p Hp Hphase. pose proof (growth_tick Hp) as [[_ Hg] _]. cbv zeta in Hg.
  destruct Hp as [A B C D E].
  unfold updateProgress. cbv zeta. plant_fields.
  match goal with |- context [if ?b then _ else _] => destruct b end; [|exact Hphase].
  match goal with |- context [if ?b then growProgress _ else _] =>
    destruct b eqn:Hlt end; [|exact Hphase].
  unfold growProgress. cbv zeta. plant_fields.
  destruct (Datatypes.length (Plant.segments p) <=? Plant.lastSegmentIndex p)%nat eqn:Hdone;
    [|exact Hphase].
  exfalso. apply Nat.leb_le in Hdone. apply Z.ltb_lt in Hlt.
  rewrite A, E in Hlt. rewrite A in Hg.
  pose proof (target_within_total (Datatypes.length (Plant.segments p)) Hg) as Hle.
  lia.
Qed.

Lemma grown_phase : forall p, grown p -> Plant.growingPhase p = true.
Proof.
  intros p H. induction H as [px py type g p g' Hnew|p p' Hg IH Hu].
  - destruct (new_fields px py type g) as [q [g0 [E [_ [Hph _]]]]].
    rewrite E in Hnew. injection Hnew as <- <-. exact Hph.
  - destruct (update_frame p) as [ph [pm [s2s [fp E]]]].
    rewrite E in Hu. injection Hu as <-. plant_fields.
    apply updateProgress_phase; [|exact IH].
    apply reachable_paced, grown_reachable, Hg.
Qed.

(** X3: [update()] never ends the growing phase.  It calls [growPlant()]
    only while segments are left to add, so the branch of [growPlant()]
    that clears [growingPhase] is never taken: the flag is set in every
    plant built by the constructor and updated any number of times, and
    an update that calls [growPlant()] on such a plant finds a segment
    left to add. *)
Theorem growing_phase_stays_on : forall p,
  grown p ->
  Plant.growingPhase p = true /\
  forall p', Plant.update p = Normal p' ->
    Plant.growingPhase p' = true /\
    (Plant.lastSegmentIndex p' <> Plant.lastSegmentIndex p ->
     (Plant.lastSegmentIndex p < List.length (Plant.segments p))%nat).
Proof.
  intros p Hg. split; [apply grown_phase, Hg|].
  intros p' Hu. split; [apply grown_phase; eapply grown_update; eauto|].
  intros Hmoved.
  pose proof (reachable_paced (grown_reachable Hg)) as Hp.
  destruct (Nat.lt_ge_cases (Plant.lastSegmentIndex p)
              (Datatypes.length (Plant.segments p))) as [Hlt|Hge]; [exact Hlt|].
  exfalso. apply Hmoved.
  assert (Hdone : Plant.lastSegmentIndex p = Datatypes.length (Plant.segments p)).
  { pose proof (paced_index Hp). lia. }
  pose proof (growth_tick Hp) as [[_ Hg1] _]. cbv zeta in Hg1.
  destruct Hp as [A B C D T]. revert Hu.
  unfold Plant.update. cbv zeta. plant_fields.
  assert (Hno : (Z.of_nat (Plant.lastSegmentIndex p) <?
                 Qfloor
                   ((if Qltb (Plant.growth p) (Plant.targetGrowth p)
                     then if Qgtb (Plant.growth p + Plant.growthRate p) (Plant.targetGrowth p)
                          then Plant.targetGrowth p
                          else Plant.growth p + Plant.growthRate p
                     else Plant.growth p) / Plant.targetGrowth p *
                    inject_Z (Z.of_nat (Plant.totalSegments p))))%Z = false).
  { apply Z.ltb_ge. rewrite T. rewrite A in *.
    pose proof (target_within_total (Datatypes.length (Plant.segments p)) Hg1). lia. }
  rewrite Hno.
  match goal with |- context [if ?b then _ else _] => destruct b end;
    intros H; injection H as <-; reflexivity.
Qed.


Lemma update_total : forall p, exists p', Plant.update p = Normal p'.
Proof. intros p. unfold Plant.update. eexists. reflexivity. Qed.

Lemma updateTimes_S : forall n p,
  updateTimes (S n) p = bind (Plant.update p) (updateTimes n).
Proof. reflexivity. Qed.

Lemma updateTimes_add : forall a b p,
  updateTimes (a + b) p = bind (updateTimes a p) (updateTimes b).
Proof.
  induction a as [|a IH]; intros b p; [reflexivity|].
  cbn [Nat.add]. rewrite !updateTimes_S.
  destruct (Plant.update p) as [p1|e]; cbn [bind]; [apply IH|reflexivity].
Qed.

(** What one [update()] does to the growth state of a plant in its
    growing phase. *)
Lemma update_progress : forall p p',
  paced p -> Plant.growingPhase p = true -> Plant.update p = Normal p' ->
  Plant.segments p' = Plant.segments p /\
  Plant.growth p <= Plant.growth p' /\
  (Plant.growth p' == 1 \/ Plant.growth p' == Plant.growth p + (3 # 100)) /\
  (Plant.lastSegmentIndex p <= Plant.lastSegmentIndex p')%nat /\
  (Plant.growth p == 1 ->
   (Nat.min (S (Plant.lastSegmentIndex p)) (List.length (Plant.segments p))
    <= Plant.lastSegmentIndex p')%nat).
Proof.
  intros p p' Hp Hphase Hu.
  destruct (update_frame p) as [ph [pm [s2s [fp E]]]].
  rewrite E in Hu. injection Hu as <-. plant_fields.
  pose proof (growth_tick Hp) as [[_ Hg1] [Hmono Hstep]]. cbv zeta in Hg1, Hmono, Hstep.
  destruct Hp as [A B [C1 C2] D T].
  unfold updateProgress. cbv zeta. plant_fields. rewrite Hphase. simpl andb.
  set (growth1 :=
         if Qltb (Plant.growth p) (Plant.targetGrowth p)
         then if Qgtb (Plant.growth p + Plant.growthRate p) (Plant.targetGrowth p)
              then Plant.targetGrowth p else Plant.growth p + Plant.growthRate p
         else Plant.growth p) in *.
  assert (Hfull : Plant.growth p == 1 ->
            Qgtb growth1 (1 # 10) = true /\
            Qfloor (growth1 / Plant.targetGrowth p *
                    inject_Z (Z.of_nat (Plant.totalSegments p))) =
            Z.of_nat (Datatypes.length (Plant.segments p))).
  { intros H1. assert (Hg : growth1 == 1) by lra. split.
    - unfold Qgtb. destruct (Qle_bool growth1 (1 # 10)) eqn:E1; [|reflexivity].
      apply Qle_bool_iff in E1. lra.
    - rewrite A, T.
      rewrite (Qfloor_comp _ (inject_Z (Z.of_nat (Datatypes.length (Plant.segments p))))).
      + apply Qfloor_Z.
      + rewrite Hg. field. }
  destruct (Qgtb growth1 (1 # 10)) eqn:Hstart.
  - destruct (Z.of_nat (Plant.lastSegmentIndex p) <?
              Qfloor (growth1 / Plant.targetGrowth p *
                      inject_Z (Z.of_nat (Plant.totalSegments p))))%Z eqn:Hlt.
    + unfold growProgress. cbv zeta. plant_fields.
      destruct (Datatypes.length (Plant.segments p) <=? Plant.lastSegmentIndex p)%nat
        eqn:Hdone; plant_fields.
      * apply Nat.leb_le in Hdone. repeat split; auto; lia.
      * apply Nat.leb_gt in Hdone. repeat split; auto; lia.
    + plant_fields. repeat split; auto.
      intros H1. destruct (Hfull H1) as [_ Hfl]. rewrite Hfl in Hlt.
      apply Z.ltb_ge in Hlt. lia.
  - plant_fields. repeat split; auto.
    intros H1. destruct (Hfull H1) as [Hc _]. discriminate.
Qed.

(** The growth fraction reaches the target once enough steps of 0.03 have
    been taken. *)
Lemma growth_reaches_target : forall n p,
  grown p ->
  exists p',
    updateTimes n p = Normal p' /\ grown p' /\
    Plant.segments p' = Plant.segments p /\
    (1 <= Plant.growth p + inject_Z (Z.of_nat n) * (3 # 100) -> Plant.growth p' == 1).
Proof.
  induction n as [|n IH]; intros p Hg.
  - exists p. cbn [updateTimes]. repeat split; auto.
    intros H. pose proof (reachable_paced (grown_reachable Hg)) as [_ _ [C1 C2] _ _].
    change (inject_Z (Z.of_nat 0)) with 0 in H. lra.
  - destruct (update_total p) as [p1 Hu].
    pose proof (reachable_paced (grown_reachable Hg)) as Hp.
    destruct (update_progress Hp (grown_phase Hg) Hu) as [Hs [_ [Hstep _]]].
    destruct (IH p1 (grown_update Hg Hu)) as [p' [Hn [Hg' [Hs' Hfull]]]].
    exists p'. rewrite updateTimes_S, Hu. cbn [bind]. repeat split; auto; [congruence|].
    intros H. apply Hfull.
    assert (Hn1 : inject_Z (Z.of_nat (S n)) == inject_Z (Z.of_nat n) + 1).
    { rewrite Nat2Z.inj_succ, <- Z.add_1_r, inject_Z_plus. reflexivity. }
    rewrite Hn1 in H.
    assert (H0 : 0 <= inject_Z (Z.of_nat n)).
    { change 0 with (inject_Z 0). rewrite <- Zle_Qle. lia. }
    destruct Hstep as [Hstep|Hstep]; rewrite Hstep; nra.
Qed.

(** At the target, every step materialises at least one more segment. *)
Lemma segments_fill_up : forall k p,
  grown p -> Plant.growth p == 1 ->
  exists p',
    updateTimes k p = Normal p' /\ grown p' /\
    Plant.segments p' = Plant.segments p /\
    Plant.growth p' == 1 /\
    (Nat.min (Plant.lastSegmentIndex p + k) (List.length (Plant.segments p))
     <= Plant.lastSegmentIndex p')%nat.
Proof.
  induction k as [|k IH]; intros p Hg H1.
  - exists p. cbn [updateTimes]. repeat split; auto. lia.
  - destruct (update_total p) as [p1 Hu].
    pose proof (reachable_paced (grown_reachable Hg)) as Hp.
    destruct (update_progress Hp (grown_phase Hg) Hu)
      as [Hs [Hmono [_ [_ Hadv]]]].
    pose proof (reachable_paced (grown_reachable (grown_update Hg Hu))) as [_ _ [_ C2] _ _].
    assert (H1' : Plant.growth p1 == 1) by lra.
    destruct (IH p1 (grown_update Hg Hu) H1') as [p' [Hn [Hg' [Hs' [Hone Hidx]]]]].
    exists p'. rewrite updateTimes_S, Hu. cbn [bind]. repeat split; auto; [congruence|].
    specialize (Hadv H1). rewrite Hs in Hidx. lia.
Qed.

Lemma grows_up : forall px py type g p g' n,
  Plant.new px py type g = Normal (p, g') ->
  (34 + List.length (Plant.segments p) <= n)%nat ->
  exists p',
    updateTimes n p = Normal p' /\ grown p' /\
    Plant.segments p' = Plant.segments p /\
    Plant.growth p' == 1 /\
    Plant.lastSegmentIndex p' = List.length (Plant.segments p').
Proof.
  intros px py type g p g' n Hnew Hn.
  assert (Hg : grown p) by (eapply grown_new; eauto).
  replace n with (34 + (n - 34))%nat by lia. rewrite updateTimes_add.
  destruct (growth_reaches_target 34 Hg) as [p1 [E1 [Hg1 [Hs1 Hfull]]]].
  rewrite E1. cbn [bind].
  assert (H1 : Plant.growth p1 == 1).
  { apply Hfull. destruct (new_fields px py type g) as [q [g0 [E [H0 _]]]].
    rewrite E in Hnew. injection Hnew as <- <-. rewrite H0. vm_compute. discriminate. }
  destruct (segments_fill_up (n - 34) Hg1 H1) as [p' [E2 [Hg2 [Hs2 [Hone Hidx]]]]].
  exists p'. split; [exact E2|]. split; [exact Hg2|]. split; [congruence|].
  split; [exact Hone|].
  pose proof (reachable_paced (grown_reachable Hg2)) as [_ _ _ D _].
  rewrite Hs2 in *. rewrite Hs1 in *. lia.
Qed.

(** X4: every plant finishes growing.  From the constructor on, 34 calls
    of [update()] bring the growth fraction to the target, and each further
    call materialises at least one segment, so that after
    [34 + segments.length] calls, or any larger number, every segment is
    counted as materialised. *)
Theorem plant_finishes_growing : forall px py type g p g' n,
  Plant.new px py type g = Normal (p, g') ->
  (34 + List.length (Plant.segments p) <= n)%nat ->
  exists p',
    updateTimes n p = Normal p' /\
    Plant.segments p' = Plant.segments p /\
    Plant.growth p' == 1 /\
    Plant.lastSegmentIndex p' = List.length (Plant.segments p').
Proof.
  intros px py type g p g' n Hnew Hn.
  destruct (grows_up _ _ _ _ Hnew Hn) as [p' [E [_ H]]].
  exists p'. split; [exact E|exact H].
Qed.

(** X5: a plant whose segments are all counted as materialised is frozen.
    [update()] then only advances the growth fraction and steps the engine:
    it adds no particle and no spring, and leaves the two pass flags as
    they are, also when they were never set. *)
Theorem finished_plant_is_frozen : forall p p',
  reachable p ->
  Plant.lastSegmentIndex p = List.length (Plant.segments p) ->
  Plant.update p = Normal p' ->
  Plant.physics p' = MatterPhysics.update (Plant.physics p) /\
  Plant.particleMap p' = Plant.particleMap p /\
  Plant.segmentToSpring p' = Plant.segmentToSpring p /\
  Plant.fruitParticles p' = Plant.fruitParticles p /\
  Plant.lastSegmentIndex p' = Plant.lastSegmentIndex p /\
  Plant.constraintsAdded p' = Plant.constraintsAdded p /\
  Plant.fruitsAdded p' = Plant.fruitsAdded p.
Proof.
  intros p p' Hr Hdone. pose proof (reachable_paced Hr) as Hp.
  pose proof (growth_tick Hp) as [[_ Hg1] _]. cbv zeta in Hg1.
  destruct Hp as [A B C D T].
  unfold Plant.update. cbv zeta. plant_fields.
  assert (Hno : (Z.of_nat (Plant.lastSegmentIndex p) <?
                 Qfloor
                   ((if Qltb (Plant.growth p) (Plant.targetGrowth p)
                     then if Qgtb (Plant.growth p + Plant.growthRate p) (Plant.targetGrowth p)
                          then Plant.targetGrowth p
                          else Plant.growth p + Plant.growthRate p
                     else Plant.growth p) / Plant.targetGrowth p *
                    inject_Z (Z.of_nat (Plant.totalSegments p))))%Z = false).
  { apply Z.ltb_ge. rewrite T. rewrite A in *.
    pose proof (target_within_total (Datatypes.length (Plant.segments p)) Hg1). lia. }
  rewrite Hno.
  match goal with |- context [if ?b then _ else _] => destruct b end;
    intros H; injection H as <-; repeat split.
Qed.

End Pace.

(** ** Fruits *)

Section FruitPass.
Context {env : MathEnv} {engine : MatterPhysics.Engine}.

Lemma nearest_found : forall entries ph fx fy r m,
  exists r', Plant.nearest ph fx fy entries (Some r) m = Some r'.
Proof.
  induction entries as [|[k particle] rest IH]; intros ph fx fy r m; simpl.
  - eauto.
  - match goal with |- context [if ?b then _ else _] => destruct b end; apply IH.
Qed.

Lemma nearest_of_nonempty : forall entries ph fx fy,
  entries <> [] -> exists r', Plant.nearest ph fx fy entries None None = Some r'.
Proof.
  intros [|[k particle] rest] ph fx fy Hne; [congruence|]. simpl. apply nearest_found.
Qed.

(** With a particle to hang from, a fruit gets one particle of its own. *)
Lemma addFruit_attaches : forall p fruit,
  Plant.particleMap p <> [] ->
  Plant.particleMap (Plant.addFruit p fruit) = Plant.particleMap p /\
  List.length (Plant.fruitParticles (Plant.addFruit p fruit)) =
    S (List.length (Plant.fruitParticles p)).
Proof.
  intros p fruit Hne. unfold Plant.addFruit.
  match goal with |- context [Plant.nearest ?ph ?fx ?fy ?e None None] =>
    destruct (nearest_of_nonempty ph fx fy Hne) as [r' ->] end.
  match goal with |- context [MatterPhysics.createParticle ?x ?y ?m ?f ?ph] =>
    destruct (MatterPhysics.createParticle x y m f ph) as [fruitParticle ph1] end.
  simpl. split; [reflexivity|]. rewrite length_app. simpl. lia.
Qed.

Lemma fold_addFruit_attaches : forall fruits p,
  Plant.particleMap p <> [] ->
  List.length (Plant.fruitParticles (fold_left Plant.addFruit fruits p)) =
    (List.length (Plant.fruitParticles p) + List.length fruits)%nat.
Proof.
  induction fruits as [|fruit rest IH]; intros p Hne; simpl; [lia|].
  destruct (addFruit_attaches p fruit Hne) as [Hpm Hlen].
  rewrite IH by (rewrite Hpm; exact Hne). rewrite Hlen. lia.
Qed.

Lemma addFruits_attaches : forall p,
  Plant.particleMap p <> [] ->
  List.length (Plant.fruitParticles (Plant.addFruits p)) =
    (List.length (Plant.fruitParticles p) + List.length (Plant.fruits p))%nat.
Proof.
  intros p Hne. unfold Plant.addFruits.
  destruct (Plant.fruits p) as [|fruit rest] eqn:E; [simpl; lia|].
  rewrite <- E. apply fold_addFruit_attaches, Hne.
Qed.

Lemma fold_setup_keeps : forall segs p k r,
  Plant.mapGet k (Plant.particleMap p) = Some r ->
  Plant.mapGet k (Plant.particleMap (fold_left Plant.setupSegmentPhysics segs p)) = Some r.
Proof.
  induction segs as [|seg segs IH]; intros p k r H; simpl; [exact H|].
  apply IH. destruct (setup_materialised p seg) as [r1 [r2 [c M]]].
  apply (m_keep M). exact H.
Qed.

Lemma fold_setup_nonempty : forall seg segs p,
  Plant.particleMap (fold_left Plant.setupSegmentPhysics (seg :: segs) p) <> [].
Proof.
  intros seg segs p. simpl.
  destruct (setup_materialised p seg) as [r1 [r2 [c M]]].
  pose proof (fold_setup_keeps segs _ _ (m_start M)) as H.
  intros Hnil. rewrite Hnil in H. discriminate.
Qed.

Lemma fruitful_growPlant : forall p, fruitful p -> fruitful (Plant.growPlant p).
Proof.
  intros p [Hoff Hon]. unfold Plant.growPlant.
  destruct (Datatypes.length (Plant.segments p) <=? Plant.lastSegmentIndex p)%nat eqn:Hdone.
  - split; plant_fields; assumption.
  - cbv zeta. apply Nat.leb_gt in Hdone.
    set (endIndex := Nat.min (Plant.lastSegmentIndex p +
                              Nat.max 1 (Datatypes.length (Plant.segments p) / 50))
                             (Datatypes.length (Plant.segments p))).
    assert (Hbatch : exists seg rest,
              firstn (endIndex - Plant.lastSegmentIndex p)
                (skipn (Plant.lastSegmentIndex p) (Plant.segments p)) = seg :: rest).
    { destruct (skipn (Plant.lastSegmentIndex p) (Plant.segments p)) as [|seg tail] eqn:Es.
      - apply (f_equal (@List.length _)) in Es. rewrite length_skipn in Es. simpl in Es. lia.
      - destruct (endIndex - Plant.lastSegmentIndex p)%nat as [|d] eqn:Ed;
          [unfold endIndex in Ed; lia|].
        simpl. eauto. }
    destruct Hbatch as [seg [rest ->]].
    pose proof (fold_setup_nonempty seg rest p) as Hne.
    destruct (fold_setup_frame (seg :: rest) p) as [ph1 [pm1 [s1 E1]]].
    rewrite E1 in *. plant_fields.
    match goal with |- context [if ?b then Plant.withProgress (Plant.addAngleConstraints ?q) _ _ _ _ _ else _] =>
      destruct (addAngleConstraints_frame q) as [ph2 E2]; rewrite E2; destruct b end;
      plant_fields.
    + match goal with |- context [if ?b then _ else _] => destruct b eqn:Hfire end.
      * apply andb_prop in Hfire. destruct Hfire as [_ Hnot].
        apply negb_true_iff in Hnot.
        match goal with |- context [Plant.addFruits ?q] =>
          pose proof (addFruits_attaches q Hne) as Hlen;
          destruct (addFruits_frame q) as [ph3 [fp3 E3]]; rewrite E3 in * end.
        unfold fruitful. plant_fields. split; [discriminate|]. intros _.
        rewrite Hlen, (Hoff Hnot). reflexivity.
      * split; plant_fields; assumption.
    + match goal with |- context [if ?b then _ else _] => destruct b eqn:Hfire end.
      * apply andb_prop in Hfire. destruct Hfire as [_ Hnot].
        apply negb_true_iff in Hnot.
        match goal with |- context [Plant.addFruits ?q] =>
          pose proof (addFruits_attaches q Hne) as Hlen;
          destruct (addFruits_frame q) as [ph3 [fp3 E3]]; rewrite E3 in * end.
        unfold fruitful. plant_fields. split; [discriminate|]. intros _.
        rewrite Hlen, (Hoff Hnot). reflexivity.
      * split; plant_fields; assumption.
Qed.

Lemma fruitful_update : forall p p',
  fruitful p -> Plant.update p = Normal p' -> fruitful p'.
Proof.
  intros p p' Hf. unfold Plant.update. cbv zeta. intros H. injection H as <-.
  match goal with |- context [Plant.withProgress p ?g ?i ?a ?c ?f] =>
    assert (H1 : fruitful (Plant.withProgress p g i a c f)) by exact Hf;
    set (p1 := Plant.withProgress p g i a c f) in * end.
  assert (H2 : forall q, fruitful q ->
            fruitful (Plant.withPhysics q (MatterPhysics.update (Plant.physics q))))
    by (intros q Hq; exact Hq).
  apply H2.
  match goal with |- fruitful (if ?b then _ else _) => destruct b end; [|exact H1].
  match goal with |- fruitful (if ?b then _ else _) => destruct b end; [|exact H1].
  apply fruitful_growPlant, H1.
Qed.

(** X6: fruits are attached once, all together.  In every plant the
    program can hold there is no fruit particle while [fruitsAdded] is
    unset, and once it is set there is exactly one fruit particle for each
    fruit of the plant. *)
Theorem fruits_attached_once : forall p,
  reachable p ->
  (Plant.fruitsAdded p = false -> Plant.fruitParticles p = []) /\
  (Plant.fruitsAdded p = true ->
   List.length (Plant.fruitParticles p) = List.length (Plant.fruits p)).
Proof.
  intros p Hr. change (fruitful p). induction Hr as [px py type g p g' Hnew| | |].
  - destruct (new_fields px py type g)
      as [q [g0 [E [_ [_ [_ [Hoff [Hnone _]]]]]]]].
    rewrite E in Hnew. injection Hnew as <- <-.
    split; [intros _; exact Hnone|]. rewrite Hoff. discriminate.
  - eapply fruitful_update; eauto.
  - apply fruitful_growPlant; auto.
  - exact IHHr.
Qed.

End FruitPass.

(** ** The garden *)

Section GardenProperties.
Context {env : MathEnv} {engine : MatterPhysics.Engine}.

Lemma updatePlants_grown : forall ps,
  Forall grown ps ->
  Forall grown (EnhancedGarden.updatePlants ps) /\
  List.length (EnhancedGarden.updatePlants ps) = List.length ps.
Proof.
  induction ps as [|p ps IH]; intros H; cbn [EnhancedGarden.updatePlants]; [auto|].
  inversion H as [|? ? Hp Hps]; subst. destruct (IH Hps) as [Hg Hl].
  destruct (update_total p) as [p' E]. rewrite E. cbn [List.length]. split.
  - constructor; [eapply grown_update; eauto|exact Hg].
  - rewrite Hl. reflexivity.
Qed.

(** A call of [createPlant] is refused or builds a plant; it never ends
    in the [catch]. *)
Lemma createPlant_cases : forall g x y type currentTime rng,
  (Qltb (currentTime - EnhancedGarden.lastPlantTime g)
        (EnhancedGarden.minTimeBetweenPlants g) = true /\
   EnhancedGarden.createPlant g x y type currentTime rng = EnhancedGarden.Refused g rng) \/
  (Qltb (currentTime - EnhancedGarden.lastPlantTime g)
        (EnhancedGarden.minTimeBetweenPlants g) = false /\
   exists plant rng' type1 rng1,
     Plant.new x y type1 rng1 = Normal (plant, rng') /\
     EnhancedGarden.createPlant g x y type currentTime rng =
       EnhancedGarden.Created plant
         {| EnhancedGarden.plants :=
              (if (EnhancedGarden.maxPlants g <=? List.length (EnhancedGarden.plants g))%nat
               then List.tl (EnhancedGarden.plants g)
               else EnhancedGarden.plants g) ++ [plant];
            EnhancedGarden.maxPlants := EnhancedGarden.maxPlants g;
            EnhancedGarden.lastPlantTime := currentTime;
            EnhancedGarden.minTimeBetweenPlants := EnhancedGarden.minTimeBetweenPlants g;
            EnhancedGarden.plantTypes := EnhancedGarden.plantTypes g;
            EnhancedGarden.currentTheme := EnhancedGarden.currentTheme g |} rng').
Proof.
  intros g x y type currentTime rng. unfold EnhancedGarden.createPlant.
  destruct (Qltb (currentTime - EnhancedGarden.lastPlantTime g)
                 (EnhancedGarden.minTimeBetweenPlants g)); [left; auto|right].
  split; [reflexivity|]. cbv zeta.
  match goal with |- context [let (_, _) := ?e in _] => destruct e as [type1 rng1] end.
  destruct (new_fields x y (LSystem.orElse type1 "random"%string) rng1)
    as [plant [rng' [E _]]].
  rewrite E. exists plant, rng', (LSystem.orElse type1 "random"%string), rng1.
  split; [exact E|].
  destruct (EnhancedGarden.plants g); reflexivity.
Qed.

Lemma kept_new : kept EnhancedGarden.new.
Proof.
  constructor; simpl; auto; lia.
Qed.

Lemma kept_create : forall g x y type currentTime rng,
  kept g ->
  kept (EnhancedGarden.gardenOf (EnhancedGarden.createPlant g x y type currentTime rng)).
Proof.
  intros g x y type currentTime rng K.
  destruct (createPlant_cases g x y type currentTime rng)
    as [[_ ->]|[_ [plant [rng' [type1 [rng1 [Hnew ->]]]]]]]; [exact K|].
  destruct K as [M G T R Gr Th]. simpl. constructor; simpl; auto.
  - rewrite length_app. simpl. rewrite M.
    destruct (18 <=? Datatypes.length (EnhancedGarden.plants g))%nat eqn:E.
    + apply Nat.leb_le in E.
      destruct (EnhancedGarden.plants g); simpl in *; lia.
    + apply Nat.leb_gt in E. lia.
  - apply Forall_app. split; [|constructor; [eapply grown_new; eauto|constructor]].
    destruct (_ <=? _)%nat; [|exact Gr].
    destruct (EnhancedGarden.plants g); [constructor|].
    inversion Gr; assumption.
Qed.

Lemma includes_In : forall l s, EnhancedGarden.includes l s = true <-> In s l.
Proof.
  intros l s. unfold EnhancedGarden.includes. rewrite existsb_exists. split.
  - intros [v [Hin Hv]]. apply String.eqb_eq in Hv. subst. exact Hin.
  - intros Hin. exists s. split; [exact Hin|apply String.eqb_refl].
Qed.

(** [setTheme] accepts a name exactly when it is ['mixed'] or a plant
    type. *)
Lemma setTheme_spec : forall g theme,
  (In theme ("mixed"%string :: EnhancedGarden.plantTypes g) ->
   EnhancedGarden.setTheme g theme = (true, EnhancedGarden.withTheme g theme)) /\
  (~ In theme ("mixed"%string :: EnhancedGarden.plantTypes g) ->
   EnhancedGarden.setTheme g theme = (false, g)).
Proof.
  intros g theme. unfold EnhancedGarden.setTheme.
  destruct (String.eqb_spec theme "mixed") as [->|Hm]; simpl.
  - split; [reflexivity|]. intros H. exfalso. apply H. left. reflexivity.
  - destruct (EnhancedGarden.includes (EnhancedGarden.plantTypes g) theme) eqn:E.
    + split; [reflexivity|]. intros H. exfalso. apply H. right.
      apply includes_In. exact E.
    + split; [|reflexivity]. intros [H|H]; [congruence|].
      apply includes_In in H. congruence.
Qed.

Lemma cycleTheme_next : forall g,
  EnhancedGarden.plantTypes g = LSystem.plantTypes ->
  EnhancedGarden.cycleTheme g =
    (nextTheme (EnhancedGarden.currentTheme g),
     EnhancedGarden.withTheme g (nextTheme (EnhancedGarden.currentTheme g))).
Proof.
  intros g Ht. unfold EnhancedGarden.cycleTheme, nextTheme. cbv zeta. rewrite Ht.
  reflexivity.
Qed.

Lemma nextTheme_valid : forall theme,
  In (nextTheme theme) ("mixed"%string :: LSystem.plantTypes).
Proof.
  intros theme. unfold nextTheme, EnhancedGarden.cycleTheme. cbv zeta.
  cbn [EnhancedGarden.withTheme EnhancedGarden.currentTheme EnhancedGarden.plantTypes
       EnhancedGarden.new snd].
  match goal with |- context [EnhancedGarden.indexOf ?l ?s 0] =>
    destruct (EnhancedGarden.indexOf l s 0) as [i|] end.
  - apply nth_In. apply Nat.mod_upper_bound. simpl. discriminate.
  - simpl. auto.
Qed.

Lemma kept_tended : forall g, tended g -> kept g.
Proof.
  intros g Ht. induction Ht.
  - apply kept_new.
  - apply kept_create; auto.
  - destruct IHHt as [M G T R Gr Th].
    destruct (updatePlants_grown Gr) as [Hg Hl].
    constructor; simpl; auto. rewrite Hl. exact R.
  - destruct IHHt as [M G T R Gr Th]. constructor; simpl; auto. lia.
  - destruct IHHt as [M G T R Gr Th].
    unfold EnhancedGarden.setTheme.
    destruct (String.eqb_spec theme "mixed") as [->|Hm]; simpl.
    + constructor; simpl; auto.
    + destruct (EnhancedGarden.includes (EnhancedGarden.plantTypes g) theme) eqn:E; simpl.
      * apply includes_In in E. rewrite T in E. constructor; auto. right. exact E.
      * constructor; auto.
  - destruct IHHt as [M G T R Gr Th]. rewrite (cycleTheme_next g T). simpl.
    constructor; simpl; auto. apply nextTheme_valid.
Qed.

(** X7: a garden never holds more than 18 plants, whatever sequence of
    plantings, updates, resets and theme changes it has gone through, and
    every plant it holds was built by the constructor and since then only
    updated: none was grown or destroyed from outside. *)
Theorem garden_within_capacity : forall g,
  tended g ->
  EnhancedGarden.maxPlants g = 18%nat /\
  (List.length (EnhancedGarden.plants g) <= EnhancedGarden.maxPlants g)%nat /\
  (forall p, In p (EnhancedGarden.plants g) -> grown p).
Proof.
  intros g Ht. destruct (kept_tended Ht) as [M G T R Gr Th].
  split; [exact M|]. split; [rewrite M; exact R|].
  apply Forall_forall. exact Gr.
Qed.

(** X8: plantings are at least [minTimeBetweenPlants] apart.  A call of
    [createPlant] that comes less than that after the last accepted one
    returns [null] and leaves the garden and the random generator as they
    are; an accepted call stamps its time, so every call less than 600 ms
    after it is refused; and a new garden, whose stamp is 0, refuses every
    call during its first 600 ms. *)
Theorem planting_cooldown : forall g x y type currentTime rng,
  (currentTime - EnhancedGarden.lastPlantTime g < EnhancedGarden.minTimeBetweenPlants g ->
   EnhancedGarden.createPlant g x y type currentTime rng = EnhancedGarden.Refused g rng) /\
  (forall plant g' rng',
     EnhancedGarden.createPlant g x y type currentTime rng =
       EnhancedGarden.Created plant g' rng' ->
     EnhancedGarden.minTimeBetweenPlants g <= currentTime - EnhancedGarden.lastPlantTime g /\
     EnhancedGarden.lastPlantTime g' = currentTime /\
     forall x' y' type' later rng'',
       later - currentTime < EnhancedGarden.minTimeBetweenPlants g ->
       EnhancedGarden.createPlant g' x' y' type' later rng'' =
         EnhancedGarden.Refused g' rng'') /\
  (currentTime < 600 ->
   EnhancedGarden.createPlant EnhancedGarden.new x y type currentTime rng =
     EnhancedGarden.Refused EnhancedGarden.new rng).
Proof.
  intros g x y type currentTime rng.
  assert (Hearly : forall g0 x0 y0 type0 time0 rng0,
            time0 - EnhancedGarden.lastPlantTime g0 < EnhancedGarden.minTimeBetweenPlants g0 ->
            EnhancedGarden.createPlant g0 x0 y0 type0 time0 rng0 =
              EnhancedGarden.Refused g0 rng0).
  { intros g0 x0 y0 type0 time0 rng0 H. unfold EnhancedGarden.createPlant.
    assert (E : Qltb (time0 - EnhancedGarden.lastPlantTime g0)
                     (EnhancedGarden.minTimeBetweenPlants g0) = true).
    { unfold Qltb. destruct (Qle_bool _ _) eqn:E; [|reflexivity].
      apply Qle_bool_iff in E. lra. }
    rewrite E. reflexivity. }
  split; [apply Hearly|]. split.
  - intros plant g' rng' Hc.
    destruct (createPlant_cases g x y type currentTime rng)
      as [[_ E]|[Hlate [plant0 [rng0 [type1 [rng1 [_ E]]]]]]];
      rewrite E in Hc; [discriminate|].
    injection Hc as <- <- <-. split.
    + unfold Qltb in Hlate. apply negb_false_iff, Qle_bool_iff in Hlate. exact Hlate.
    + split; [reflexivity|].
      intros x' y' type' later rng'' H. apply Hearly. simpl. exact H.
  - intros H. apply Hearly. simpl. lra.
Qed.

(** X9: the garden is a queue.  An accepted planting appends the new plant
    at the end; when the garden is full it first drops the plant at the
    front, the oldest, so that the number of plants stays at the capacity;
    below the capacity every plant is kept. *)
Theorem oldest_plant_makes_room : forall g x y type currentTime rng plant g' rng',
  EnhancedGarden.createPlant g x y type currentTime rng =
    EnhancedGarden.Created plant g' rng' ->
  ((List.length (EnhancedGarden.plants g) < EnhancedGarden.maxPlants g)%nat ->
   EnhancedGarden.plants g' = EnhancedGarden.plants g ++ [plant]) /\
  ((EnhancedGarden.maxPlants g <= List.length (EnhancedGarden.plants g))%nat ->
   EnhancedGarden.plants g' = List.tl (EnhancedGarden.plants g) ++ [plant] /\
   ((0 < List.length (EnhancedGarden.plants g))%nat ->
    List.length (EnhancedGarden.plants g') = List.length (EnhancedGarden.plants g))) /\
  EnhancedGarden.currentTheme g' = EnhancedGarden.currentTheme g /\
  EnhancedGarden.maxPlants g' = EnhancedGarden.maxPlants g.
Proof.
  intros g x y type currentTime rng plant g' rng' Hc.
  destruct (createPlant_cases g x y type currentTime rng)
    as [[_ E]|[_ [plant0 [rng0 [type1 [rng1 [_ E]]]]]]];
    rewrite E in Hc; [discriminate|].
  injection Hc as <- <- <-. simpl. split; [|split].
  - intros Hroom. apply Nat.leb_gt in Hroom. rewrite Hroom. reflexivity.
  - intros Hfull. apply Nat.leb_le in Hfull. rewrite Hfull. split; [reflexivity|].
    intros Hpos. rewrite length_app. simpl.
    destruct (EnhancedGarden.plants g); simpl in *; lia.
  - split; reflexivity.
Qed.

Lemma cycleTimes_theme : forall n g,
  EnhancedGarden.plantTypes g = LSystem.plantTypes ->
  EnhancedGarden.currentTheme (cycleTimes n g) =
    Nat.iter n nextTheme (EnhancedGarden.currentTheme g) /\
  EnhancedGarden.plants (cycleTimes n g) = EnhancedGarden.plants g.
Proof.
  induction n as [|n IH]; intros g Ht; [split; reflexivity|].
  cbn [cycleTimes]. rewrite (cycleTheme_next g Ht). cbn [snd].
  destruct (IH (EnhancedGarden.withTheme g (nextTheme (EnhancedGarden.currentTheme g))) Ht)
    as [-> ->].
  split; [|reflexivity]. cbn [EnhancedGarden.withTheme EnhancedGarden.currentTheme].
  rewrite <- Nat.iter_succ_r. reflexivity.
Qed.

(** X10: the theme of a garden is always ['mixed'] or one of the ten plant
    types.  [setTheme] accepts exactly these eleven names and answers
    [false], changing nothing, for any other; the theme button walks
    through all eleven in a cycle, so that eleven presses lead back to the
    theme they started from and no smaller number of presses does; and it
    touches no plant. *)
Theorem theme_is_always_valid : forall g,
  tended g ->
  In (EnhancedGarden.currentTheme g) ("mixed"%string :: EnhancedGarden.plantTypes g) /\
  (forall theme,
     (In theme ("mixed"%string :: EnhancedGarden.plantTypes g) ->
      EnhancedGarden.setTheme g theme = (true, EnhancedGarden.withTheme g theme)) /\
     (~ In theme ("mixed"%string :: EnhancedGarden.plantTypes g) ->
      EnhancedGarden.setTheme g theme = (false, g))) /\
  EnhancedGarden.currentTheme (cycleTimes 11 g) = EnhancedGarden.currentTheme g /\
  (forall n, (0 < n < 11)%nat ->
     EnhancedGarden.currentTheme (cycleTimes n g) <> EnhancedGarden.currentTheme g) /\
  (forall n, EnhancedGarden.plants (cycleTimes n g) = EnhancedGarden.plants g).
Proof.
  intros g Ht. destruct (kept_tended Ht) as [M G T R Gr Th].
  split; [rewrite T; exact Th|]. split; [intros theme; apply setTheme_spec|].
  split; [|split].
  - destruct (cycleTimes_theme 11 g T) as [-> _].
    simpl in Th.
    repeat (destruct Th as [<-|Th]; [vm_compute; reflexivity|]). destruct Th.
  - intros n Hn. destruct (cycleTimes_theme n g T) as [-> _].
    assert (Hcases : In n [1; 2; 3; 4; 5; 6; 7; 8; 9; 10]%nat) by (simpl; lia).
    simpl in Th.
    repeat (destruct Th as [<-|Th];
            [simpl in Hcases;
             repeat (destruct Hcases as [<-|Hcases]; [vm_compute; discriminate|]);
             destruct Hcases|]).
    destruct Th.
  - intros n. apply (cycleTimes_theme n g T).
Qed.

End GardenProperties.

(** ** The grammar and the turtle, once more *)

(** Case analysis on the symbol a step interprets. *)
Ltac by_symbol char :=
  repeat match goal with
         | |- context [Ascii.eqb char ?c] =>
             let E := fresh "E" in
             destruct (Ascii.eqb char c) eqn:E;
             [apply Ascii.eqb_eq in E; subst char; cbn|cbn [orb]]
         end.

Section GrammarDetails.
Context {env : MathEnv}.

Lemma Qltb_true : forall a b, Qltb a b = true <-> a < b.
Proof.
  intros a b. unfold Qltb. rewrite negb_true_iff. split.
  - intros E. destruct (Qlt_le_dec a b) as [H|H]; [exact H|].
    apply Qle_bool_iff in H. congruence.
  - intros H. destruct (Qle_bool b a) eqn:E; [|reflexivity].
    apply Qle_bool_iff in E. lra.
Qed.

Lemma Qltb_false : forall a b, Qltb a b = false <-> b <= a.
Proof.
  intros a b. unfold Qltb. rewrite negb_false_iff. apply Qle_bool_iff.
Qed.

Lemma string_length_append : forall s1 s2,
  String.length (s1 ++ s2) = (String.length s1 + String.length s2)%nat.
Proof.
  induction s1 as [|a s1 IH]; intros s2; simpl; auto.
Qed.

(** A plain rule table rewrites a symbol into a string that is not empty,
    without a draw. *)
Lemma plain_symbol : forall rules c,
  plainRules rules ->
  exists piece,
    (forall g, LSystem.rewriteSymbol rules c g = (piece, g)) /\
    (1 <= String.length piece)%nat.
Proof.
  intros rules c Hplain. specialize (Hplain c). unfold LSystem.rewriteSymbol.
  destruct (rules c) as [[s|choices|f]|]; try contradiction; simpl.
  - destruct s as [|a s]; simpl.
    + exists (String c EmptyString). split; [reflexivity|simpl; lia].
    + exists (String a s). split; [reflexivity|simpl; lia].
  - exists (String c EmptyString). split; [reflexivity|simpl; lia].
Qed.

Lemma plain_generation : forall rules,
  plainRules rules ->
  forall result nextGen,
  exists out,
    (forall g, LSystem.rewriteAll rules result nextGen g = (out, g)) /\
    (String.length nextGen + String.length result <= String.length out)%nat.
Proof.
  intros rules Hplain. induction result as [|c rest IH]; intros nextGen.
  - exists nextGen. split; [reflexivity|simpl; lia].
  - destruct (plain_symbol c Hplain) as [piece [Hpiece Hlen]].
    destruct (IH (nextGen ++ piece)%string) as [out [Hout Hl]].
    exists out. split.
    + intros g. simpl. rewrite Hpiece. apply Hout.
    + rewrite string_length_append in Hl. simpl. lia.
Qed.

Lemma plain_iterate : forall rules,
  plainRules rules ->
  forall n result,
  exists out,
    (forall g, LSystem.iterate rules n result g = (out, g)) /\
    ((String.length result <= LSystem.cap)%nat ->
     (String.length result <= String.length out)%nat).
Proof.
  intros rules Hplain. induction n as [|n IH]; intros result.
  - exists result. split; [reflexivity|auto].
  - destruct (plain_generation Hplain result EmptyString) as [nextGen [Hgen Hl]].
    simpl in Hl.
    destruct (LSystem.cap <? String.length nextGen)%nat eqn:Hc.
    + exists (substring 0 LSystem.cap nextGen). split.
      * intros g. simpl. rewrite Hgen, Hc. reflexivity.
      * intros Hres. rewrite length_substring_0. apply Nat.ltb_lt in Hc. lia.
    + destruct (IH nextGen) as [out [Hout Hlen]]. exists out. split.
      * intros g. simpl. rewrite Hgen, Hc. apply Hout.
      * intros Hres. apply Nat.ltb_ge in Hc. specialize (Hlen Hc). lia.
Qed.

(** X11: a grammar of plain replacement strings is deterministic and
    never shrinks its string.  [generate] then consumes no random draw and
    produces the same string whatever the generator holds; and because an
    empty replacement string counts as no rule, no symbol is ever erased:
    the production is at least as long as an axiom that fits under the
    cap. *)
Theorem plain_grammar_is_deterministic : forall rules n result g,
  plainRules rules ->
  snd (LSystem.iterate rules n result g) = g /\
  (forall g0, fst (LSystem.iterate rules n result g0) =
              fst (LSystem.iterate rules n result g)) /\
  (forall c, rules c = Some (LSystem.RString EmptyString) ->
     forall g0, LSystem.rewriteSymbol rules c g0 = (String c EmptyString, g0)) /\
  ((String.length result <= LSystem.cap)%nat ->
   (String.length result <= String.length (fst (LSystem.iterate rules n result g)))%nat).
Proof.
  intros rules n result g Hplain.
  destruct (plain_iterate Hplain n result) as [out [Hout Hlen]].
  split; [rewrite Hout; reflexivity|]. split; [intros g0; rewrite !Hout; reflexivity|].
  split.
  - intros c Hc g0. unfold LSystem.rewriteSymbol. rewrite Hc. reflexivity.
  - rewrite Hout. exact Hlen.
Qed.

Lemma pickWeighted_member : forall choices rand cumulative rule,
  LSystem.pickWeighted choices rand cumulative = Some rule ->
  exists probability, In (rule, probability) choices.
Proof.
  induction choices as [|[rule0 probability] rest IH]; intros rand cumulative rule;
    cbn [LSystem.pickWeighted]; [discriminate|].
  destruct (Qltb rand (cumulative + probability)).
  - intros H. injection H as <-. exists probability. left. reflexivity.
  - intros H. destruct (IH _ _ _ H) as [p Hin]. exists p. right. exact Hin.
Qed.

(** X12: a weighted rule draws once and yields one of its replacements or
    the symbol itself.  A draw below the first weight yields the first
    replacement; a rule with one replacement leaves the symbol as it is when
    the draw is not below its weight, and so does a rule with none.  (None
    of this depends on how the sums of the later weights are rounded.) *)
Theorem weighted_rule_choice : forall rules c choices g,
  rules c = Some (LSystem.RWeighted choices) ->
  snd (LSystem.rewriteSymbol rules c g) = snd (random g) /\
  (fst (LSystem.rewriteSymbol rules c g) = String c EmptyString \/
   exists rule probability,
     In (rule, probability) choices /\
     fst (LSystem.rewriteSymbol rules c g) = rule) /\
  (forall rule probability rest,
     choices = (rule, probability) :: rest ->
     fst (random g) < probability ->
     fst (LSystem.rewriteSymbol rules c g) = rule) /\
  (forall rule probability,
     choices = [(rule, probability)] ->
     probability <= fst (random g) ->
     fst (LSystem.rewriteSymbol rules c g) = String c EmptyString) /\
  (choices = [] -> fst (LSystem.rewriteSymbol rules c g) = String c EmptyString).
Proof.
  intros rules c choices g Hc. unfold LSystem.rewriteSymbol. rewrite Hc.
  cbn [LSystem.truthy random fst snd].
  split; [|split; [|split; [|split]]].
  - destruct (LSystem.pickWeighted choices (draws g (cursor g)) 0); reflexivity.
  - destruct (LSystem.pickWeighted choices (draws g (cursor g)) 0) as [rule|] eqn:E.
    + right. destruct (pickWeighted_member _ _ _ E) as [p Hin].
      exists rule, p. split; [exact Hin|reflexivity].
    + left. reflexivity.
  - intros rule probability rest -> Hlt. cbn [LSystem.pickWeighted].
    assert (Qltb (draws g (cursor g)) (0 + probability) = true) as ->
      by (apply Qltb_true; lra).
    reflexivity.
  - intros rule probability -> Hge. cbn [LSystem.pickWeighted].
    assert (Qltb (draws g (cursor g)) (0 + probability) = false) as ->
      by (apply Qltb_false; lra).
    reflexivity.
  - intros ->. reflexivity.
Qed.

End GrammarDetails.

Section TurtleDetails.
Context {env : MathEnv}.

(** What one step adds to the turtle's lists. *)
Lemma step_counts : forall l s char s',
  LSystem.step l s char = Normal s' ->
  (exists new,
     LSystem.drawn s' = LSystem.drawn s ++ new /\
     List.length new =
       ((if Ascii.eqb char "F" then 1 else 0) + (if Ascii.eqb char "G" then 1 else 0))%nat /\
     Forall (fun seg => LSystem.depth seg = List.length (LSystem.stack s)) new) /\
  (List.length (LSystem.anchors s') <=
   List.length (LSystem.anchors s) + (if Ascii.eqb char "*" then 1 else 0))%nat /\
  (List.length (LSystem.stack s') <=
   List.length (LSystem.stack s) + (if Ascii.eqb char "[" then 1 else 0))%nat.
Proof.
  intros l s char s'. unfold LSystem.step. rewrite !isChar_eqb.
  by_symbol char;
  repeat match goal with
         | |- context [let (_, _) := ?e in _] => destruct e
         | |- context [if ?b then _ else _] => destruct b
         | |- context [match LSystem.stack s with _ => _ end] =>
             destruct (LSystem.stack s) eqn:?
         end;
  intros H; inversion H; subst; clear H; cbn;
  try match goal with Hst : LSystem.stack _ = _ |- _ => rewrite Hst end;
  try rewrite length_app; cbn;
  (split; [|split; lia]);
  first [ exists []; rewrite app_nil_r; repeat split; constructor
        | eexists; split; [reflexivity|]; split; [reflexivity|];
          constructor; [reflexivity|constructor] ].
Qed.

Lemma walk_counts : forall l production s s',
  LSystem.walk l s production = Normal s' ->
  List.length (LSystem.drawn s') =
    (List.length (LSystem.drawn s) + occurs "F" production + occurs "G" production)%nat /\
  (List.length (LSystem.anchors s') <=
   List.length (LSystem.anchors s) + occurs "*" production)%nat /\
  (List.length (LSystem.stack s') <=
   List.length (LSystem.stack s) + occurs "[" production)%nat /\
  (forall bound,
     Forall (fun seg => (LSystem.depth seg <= bound)%nat) (LSystem.drawn s) ->
     (List.length (LSystem.stack s) + occurs "[" production <= bound)%nat ->
     Forall (fun seg => (LSystem.depth seg <= bound)%nat) (LSystem.drawn s')).
Proof.
  intros l production; induction production as [|char rest IH]; intros s s'.
  - simpl. intros H; inversion H; subst. repeat split; auto; lia.
  - cbn [LSystem.walk occurs].
    destruct (LSystem.step l s char) as [s1|e] eqn:Hs; cbn [bind]; [|discriminate].
    intros Hw. destruct (step_counts l s char Hs) as [[new [Hd [Hn Hdepth]]] [Ha Hst]].
    destruct (IH s1 s' Hw) as [Id [Ia [Ist Ibound]]].
    rewrite Hd, length_app, Hn in Id.
    repeat split; try lia.
    intros bound Hold Hb. apply Ibound; [|lia].
    rewrite Hd. apply Forall_app. split; [exact Hold|].
    eapply Forall_impl; [|exact Hdepth]. intros seg Hseg. simpl in Hseg. lia.
Qed.

(** X13: the turtle draws one segment for each [F] and each [G] of the
    production and nothing else; it collects at most one fruit for each
    [*]; and no segment lies deeper than the production has opening
    brackets.  The production itself is left as it is. *)
Theorem turtle_counts_symbols : forall l g l' g',
  LSystem.process l g = Normal (l', g') ->
  List.length (LSystem.segments l') =
    (occurs "F" (LSystem.production l) + occurs "G" (LSystem.production l))%nat /\
  (List.length (LSystem.fruits l') <= occurs "*" (LSystem.production l))%nat /\
  Forall (fun seg => (LSystem.depth seg <= occurs "[" (LSystem.production l))%nat)
         (LSystem.segments l') /\
  LSystem.production l' = LSystem.production l.
Proof.
  intros l g l' g'. unfold LSystem.process.
  destruct (LSystem.walk l (LSystem.start l g) (LSystem.production l)) as [s|e] eqn:Hw;
    cbn [bind]; [|discriminate].
  intros H; inversion H; subst; clear H. cbn.
  destruct (walk_counts l _ _ Hw) as [Hd [Ha [_ Hb]]]. cbn in Hd, Ha.
  split; [exact Hd|]. split; [exact Ha|]. split; [|reflexivity].
  apply Hb; [constructor|cbn; lia].
Qed.

(** A walk keeps the segments drawn before it, in their order, and adds
    one for each [F] and [G]. *)
Lemma walk_extends : forall l production s s',
  LSystem.walk l s production = Normal s' ->
  exists added,
    LSystem.drawn s' = LSystem.drawn s ++ added /\
    List.length added = (occurs "F" production + occurs "G" production)%nat.
Proof.
  intros l production; induction production as [|char rest IH]; intros s s'.
  - cbn [LSystem.walk]. intros H; inversion H; subst.
    exists []. rewrite app_nil_r. split; reflexivity.
  - cbn [LSystem.walk occurs].
    destruct (LSystem.step l s char) as [s1|e] eqn:Hs; cbn [bind]; [|discriminate].
    intros Hw. destruct (step_counts l s char Hs) as [[new [Hd [Hn _]]] _].
    destruct (IH s1 s' Hw) as [added [Ha Hl]].
    exists (new ++ added). rewrite Ha, Hd, app_assoc. split; [reflexivity|].
    rewrite length_app, Hn, Hl. rewrite (Ascii.eqb_sym char "F"), (Ascii.eqb_sym char "G").
    lia.
Qed.

(** A string whose brackets match leaves the stack below it alone. *)
Lemma walk_balanced : forall l w opened s s' top base,
  balancedFrom w opened = true ->
  LSystem.stack s = top ++ base -> List.length top = opened ->
  LSystem.walk l s w = Normal s' ->
  LSystem.stack s' = base.
Proof.
  intros l w; induction w as [|char rest IH]; intros opened s s' top base Hbal Hst Hlen.
  - simpl in Hbal. apply Nat.eqb_eq in Hbal. subst opened.
    destruct top; [|discriminate]. simpl. intros H; inversion H; subst. exact Hst.
  - cbn [LSystem.walk].
    destruct (LSystem.step l s char) as [s1|e] eqn:Hs; cbn [bind]; [|discriminate].
    intros Hw. cbn [balancedFrom] in Hbal. revert Hs Hbal.
    unfold LSystem.step. rewrite !isChar_eqb.
    destruct (Ascii.eqb char "[") eqn:Eopen.
    + apply Ascii.eqb_eq in Eopen. subst char. cbn.
      intros H Hbal; inversion H; subst; clear H.
      refine (IH (S (List.length top)) _ s' (_ :: top) base Hbal _ _ Hw);
        [cbn; rewrite Hst; reflexivity|reflexivity].
    + destruct (Ascii.eqb char "]") eqn:Eclose.
      * apply Ascii.eqb_eq in Eclose. subst char. cbn.
        destruct opened as [|k]; [intros _ H; discriminate|].
        destruct top as [|state top]; [discriminate|].
        rewrite Hst. cbn. intros H Hbal; inversion H; subst; clear H.
        simpl in Hlen. injection Hlen as Hlen.
        refine (IH k _ s' top base Hbal _ Hlen Hw). reflexivity.
      * by_symbol char;
        repeat match goal with
               | |- context [let (_, _) := ?e in _] => destruct e
               | |- context [if ?b then _ else _] => destruct b
               end;
        intros H Hbal; inversion H; subst; clear H;
        (refine (IH _ _ s' top base Hbal _ _ Hw); [exact Hst|reflexivity]).
Qed.

(** X14: a bracketed branch is a round trip for the turtle.  After
    ['['], any string whose brackets match, and [']'], the position, the
    heading, the thickness, the colour and the stack are what they were
    before the ['[']; the segments drawn before are still there, in their
    order, followed by one new segment for each [F] and [G] of the
    branch. *)
Theorem bracket_restores_pose : forall l w s s',
  balancedFrom w 0 = true ->
  LSystem.walk l s (String "[" (w ++ "]")) = Normal s' ->
  LSystem.x s' = LSystem.x s /\
  LSystem.y s' = LSystem.y s /\
  LSystem.heading s' = LSystem.heading s /\
  LSystem.thick s' = LSystem.thick s /\
  LSystem.pen s' = LSystem.pen s /\
  LSystem.stack s' = LSystem.stack s /\
  exists added,
    LSystem.drawn s' = LSystem.drawn s ++ added /\
    List.length added = (occurs "F" w + occurs "G" w)%nat.
Proof.
  intros l w s s' Hbal Hw.
  assert (Hsplit : forall a b s0,
            LSystem.walk l s0 (a ++ b) =
            bind (LSystem.walk l s0 a) (fun s1 => LSystem.walk l s1 b)).
  { induction a as [|c a IH]; intros b s0; cbn [append LSystem.walk bind]; [reflexivity|].
    destruct (LSystem.step l s0 c); cbn [bind]; [apply IH|reflexivity]. }
  destruct (walk_extends l _ s Hw) as [added [Hadded Hcount]].
  assert (Hocc : forall c, Ascii.eqb c "[" = false -> Ascii.eqb c "]" = false ->
            occurs c (String "[" (w ++ "]")) = occurs c w).
  { intros c Ho Hc. cbn [occurs]. rewrite Ascii.eqb_sym, Ho. cbn [Nat.add].
    clear -Hc. induction w as [|a w IH]; cbn [append occurs].
    - rewrite Ascii.eqb_sym, Hc. reflexivity.
    - rewrite IH. reflexivity. }
  rewrite !Hocc in Hcount by reflexivity.
  revert Hw. cbn [LSystem.walk].
  assert (Hopen : LSystem.step l s "[" =
            Normal {| LSystem.x := LSystem.x s; LSystem.y := LSystem.y s;
                      LSystem.heading := LSystem.heading s;
                      LSystem.thick := LSystem.thick s * (75 # 100);
                      LSystem.pen := LSystem.pen s;
                      LSystem.stack :=
                        {| LSystem.savedX := LSystem.x s; LSystem.savedY := LSystem.y s;
                           LSystem.savedAngle := LSystem.heading s;
                           LSystem.savedThickness := LSystem.thick s;
                           LSystem.savedColor := LSystem.pen s |} :: LSystem.stack s;
                      LSystem.drawn := LSystem.drawn s; LSystem.anchors := LSystem.anchors s;
                      LSystem.thisAngle := LSystem.thisAngle s; LSystem.rng := LSystem.rng s |})
    by reflexivity.
  rewrite Hopen. cbn [bind]. rewrite Hsplit.
  match goal with |- context [LSystem.walk l ?s1 w] =>
    destruct (LSystem.walk l s1 w) as [s2|e] eqn:Hbody end; cbn [bind]; [|discriminate].
  pose proof (@walk_balanced l w 0%nat _ s2 [] _ Hbal eq_refl eq_refl Hbody) as Hstack.
  cbn [LSystem.walk]. unfold LSystem.step at 1. rewrite !isChar_eqb. cbn.
  rewrite Hstack. cbn. intros H; inversion H; subst; clear H. cbn.
  cbn [LSystem.drawn] in Hadded.
  repeat split; try reflexivity. exists added. split; [exact Hadded | exact Hcount].
Qed.

(** A step reads draws and never alters them; what it does on [*] at the
    two ends of the fruit probability. *)
Lemma step_fruit : forall l s char s',
  (forall i, 0 <= draws (LSystem.rng s) i < 1) ->
  LSystem.step l s char = Normal s' ->
  draws (LSystem.rng s') = draws (LSystem.rng s) /\
  (LSystem.fruitProbability l <= 0 ->
   List.length (LSystem.anchors s') = List.length (LSystem.anchors s)) /\
  (1 <= LSystem.fruitProbability l ->
   List.length (LSystem.anchors s') =
   (List.length (LSystem.anchors s) + (if Ascii.eqb char "*" then 1 else 0))%nat).
Proof.
  intros l s char s' Hdraws. unfold LSystem.step. rewrite !isChar_eqb.
  pose proof (Hdraws (cursor (LSystem.rng s))) as Hr.
  by_symbol char; unfold random2, random; cbn;
  repeat match goal with
         | |- context [if ?b then _ else _] => destruct b eqn:?
         | |- context [match LSystem.stack s with _ => _ end] => destruct (LSystem.stack s)
         end;
  intros H; inversion H; subst; clear H; cbn;
  try rewrite length_app; cbn;
  repeat split; intros; try lia;
  repeat match goal with
         | E : Qltb _ _ = true |- _ => apply Qltb_true in E
         | E : Qltb _ _ = false |- _ => apply Qltb_false in E
         end;
  lra.
Qed.

Lemma walk_fruit : forall l production s s',
  (forall i, 0 <= draws (LSystem.rng s) i < 1) ->
  LSystem.walk l s production = Normal s' ->
  draws (LSystem.rng s') = draws (LSystem.rng s) /\
  (LSystem.fruitProbability l <= 0 ->
   List.length (LSystem.anchors s') = List.length (LSystem.anchors s)) /\
  (1 <= LSystem.fruitProbability l ->
   List.length (LSystem.anchors s') =
   (List.length (LSystem.anchors s) + occurs "*" production)%nat).
Proof.
  intros l production; induction production as [|char rest IH]; intros s s' Hdraws.
  - simpl. intros H; inversion H; subst. repeat split; intros; lia.
  - cbn [LSystem.walk occurs].
    destruct (LSystem.step l s char) as [s1|e] eqn:Hs; cbn [bind]; [|discriminate].
    intros Hw. destruct (step_fruit l s char Hdraws Hs) as [Hd [Hzero Hone]].
    assert (Hdraws1 : forall i, 0 <= draws (LSystem.rng s1) i < 1)
      by (rewrite Hd; exact Hdraws).
    destruct (IH s1 s' Hdraws1 Hw) as [Id [Izero Ione]].
    split; [congruence|]. split.
    + intros H. rewrite Izero, Hzero by exact H. reflexivity.
    + intros H. rewrite Ione, Hone by exact H. lia.
Qed.

(** X15: the two ends of the fruit probability.  With draws in [0, 1),
    as [random()] gives them, a grammar whose fruit probability is 0, the
    default, gets no fruit at all, and one whose fruit probability is 1 or
    more gets exactly one fruit for each [*] of its production. *)
Theorem fruit_probability_extremes : forall l g l' g',
  (forall i, 0 <= draws g i < 1) ->
  LSystem.process l g = Normal (l', g') ->
  (LSystem.fruitProbability l <= 0 -> LSystem.fruits l' = []) /\
  (1 <= LSystem.fruitProbability l ->
   List.length (LSystem.fruits l') = occurs "*" (LSystem.production l)) /\
  draws g' = draws g.
Proof.
  intros l g l' g' Hdraws. unfold LSystem.process.
  destruct (LSystem.walk l (LSystem.start l g) (LSystem.production l)) as [s|e] eqn:Hw;
    cbn [bind]; [|discriminate].
  intros H; inversion H; subst; clear H. cbn.
  destruct (walk_fruit l _ (LSystem.start l g) Hdraws Hw) as [Hd [Hzero Hone]].
  cbn in Hd, Hzero, Hone. split; [|split].
  - intros H. specialize (Hzero H). destruct (LSystem.anchors s); [reflexivity|discriminate].
  - exact Hone.
  - exact Hd.
Qed.

End TurtleDetails.

(** ** Hands *)

Section Windows.

Lemma lastn_all : forall A n (l : list A), (List.length l <= n)%nat -> lastn n l = l.
Proof.
  intros A n l H. unfold lastn. replace (Datatypes.length l - n)%nat with 0%nat by lia.
  reflexivity.
Qed.

Lemma lastn_length : forall A n (l : list A), (List.length (lastn n l) <= n)%nat.
Proof.
  intros A n l. unfold lastn. rewrite length_skipn. lia.
Qed.

Lemma lastn_app : forall A n (a b : list A),
  lastn n (lastn n a ++ b) = lastn n (a ++ b).
Proof.
  intros A n a b.
  destruct (Nat.le_gt_cases (List.length a) n) as [Hle|Hgt].
  - rewrite (lastn_all a Hle). reflexivity.
  - unfold lastn. rewrite !length_app, length_skipn, !skipn_app, skipn_skipn, length_skipn.
    f_equal; f_equal; lia.
Qed.

End Windows.

Section Gestures.
Context {env : MathEnv}.

Lemma detect_history : forall g hand,
  HandGestures.history (HandGestures.detectPinch (HandGestures.detectPointing g hand) hand) =
    HandGestures.history g /\
  HandGestures.historyLength
    (HandGestures.detectPinch (HandGestures.detectPointing g hand) hand) =
    HandGestures.historyLength g.
Proof.
  intros g hand. unfold HandGestures.detectPinch, HandGestures.detectPointing.
  destruct (Hand.part hand "thumb_tip"), (Hand.part hand "index_finger_tip");
    split; reflexivity.
Qed.

(** One call of [update] pushes the wrist, if there is one, and keeps the
    last [historyLength] samples. *)
Lemma update_history : forall g hand now,
  (List.length (HandGestures.history g) <= HandGestures.historyLength g)%nat ->
  HandGestures.history (snd (HandGestures.update g hand now)) =
    lastn (HandGestures.historyLength g)
      (HandGestures.history g ++ wristSamples [(hand, now)]) /\
  HandGestures.historyLength (snd (HandGestures.update g hand now)) =
    HandGestures.historyLength g.
Proof.
  intros g hand now Hlen. unfold HandGestures.update, wristSamples.
  cbn [flat_map fst snd]. rewrite (app_nil_r (match hand with Some _ => _ | None => _ end)).
  destruct hand as [hand|]; cbn [snd].
  - destruct (detect_history (HandGestures.updateHistory g hand now) hand) as [-> ->].
    unfold HandGestures.updateHistory.
    destruct (Hand.keypoints hand) as [[|wrist rest]|];
      try (rewrite app_nil_r, lastn_all by exact Hlen; split; reflexivity).
    cbn [HandGestures.withHistory HandGestures.history HandGestures.historyLength].
    split; [|reflexivity].
    set (pushed := HandGestures.history g ++
           [{| HandGestures.sampleX := Hand.x wrist; HandGestures.sampleY := Hand.y wrist;
               HandGestures.timestamp := now |}]).
    assert (Hp : List.length pushed = S (List.length (HandGestures.history g)))
      by (unfold pushed; rewrite length_app; simpl; lia).
    destruct (HandGestures.historyLength g <? Datatypes.length pushed)%nat eqn:E.
    + apply Nat.ltb_lt in E. unfold lastn.
      replace (Datatypes.length pushed - HandGestures.historyLength g)%nat with 1%nat by lia.
      destruct pushed; reflexivity.
    + apply Nat.ltb_ge in E. rewrite lastn_all by exact E. reflexivity.
  - rewrite app_nil_r, lastn_all by exact Hlen. split; reflexivity.
Qed.

Lemma watch_history : forall frames g,
  (List.length (HandGestures.history g) <= HandGestures.historyLength g)%nat ->
  HandGestures.history (watch g frames) =
    lastn (HandGestures.historyLength g) (HandGestures.history g ++ wristSamples frames).
Proof.
  induction frames as [|[hand now] frames IH]; intros g Hlen.
  - simpl. rewrite app_nil_r, lastn_all by exact Hlen. reflexivity.
  - cbn [watch fold_left fst snd].
    destruct (update_history g hand now Hlen) as [Hh Hl].
    change (fold_left
              (fun g0 frame => snd (HandGestures.update g0 (fst frame) (snd frame)))
              frames (snd (HandGestures.update g hand now)))
      with (watch (snd (HandGestures.update g hand now)) frames).
    rewrite IH by (rewrite Hh, Hl; apply lastn_length).
    rewrite Hh, Hl, lastn_app, <- app_assoc.
    replace (wristSamples ((hand, now) :: frames))
      with (wristSamples [(hand, now)] ++ wristSamples frames); [reflexivity|].
    unfold wristSamples. cbn [flat_map]. rewrite app_nil_r. reflexivity.
Qed.

(** X16: the history of the gesture detector is a sliding window.  After
    any run of frames it holds the wrist positions of the last ten frames
    that had a wrist, oldest first, each with the time of its frame, and
    so never more than ten samples. *)
Theorem history_keeps_last_ten : forall frames,
  HandGestures.history (watch HandGestures.new frames) = lastn 10 (wristSamples frames) /\
  (List.length (HandGestures.history (watch HandGestures.new frames)) <= 10)%nat.
Proof.
  intros frames.
  assert (H : HandGestures.history (watch HandGestures.new frames) =
              lastn 10 (wristSamples frames)).
  { rewrite watch_history by (simpl; lia). reflexivity. }
  split; [exact H|]. rewrite H. apply lastn_length.
Qed.

Lemma update_grab_wave : forall g hand now,
  HandGestures.grab (HandGestures.gestures g) = false ->
  HandGestures.wave (HandGestures.gestures g) = false ->
  HandGestures.grab (HandGestures.gestures (snd (HandGestures.update g hand now))) = false /\
  HandGestures.wave (HandGestures.gestures (snd (HandGestures.update g hand now))) = false.
Proof.
  intros g hand now Hg Hw. unfold HandGestures.update.
  destruct hand as [hand|]; cbn [snd]; [|split; reflexivity].
  unfold HandGestures.detectPinch, HandGestures.detectPointing, HandGestures.updateHistory.
  destruct (Hand.part hand "thumb_tip"), (Hand.part hand "index_finger_tip"),
    (Hand.keypoints hand) as [[|wrist rest]|]; cbn; auto.
Qed.

(** X17: what the gesture flags can be.  [grab] and [wave] are never
    reported; a frame without a hand clears all four flags; and a hand
    that lacks its thumb tip or its index finger tip leaves [pointing] and
    [pinch] as the frame before left them, instead of clearing them. *)
Theorem gesture_flags : forall frames g hand now,
  (HandGestures.grab (HandGestures.gestures (watch HandGestures.new frames)) = false /\
   HandGestures.wave (HandGestures.gestures (watch HandGestures.new frames)) = false) /\
  fst (HandGestures.update g None now) =
    {| HandGestures.pointing := false; HandGestures.pinch := false;
       HandGestures.grab := false; HandGestures.wave := false |} /\
  (Hand.part hand "thumb_tip" = None \/ Hand.part hand "index_finger_tip" = None ->
   fst (HandGestures.update g (Some hand) now) = HandGestures.gestures g).
Proof.
  intros frames g hand now. split; [|split].
  - assert (H : forall fs g0,
              HandGestures.grab (HandGestures.gestures g0) = false ->
              HandGestures.wave (HandGestures.gestures g0) = false ->
              HandGestures.grab (HandGestures.gestures (watch g0 fs)) = false /\
              HandGestures.wave (HandGestures.gestures (watch g0 fs)) = false).
    { induction fs as [|[h t] fs IH]; intros g0 Hg Hw; [auto|].
      cbn [watch fold_left fst snd].
      destruct (update_grab_wave g0 h t Hg Hw) as [Hg1 Hw1].
      exact (IH _ Hg1 Hw1). }
    apply H; reflexivity.
  - reflexivity.
  - intros Hmissing. unfold HandGestures.update. cbn [fst].
    unfold HandGestures.detectPinch, HandGestures.detectPointing, HandGestures.updateHistory.
    destruct Hmissing as [Hm|Hm]; rewrite Hm;
      destruct (Hand.part hand "thumb_tip"), (Hand.keypoints hand) as [[|wrist rest]|];
      reflexivity.
Qed.

End Gestures.

(** ** Attraction *)

Section Attractors.
Context {env : MathEnv}.

Lemma forceOn_some : forall h attractor body fx fy,
  HandAttractors.forceOn h attractor body = Some (fx, fy) ->
  MatterPhysics.isStatic body = false /\
  dist (fst (MatterPhysics.position body)) (snd (MatterPhysics.position body))
       (fst (HandAttractors.position attractor)) (snd (HandAttractors.position attractor))
    < HandAttractors.attractionRadius h.
Proof.
  intros h attractor body fx fy. unfold HandAttractors.forceOn, dist.
  destruct (MatterPhysics.isStatic body); [discriminate|].
  match goal with |- context [Qltb ?d ?r] => destruct (Qltb d r) eqn:E end; [|discriminate].
  intros _. apply Qltb_true in E. split; [reflexivity|exact E].
Qed.

Lemma forcesOnPlant_spec : forall h attractor i plant call,
  In call (HandAttractors.forcesOnPlant h attractor i plant) ->
  HandAttractors.onPlant call = i /\
  In (HandAttractors.onBody call) (MatterPhysics.bodies (Plant.physics plant)) /\
  exists body,
    MatterPhysics.getBody (Plant.physics plant) (HandAttractors.onBody call) = Some body /\
    HandAttractors.forceOn h attractor body =
      Some (HandAttractors.forceX call, HandAttractors.forceY call).
Proof.
  intros h attractor i plant call. unfold HandAttractors.forcesOnPlant.
  rewrite in_flat_map. intros [r [Hr Hin]].
  destruct (MatterPhysics.getBody (Plant.physics plant) r) as [body|] eqn:Hb; [|destruct Hin].
  destruct (HandAttractors.forceOn h attractor body) as [[fx fy]|] eqn:Hf; [|destruct Hin].
  destruct Hin as [<-|[]]. simpl. split; [reflexivity|]. split; [exact Hr|].
  exists body. split; [exact Hb|exact Hf].
Qed.

Lemma forcesFrom_spec : forall h attractor ps i call,
  In call (HandAttractors.forcesFrom h attractor i ps) ->
  (i <= HandAttractors.onPlant call)%nat /\
  exists plant,
    nth_error ps (HandAttractors.onPlant call - i) = Some plant /\
    In call (HandAttractors.forcesOnPlant h attractor (HandAttractors.onPlant call) plant).
Proof.
  intros h attractor; induction ps as [|plant rest IH]; intros i call; simpl; [intros []|].
  rewrite in_app_iff. intros [Hin|Hin].
  - destruct (forcesOnPlant_spec _ _ _ _ _ Hin) as [Hi _]. rewrite Hi.
    split; [lia|]. exists plant. rewrite Nat.sub_diag. split; [reflexivity|exact Hin].
  - destruct (IH (S i) call Hin) as [Hle [plant' [Hn Hc]]]. split; [lia|].
    exists plant'. split; [|exact Hc].
    replace (HandAttractors.onPlant call - i)%nat
      with (S (HandAttractors.onPlant call - S i)) by lia.
    exact Hn.
Qed.

(** X18: the attraction reaches only what it should.  Every force that
    [applyAttractionToPlants] hands to the engine is applied while a pinch
    is held, to a body that its plant still tracks, that is not fixed, and
    that lies strictly inside the attraction radius of the first
    attractor; without a pinch nothing is applied; and a destroyed plant,
    which tracks no body, receives nothing. *)
Theorem attraction_reaches_free_bodies_in_range : forall h,
  (forall call,
     In call (HandAttractors.applyAttractionToPlants h) ->
     HandAttractors.isPinching h = true /\
     exists attractor others plant body,
       HandAttractors.attractors h = attractor :: others /\
       nth_error (HandAttractors.plants (HandAttractors.garden h))
                 (HandAttractors.onPlant call) = Some plant /\
       In (HandAttractors.onBody call) (MatterPhysics.bodies (Plant.physics plant)) /\
       MatterPhysics.getBody (Plant.physics plant) (HandAttractors.onBody call) = Some body /\
       MatterPhysics.isStatic body = false /\
       dist (fst (MatterPhysics.position body)) (snd (MatterPhysics.position body))
            (fst (HandAttractors.position attractor))
            (snd (HandAttractors.position attractor))
         < HandAttractors.attractionRadius h) /\
  (HandAttractors.isPinching h = false -> HandAttractors.applyAttractionToPlants h = []) /\
  (forall attractor i plant,
     HandAttractors.forcesOnPlant h attractor i (Plant.destroy plant) = []).
Proof.
  intros h. split; [|split].
  - intros call. unfold HandAttractors.applyAttractionToPlants.
    destruct (HandAttractors.isPinching h); simpl; [|intros []].
    destruct (HandAttractors.attractors h) as [|attractor others]; [intros []|].
    intros Hin. split; [reflexivity|].
    destruct (forcesFrom_spec _ _ _ _ _ Hin) as [_ [plant [Hn Hc]]].
    destruct (forcesOnPlant_spec _ _ _ _ _ Hc) as [_ [Hb [body [Hg Hf]]]].
    destruct (forceOn_some _ _ _ Hf) as [Hs Hd].
    rewrite Nat.sub_0_r in Hn.
    exists attractor, others, plant, body. repeat split; auto.
  - intros Hp. unfold HandAttractors.applyAttractionToPlants. rewrite Hp. reflexivity.
  - intros attractor i plant. reflexivity.
Qed.

Lemma checkPlantInteractions_pinchState : forall c garden hand height now currentTime rng,
  HandInput.pinchState
    (fst (HandInput.checkPlantInteractions c garden hand height now currentTime rng)) =
  HandInput.pinchState c /\
  HandInput.themeButton
    (fst (HandInput.checkPlantInteractions c garden hand height now currentTime rng)) =
  HandInput.themeButton c.
Proof.
  intros c garden hand height now currentTime rng. unfold HandInput.checkPlantInteractions.
  repeat match goal with
         | |- context [if ?b then _ else _] => destruct b
         | |- context [match Hand.part ?h ?k with _ => _ end] => destruct (Hand.part h k)
         end; split; reflexivity.
Qed.

(** The pinch state that a call of [update] leaves behind. *)
Lemma update_pinchState : forall c garden hands height nowButton nowPlant currentTime rng,
  exists h',
    HandInput.pinchState
      (HandInput.state
         (HandInput.update c garden hands height nowButton nowPlant currentTime rng)) =
    HandInput.seeing h'
      (HandInput.gardenAfter
         (HandInput.update c garden hands height nowButton nowPlant currentTime rng)) /\
    ((h' = HandInput.release (HandInput.pinchState c) /\
      HandInput.forces
        (HandInput.update c garden hands height nowButton nowPlant currentTime rng) = []) \/
     exists hand rest thumbTip indexTip,
       hands = hand :: rest /\
       HandAttractors.enabled (HandInput.pinchState c) = true /\
       Hand.part hand "thumb_tip" = Some thumbTip /\
       Hand.part hand "index_finger_tip" = Some indexTip /\
       dist (Hand.x thumbTip) (Hand.y thumbTip) (Hand.x indexTip) (Hand.y indexTip) < 35 /\
       h' = HandAttractors.pinchAt (HandInput.release (HandInput.pinchState c))
              ((Hand.x thumbTip + Hand.x indexTip) / 2,
               (Hand.y thumbTip + Hand.y indexTip) / 2)).
Proof.
  intros c garden hands height nowButton nowPlant currentTime rng.
  unfold HandInput.update. cbv zeta.
  destruct hands as [|hand rest].
  { exists (HandInput.release (HandInput.pinchState c)). split; [reflexivity|].
    left. split; reflexivity. }
  cbn [HandInput.release HandAttractors.enabled].
  destruct (HandAttractors.enabled (HandInput.pinchState c)) eqn:Hen; cbn [negb].
  2:{ exists (HandInput.release (HandInput.pinchState c)). split; [reflexivity|].
      left. split; reflexivity. }
  destruct (HandInput.updateThemeButtonState (HandInput.themeButton c) garden hand nowButton)
    as [button1 garden1].
  match goal with |- context [HandInput.checkPlantInteractions ?c1 ?g ?h ?ht ?n ?t ?r] =>
    destruct (checkPlantInteractions_pinchState c1 g h ht n t r) as [Hps _];
    destruct (HandInput.checkPlantInteractions c1 g h ht n t r) as [c2 planted] end.
  cbn [fst HandInput.pinchState] in Hps.
  cbn [HandInput.state HandInput.gardenAfter HandInput.forces HandInput.withPinchState
       HandInput.pinchState].
  rewrite Hps. unfold HandInput.detectPinch.
  destruct (Hand.part hand "thumb_tip") as [thumbTip|] eqn:Ht.
  2:{ exists (HandInput.release (HandInput.pinchState c)). split; [reflexivity|].
      left. split; reflexivity. }
  destruct (Hand.part hand "index_finger_tip") as [indexTip|] eqn:Hi.
  2:{ exists (HandInput.release (HandInput.pinchState c)). split; [reflexivity|].
      left. split; reflexivity. }
  cbv zeta.
  match goal with |- context [Qltb ?d 35] => destruct (Qltb d 35) eqn:Hd end.
  - exists (HandAttractors.pinchAt (HandInput.release (HandInput.pinchState c))
              ((Hand.x thumbTip + Hand.x indexTip) / 2,
               (Hand.y thumbTip + Hand.y indexTip) / 2)).
    split; [reflexivity|]. right.
    exists hand, rest, thumbTip, indexTip. apply Qltb_true in Hd.
    repeat split; auto; reflexivity.
  - exists (HandInput.release (HandInput.pinchState c)). split; [reflexivity|].
    left. split; reflexivity.
Qed.

(** X19: a pinch is the one source of attraction.  After a call of
    [update] the object holds one attractor when it is pinching and none
    otherwise.  It is pinching exactly when it is enabled and the first
    hand shows its thumb tip and its index finger tip less than 35 pixels
    apart; the attractor then sits midway between the two tips and carries
    the current attraction strength.  Otherwise no force is applied.  The
    settings are never changed by [update]. *)
Theorem pinch_is_the_only_attractor :
  forall c garden hands height nowButton nowPlant currentTime rng,
  let frame := HandInput.update c garden hands height nowButton nowPlant currentTime rng in
  let h := HandInput.pinchState (HandInput.state frame) in
  (HandAttractors.isPinching h = false ->
   HandAttractors.attractors h = [] /\ HandInput.forces frame = [] /\
   HandAttractors.pinchPosition h = HandAttractors.pinchPosition (HandInput.pinchState c)) /\
  (HandAttractors.isPinching h = true ->
   exists hand rest thumbTip indexTip,
     hands = hand :: rest /\
     HandAttractors.enabled (HandInput.pinchState c) = true /\
     Hand.part hand "thumb_tip" = Some thumbTip /\
     Hand.part hand "index_finger_tip" = Some indexTip /\
     dist (Hand.x thumbTip) (Hand.y thumbTip) (Hand.x indexTip) (Hand.y indexTip) < 35 /\
     HandAttractors.attractors h =
       [{| HandAttractors.position :=
             ((Hand.x thumbTip + Hand.x indexTip) / 2,
              (Hand.y thumbTip + Hand.y indexTip) / 2);
           HandAttractors.name := "pinch";
           HandAttractors.strength :=
             HandAttractors.attractionStrength (HandInput.pinchState c) |}]) /\
  (forall hand rest thumbTip indexTip,
     hands = hand :: rest ->
     HandAttractors.enabled (HandInput.pinchState c) = true ->
     Hand.part hand "thumb_tip" = Some thumbTip ->
     Hand.part hand "index_finger_tip" = Some indexTip ->
     dist (Hand.x thumbTip) (Hand.y thumbTip) (Hand.x indexTip) (Hand.y indexTip) < 35 ->
     HandAttractors.isPinching h = true) /\
  HandAttractors.attractionStrength h =
    HandAttractors.attractionStrength (HandInput.pinchState c) /\
  HandAttractors.attractionRadius h =
    HandAttractors.attractionRadius (HandInput.pinchState c) /\
  HandAttractors.maxForce h = HandAttractors.maxForce (HandInput.pinchState c) /\
  HandAttractors.enabled h = HandAttractors.enabled (HandInput.pinchState c).
Proof.
  intros c garden hands height nowButton nowPlant currentTime rng frame h.
  destruct (update_pinchState c garden hands height nowButton nowPlant currentTime rng)
    as [h' [Hh Hcases]].
  fold frame in Hh, Hcases. fold h in Hh.
  split; [|split; [|split]].
  - intros Hoff. destruct Hcases as [[-> Hf]|[hand [rest [t [i [_ [_ [_ [_ [_ ->]]]]]]]]]].
    + rewrite Hh. repeat split; auto.
    + rewrite Hh in Hoff. discriminate.
  - intros Hon. destruct Hcases as [[-> Hf]|[hand [rest [t [i [E1 [E2 [E3 [E4 [E5 ->]]]]]]]]]].
    + rewrite Hh in Hon. discriminate.
    + exists hand, rest, t, i. rewrite Hh. repeat split; auto.
  - intros hand rest thumbTip indexTip -> Hen Ht Hi Hd.
    subst h frame. unfold HandInput.update. cbv zeta.
    cbn [HandInput.release HandAttractors.enabled]. rewrite Hen. cbn [negb].
    destruct (HandInput.updateThemeButtonState (HandInput.themeButton c) garden hand nowButton)
      as [button1 garden1].
    match goal with |- context [HandInput.checkPlantInteractions ?c1 ?g ?h ?ht ?n ?t ?r] =>
      destruct (checkPlantInteractions_pinchState c1 g h ht n t r) as [Hps _];
      destruct (HandInput.checkPlantInteractions c1 g h ht n t r) as [c2 planted] end.
    cbn [fst HandInput.pinchState] in Hps.
    cbn [HandInput.state HandInput.withPinchState HandInput.pinchState].
    rewrite Hps. unfold HandInput.detectPinch. rewrite Ht, Hi. cbv zeta.
    apply Qltb_true in Hd. rewrite Hd. reflexivity.
  - rewrite Hh.
    destruct Hcases as [[-> _]|[hand [rest [t [i [_ [_ [_ [_ [_ ->]]]]]]]]]];
      repeat split; reflexivity.
Qed.

(** X20: the two pinch tests agree one way.  For a hand that shows both
    tips, to an enabled object, whenever the gesture detector reports a
    pinch (tips less than 20 pixels apart) the attractors are pinching as
    well (their threshold is 35 pixels). *)
Theorem gesture_pinch_is_an_attractor_pinch :
  forall g now c garden hand rest height nowButton nowPlant currentTime rng thumbTip indexTip,
  Hand.part hand "thumb_tip" = Some thumbTip ->
  Hand.part hand "index_finger_tip" = Some indexTip ->
  HandAttractors.enabled (HandInput.pinchState c) = true ->
  HandGestures.pinch (fst (HandGestures.update g (Some hand) now)) = true ->
  HandAttractors.isPinching
    (HandInput.pinchState
       (HandInput.state
          (HandInput.update c garden (hand :: rest) height nowButton nowPlant
             currentTime rng))) = true.
Proof.
  intros g now c garden hand rest height nowButton nowPlant currentTime rng thumbTip indexTip
         Ht Hi Hen Hpinch.
  assert (Hd : dist (Hand.x thumbTip) (Hand.y thumbTip) (Hand.x indexTip) (Hand.y indexTip)
               < 20).
  { revert Hpinch. unfold HandGestures.update. cbn [fst].
    unfold HandGestures.detectPinch. rewrite Ht, Hi. cbn.
    intros H. apply Qltb_true in H. exact H. }
  unfold HandInput.update. cbv zeta.
  cbn [HandInput.release HandAttractors.enabled]. rewrite Hen. cbn [negb].
  destruct (HandInput.updateThemeButtonState (HandInput.themeButton c) garden hand nowButton)
    as [button1 garden1].
  match goal with |- context [HandInput.checkPlantInteractions ?c1 ?g ?h ?ht ?n ?t ?r] =>
    destruct (checkPlantInteractions_pinchState c1 g h ht n t r) as [Hps _];
    destruct (HandInput.checkPlantInteractions c1 g h ht n t r) as [c2 planted] end.
  cbn [fst HandInput.pinchState] in Hps.
  cbn [HandInput.state HandInput.withPinchState HandInput.pinchState].
  rewrite Hps. unfold HandInput.detectPinch. rewrite Ht, Hi. cbv zeta.
  assert (Hlt : Qltb (dist (Hand.x thumbTip) (Hand.y thumbTip)
                        (Hand.x indexTip) (Hand.y indexTip)) 35 = true)
    by (apply Qltb_true; lra).
  rewrite Hlt. reflexivity.
Qed.


(** The settings stay in their ranges, and an attractor carries a strength
    of the range. *)
Lemma tuned_settings : forall c,
  tuned c ->
  (1 # 10000 <= HandAttractors.attractionStrength (HandInput.pinchState c) <= 5 # 10) /\
  (10 <= HandAttractors.attractionRadius (HandInput.pinchState c) <= 200) /\
  HandAttractors.maxForce (HandInput.pinchState c) = 1 # 10 /\
  (List.length (HandAttractors.attractors (HandInput.pinchState c)) <= 1)%nat /\
  (forall attractor,
     In attractor (HandAttractors.attractors (HandInput.pinchState c)) ->
     1 # 10000 <= HandAttractors.strength attractor <= 5 # 10).
Proof.
  intros c Ht. induction Ht as [garden w|c Ht IH|c s Ht IH|c r Ht IH|
                                c garden hands height nb np ct rng Ht IH].
  - simpl. split; [lra|]. split; [lra|]. split; [reflexivity|]. split; [lia|].
    intros a [].
  - exact IH.
  - destruct IH as [Hs [Hr [Hm [Hl Ha]]]]. simpl.
    split; [|split; [exact Hr|split; [exact Hm|split; [exact Hl|exact Ha]]]].
    split; [apply Q.le_max_l|].
    apply Q.max_lub; [lra|apply Q.le_min_l].
  - destruct IH as [Hs [Hr [Hm [Hl Ha]]]]. simpl.
    split; [exact Hs|]. split; [|split; [exact Hm|split; [exact Hl|exact Ha]]].
    split; [apply Q.le_max_l|].
    apply Q.max_lub; [lra|apply Q.le_min_l].
  - destruct IH as [Hs [Hr [Hm [Hl Ha]]]].
    destruct (update_pinchState c garden hands height nb np ct rng) as [h' [-> Hcases]].
    destruct Hcases as [[-> _]|[hand [rest [t [i [_ [_ [_ [_ [_ ->]]]]]]]]]]; simpl.
    + split; [exact Hs|]. split; [exact Hr|]. split; [exact Hm|]. split; [lia|].
      intros a [].
    + split; [exact Hs|]. split; [exact Hr|]. split; [exact Hm|]. split; [lia|].
      intros a [<-|[]]. simpl. exact Hs.
Qed.

(** X21: the pull of a pinch is bounded.  Whatever keys were pressed and
    whatever hands were seen, the attraction strength stays between 0.0001
    and 0.5, the radius between 10 and 200 pixels and the force cap at 0.1,
    and the object holds at most one attractor; so the scalar that scales
    the force on a body at a distance below the radius is positive and at
    most 0.1. *)
Theorem attraction_force_is_bounded : forall c,
  tuned c ->
  (1 # 10000 <= HandAttractors.attractionStrength (HandInput.pinchState c) <= 5 # 10) /\
  (10 <= HandAttractors.attractionRadius (HandInput.pinchState c) <= 200) /\
  HandAttractors.maxForce (HandInput.pinchState c) = 1 # 10 /\
  (List.length (HandAttractors.attractors (HandInput.pinchState c)) <= 1)%nat /\
  (forall attractor distance,
     In attractor (HandAttractors.attractors (HandInput.pinchState c)) ->
     0 <= distance ->
     distance < HandAttractors.attractionRadius (HandInput.pinchState c) ->
     0 < HandAttractors.forceMagnitude (HandInput.pinchState c) attractor distance
       <= 1 # 10).
Proof.
  intros c Ht. destruct (tuned_settings Ht) as [Hs [Hr [Hm [Hl Ha]]]].
  split; [exact Hs|]. split; [exact Hr|]. split; [exact Hm|]. split; [exact Hl|].
  intros attractor distance Hin Hd Hlt. rewrite <- Hm.
  apply forceMagnitude_capped; auto.
  - specialize (Ha attractor Hin). lra.
  - rewrite Hm. lra.
Qed.

Lemma themeButton_plants : forall button garden hand now,
  EnhancedGarden.plants
    (snd (HandInput.updateThemeButtonState button garden hand now)) =
  EnhancedGarden.plants garden.
Proof.
  intros button garden hand now. unfold HandInput.updateThemeButtonState.
  destruct (Hand.part hand "index_finger_tip"); [|reflexivity].
  cbv zeta. match goal with |- context [if ?b then _ else _] => destruct b end; reflexivity.
Qed.

(** X22: planting with the finger.  [update] calls [createPlant] only for
    an enabled object, at least [interactionCooldown] after the last such
    call, when the index finger tip of the first hand is less than 20
    pixels above the bottom of the canvas; the plant is asked for under
    the finger, 10 pixels above the bottom, with the type left to the
    garden.  The time of the call is kept whether or not the garden
    accepted it.  Without such a call the plants and the time stay as
    they are. *)
Theorem finger_planting :
  forall c garden hands height nowButton nowPlant currentTime rng,
  let frame := HandInput.update c garden hands height nowButton nowPlant currentTime rng in
  (HandInput.planting frame = None ->
   EnhancedGarden.plants (HandInput.gardenAfter frame) = EnhancedGarden.plants garden /\
   HandInput.lastInteractionTime (HandInput.state frame) = HandInput.lastInteractionTime c) /\
  (forall outcome,
     HandInput.planting frame = Some outcome ->
     exists hand rest indexFinger garden1,
       hands = hand :: rest /\
       HandAttractors.enabled (HandInput.pinchState c) = true /\
       Hand.part hand "index_finger_tip" = Some indexFinger /\
       height - 20 < Hand.y indexFinger /\
       HandInput.interactionCooldown c <= nowPlant - HandInput.lastInteractionTime c /\
       EnhancedGarden.plants garden1 = EnhancedGarden.plants garden /\
       outcome =
         EnhancedGarden.createPlant garden1 (Hand.x indexFinger) (height - 10) None
           currentTime rng /\
       HandInput.gardenAfter frame = EnhancedGarden.gardenOf outcome /\
       HandInput.lastInteractionTime (HandInput.state frame) = nowPlant).
Proof.
  intros c garden hands height nowButton nowPlant currentTime rng frame.
  subst frame. unfold HandInput.update. cbv zeta.
  destruct hands as [|hand rest].
  { split; [intros _; split; reflexivity|intros outcome H; discriminate]. }
  cbn [HandInput.release HandAttractors.enabled].
  destruct (HandAttractors.enabled (HandInput.pinchState c)) eqn:Hen; cbn [negb].
  2:{ split; [intros _; split; reflexivity|intros outcome H; discriminate]. }
  pose proof (themeButton_plants (HandInput.themeButton c) garden hand nowButton) as Hplants.
  destruct (HandInput.updateThemeButtonState (HandInput.themeButton c) garden hand nowButton)
    as [button1 garden1].
  cbn [snd] in Hplants.
  unfold HandInput.checkPlantInteractions.
  cbn [HandInput.lastInteractionTime HandInput.interactionCooldown].
  destruct (Qltb (nowPlant - HandInput.lastInteractionTime c) (HandInput.interactionCooldown c))
    eqn:Hcool.
  { cbn. split; [intros _; split; [exact Hplants|reflexivity]|intros outcome H; discriminate]. }
  destruct (Hand.part hand "index_finger_tip") as [indexFinger|] eqn:Hi.
  2:{ cbn. split; [intros _; split; [exact Hplants|reflexivity]
                  |intros outcome H; discriminate]. }
  destruct (Qgtb (Hand.y indexFinger) (height - 20)) eqn:Hy.
  2:{ cbn. split; [intros _; split; [exact Hplants|reflexivity]
                  |intros outcome H; discriminate]. }
  cbn. split; [intros H; discriminate|].
  intros outcome H. injection H as <-.
  exists hand, rest, indexFinger, garden1.
  apply Qltb_false in Hcool.
  assert (Hlow : height - 20 < Hand.y indexFinger).
  { unfold Qgtb in Hy. apply negb_true_iff in Hy.
    destruct (Qlt_le_dec (height - 20) (Hand.y indexFinger)) as [H|H]; [exact H|].
    apply Qle_bool_iff in H. congruence. }
  repeat split; auto.
Qed.

End Attractors.

(** ** Atmosphere *)

Section Air.
Context `{MathEnv}.

Lemma createFirefly_settings (a : Atmosphere.t) cv g :
  exists fly g', Atmosphere.createFirefly a cv g = (fly, g').
Proof. eexists _, _. apply surjective_pairing. Qed.

Lemma pushFireflies_spec n : forall a cv g,
  let a' := fst (Atmosphere.pushFireflies n a cv g) in
  List.length (Atmosphere.fireflies a') = (List.length (Atmosphere.fireflies a) + n)%nat /\
  Atmosphere.dustParticles a' = Atmosphere.dustParticles a /\
  Atmosphere.maxFireflies a' = Atmosphere.maxFireflies a /\
  Atmosphere.maxDustParticles a' = Atmosphere.maxDustParticles a.
Proof.
  induction n as [|n IH]; intros a cv g; cbn [Atmosphere.pushFireflies].
  - cbn. repeat split; lia.
  - destruct (Atmosphere.createFirefly a cv g) as [fly g1].
    specialize (IH (Atmosphere.withFireflies a (Atmosphere.fireflies a ++ [fly])) cv g1).
    cbn zeta in *. destruct IH as (L & D & M1 & M2).
    rewrite L, D, M1, M2. cbn. rewrite length_app. cbn. repeat split; lia.
Qed.

Lemma pushDust_spec n : forall a cv g,
  let a' := fst (Atmosphere.pushDust n a cv g) in
  List.length (Atmosphere.dustParticles a') =
    (List.length (Atmosphere.dustParticles a) + n)%nat /\
  Atmosphere.fireflies a' = Atmosphere.fireflies a /\
  Atmosphere.maxFireflies a' = Atmosphere.maxFireflies a /\
  Atmosphere.maxDustParticles a' = Atmosphere.maxDustParticles a /\
  (Forall (fun d => Atmosphere.age d = 0) (Atmosphere.dustParticles a) ->
   Forall (fun d => Atmosphere.age d = 0) (Atmosphere.dustParticles a')).
Proof.
  induction n as [|n IH]; intros a cv g; cbn [Atmosphere.pushDust].
  - cbn. repeat split; auto; lia.
  - destruct (Atmosphere.createDustParticle a cv g) as [dust g1] eqn:E.
    specialize (IH (Atmosphere.withDust a (Atmosphere.dustParticles a ++ [dust])) cv g1).
    cbn zeta in *. destruct IH as (L & D & M1 & M2 & A).
    rewrite L, D, M1, M2. cbn. rewrite length_app. cbn.
    repeat split; try lia.
    intros Hall. apply A. cbn. apply Forall_app. split; [exact Hall|].
    constructor; [|constructor].
    unfold Atmosphere.createDustParticle in E.
    repeat match type of E with
           | context [let (_, _) := ?r in _] => destruct r
           end.
    inversion E. reflexivity.
Qed.

(** A new dust particle has age [0]. *)
Lemma createDustParticle_age (a : Atmosphere.t) cv g :
  Atmosphere.age (fst (Atmosphere.createDustParticle a cv g)) = 0.
Proof.
  unfold Atmosphere.createDustParticle.
  repeat match goal with
         | |- context [let (_, _) := ?r in _] => destruct r
         end.
  reflexivity.
Qed.

Lemma updateFireflies_length cv flies : forall g,
  List.length (fst (Atmosphere.updateFireflies cv flies g)) = List.length flies.
Proof.
  induction flies as [|fly rest IH]; intros g; cbn [Atmosphere.updateFireflies].
  - reflexivity.
  - destruct (Atmosphere.updateFirefly cv fly g) as [fly' g1].
    specialize (IH g1).
    destruct (Atmosphere.updateFireflies cv rest g1) as [rest' g2].
    cbn in *. now rewrite IH.
Qed.

Lemma updateDust_ageless (a : Atmosphere.t) cv dust g dust' g' :
  Atmosphere.updateDust a cv dust g = Normal (dust', g') -> ageless dust'.
Proof.
  unfold Atmosphere.updateDust.
  destruct (Atmosphere.dustColor dust) as [channels|]; [|discriminate].
  match goal with
  | |- context [if ?c then _ else _] => destruct c
  end.
  - pose proof (createDustParticle_age a cv g) as Hage.
    destruct (Atmosphere.createDustParticle a cv g) as [fresh g1].
    destruct (random2 5 15 g1) as [rise g2].
    destruct (random g2) as [chance g3].
    intros E. inversion E. left. exact Hage.
  - destruct (random g) as [chance g1].
    destruct (Qltb chance (2 # 100)).
    + destruct (random2 (- (1 # 10)) (1 # 10) g1) as [turn g2].
      intros E. inversion E. right. reflexivity.
    + intros E. inversion E. right. reflexivity.
Qed.

Lemma updateDustParticles_spec (a : Atmosphere.t) cv ds : forall g ds' g',
  Atmosphere.updateDustParticles a cv ds g = Normal (ds', g') ->
  List.length ds' = List.length ds /\ Forall ageless ds'.
Proof.
  induction ds as [|dust before IH]; intros g ds' g'; cbn [Atmosphere.updateDustParticles].
  - intros E. inversion E. split; [reflexivity | constructor].
  - destruct (Atmosphere.updateDustParticles a cv before g) as [[after g1]|e] eqn:E1;
      cbn [bind]; [|discriminate].
    destruct (Atmosphere.updateDust a cv dust g1) as [[dust' g2]|e] eqn:E2;
      cbn [bind]; [|discriminate].
    intros E. inversion E. subst.
    destruct (IH _ _ _ E1) as [L A].
    split; [cbn; now rewrite L|].
    constructor; [|exact A]. eapply updateDust_ageless; eassumption.
Qed.

Lemma settled_new cv g : settled (fst (Atmosphere.new cv g)).
Proof.
  unfold Atmosphere.new, Atmosphere.initParticles.
  match goal with
  | |- context [Atmosphere.pushFireflies ?n ?a cv g] =>
      pose proof (pushFireflies_spec n a cv g) as P1;
      destruct (Atmosphere.pushFireflies n a cv g) as [a1 g1]
  end.
  cbn [fst Atmosphere.maxFireflies Atmosphere.fireflies Atmosphere.dustParticles
       Atmosphere.maxDustParticles List.length] in P1.
  destruct P1 as (L1 & D1 & M1 & M2).
  pose proof (pushDust_spec (Atmosphere.maxDustParticles a1) a1 cv g1) as P2.
  destruct (Atmosphere.pushDust (Atmosphere.maxDustParticles a1) a1 cv g1) as [a2 g2].
  cbn [fst] in *. destruct P2 as (L2 & F2 & N1 & N2 & A2).
  rewrite D1, M2 in L2. cbn [List.length] in L2.
  constructor.
  - congruence.
  - congruence.
  - rewrite F2, L1. lia.
  - rewrite L2. lia.
  - eapply Forall_impl; [|apply A2; rewrite D1; constructor].
    intros d Hd. left. exact Hd.
Qed.

Lemma settled_update a cv g a' g' :
  settled a -> Atmosphere.update a cv g = Normal (a', g') -> settled a'.
Proof.
  intros [M1 M2 F D A]. unfold Atmosphere.update.
  pose proof (updateFireflies_length cv (Atmosphere.fireflies a) g) as LF.
  destruct (Atmosphere.updateFireflies cv (Atmosphere.fireflies a) g) as [flies g1].
  destruct (Atmosphere.updateDustParticles a cv (Atmosphere.dustParticles a) g1)
    as [[ds g2]|e] eqn:E; cbn [bind]; [|discriminate].
  intros E'. inversion E'. subst.
  destruct (updateDustParticles_spec _ _ _ _ E) as [LD AD].
  cbn [fst] in LF.
  constructor; cbn; try assumption; lia.
Qed.

Lemma addDust_settled px py a cv g :
  settled a -> settled (fst (Atmosphere.addDust px py a cv g)).
Proof.
  intros [M1 M2 F D A]. unfold Atmosphere.addDust.
  destruct (Atmosphere.random1 Atmosphere.TWO_PI g) as [angle g1].
  destruct (random2 5 50 g1) as [distance g2].
  pose proof (createDustParticle_age a cv g2) as Hage.
  destruct (Atmosphere.createDustParticle a cv g2) as [dust g3].
  cbn [fst] in *.
  assert (Hall : Forall ageless
            (Atmosphere.dustParticles a ++
             [{| Atmosphere.dustX := px + cos angle * distance;
                 Atmosphere.dustY := py + sin angle * distance;
                 Atmosphere.dustSize := Atmosphere.dustSize dust;
                 Atmosphere.dustColor := Atmosphere.dustColor dust;
                 Atmosphere.dustSpeed := Atmosphere.dustSpeed dust * (15 # 10);
                 Atmosphere.dustAngle := Atmosphere.dustAngle dust;
                 Atmosphere.dustSinOffset := Atmosphere.dustSinOffset dust;
                 Atmosphere.dustSinFrequency := Atmosphere.dustSinFrequency dust;
                 Atmosphere.dustSinAmplitude := Atmosphere.dustSinAmplitude dust;
                 Atmosphere.lifespan := Atmosphere.lifespan dust;
                 Atmosphere.age := Atmosphere.age dust;
                 Atmosphere.dustCurrentAlpha := Atmosphere.dustCurrentAlpha dust |}])).
  { apply Forall_app. split; [exact A|]. constructor; [|constructor]. left. exact Hage. }
  rewrite M2. rewrite length_app. cbn [List.length].
  destruct (Nat.ltb_spec (500 + 50) (List.length (Atmosphere.dustParticles a) + 1)) as [Hgt|Hle].
  - constructor; cbn; try assumption.
    + destruct (Atmosphere.dustParticles a) as [|d0 rest]; cbn in *; [lia|].
      rewrite length_app. cbn. lia.
    + destruct (Atmosphere.dustParticles a) as [|d0 rest]; cbn in *; [constructor|].
      inversion Hall. assumption.
  - constructor; cbn; try assumption.
    rewrite length_app. cbn. lia.
Qed.

Lemma addFirefly_settled px py a cv g :
  settled a -> settled (fst (Atmosphere.addFirefly px py a cv g)).
Proof.
  intros [M1 M2 F D A]. unfold Atmosphere.addFirefly.
  destruct (Atmosphere.random1 Atmosphere.TWO_PI g) as [angle g1].
  destruct (random2 5 50 g1) as [distance g2].
  destruct (Atmosphere.createFirefly a cv g2) as [fly g3].
  cbn [fst]. rewrite M1. rewrite length_app. cbn [List.length].
  destruct (Nat.ltb_spec (30 + 10) (List.length (Atmosphere.fireflies a) + 1)) as [Hgt|Hle].
  - constructor; cbn; try assumption.
    destruct (Atmosphere.fireflies a) as [|f0 rest]; cbn in *; [lia|].
    rewrite length_app. cbn. lia.
  - constructor; cbn; try assumption.
    rewrite length_app. cbn. lia.
Qed.

Lemma times_settled (f : Atmosphere.t -> Rng -> Atmosphere.t * Rng) :
  (forall a g, settled a -> settled (fst (f a g))) ->
  forall n a g, settled a -> settled (fst (Atmosphere.times n f a g)).
Proof.
  intros Hf. induction n as [|n IH]; intros a g Ha; cbn [Atmosphere.times].
  - exact Ha.
  - specialize (Hf a g Ha). destruct (f a g) as [a1 g1]. apply IH. exact Hf.
Qed.

Lemma settled_effect a cv px py type count g :
  settled a -> settled (fst (Atmosphere.addLocalEffect a cv px py type count g)).
Proof.
  intros Ha. unfold Atmosphere.addLocalEffect.
  destruct (String.eqb type "dust").
  - apply times_settled; [|exact Ha]. intros. now apply addDust_settled.
  - destruct (String.eqb type "firefly").
    + apply times_settled; [|exact Ha]. intros. now apply addFirefly_settled.
    + exact Ha.
Qed.

Lemma settled_resized a cv : settled a -> settled (Atmosphere.windowResized a cv).
Proof.
  intros [M1 M2 F D A].
  constructor; cbn; try assumption; rewrite ?length_map; try assumption.
  apply Forall_map. eapply Forall_impl; [|exact A]. intros d Hd. exact Hd.
Qed.

Lemma aired_settled a : aired a -> settled a.
Proof.
  induction 1.
  - apply settled_new.
  - eapply settled_update; eassumption.
  - now apply settled_effect.
  - now apply settled_resized.
Qed.

(** X23.  The atmosphere never runs empty and never grows without bound:
    whatever sequence of updates, local effects and resizes it goes through,
    it holds between 30 and 40 fireflies and between 500 and 550 dust
    particles. *)
Theorem atmosphere_population_is_bounded (a : Atmosphere.t) :
  aired a ->
  (30 <= List.length (Atmosphere.fireflies a) <= 40)%nat /\
  (500 <= List.length (Atmosphere.dustParticles a) <= 550)%nat.
Proof.
  intros Ha. destruct (aired_settled Ha). split; assumption.
Qed.

(** X24.  Dust never ages: [dust.age =+ 1] assigns [1] instead of adding
    it.  Every dust particle of every atmosphere has age [0] (new) or [1]
    (updated), and an update never replaces a particle for its age when its
    lifespan is at least [1]: if its move leaves it between the top and the
    bottom margins it is kept, with its lifespan, at the new height. *)
Theorem dust_never_ages (a : Atmosphere.t) :
  aired a ->
  Forall (fun d => Atmosphere.age d = 0 \/ Atmosphere.age d = 1)
         (Atmosphere.dustParticles a) /\
  forall cv dust g dust' g',
    Atmosphere.updateDust a cv dust g = Normal (dust', g') ->
    1 <= Atmosphere.lifespan dust ->
    let y1 := Atmosphere.dustY dust +
              (sin (Atmosphere.dustAngle dust) * Atmosphere.dustSpeed dust -
               Atmosphere.dustSpeed dust * (2 # 10)) in
    -10 <= y1 <= Atmosphere.height cv + 10 ->
    Atmosphere.dustY dust' = y1 /\
    Atmosphere.lifespan dust' = Atmosphere.lifespan dust /\
    Atmosphere.age dust' = 1.
Proof.
  intros Ha. split.
  - destruct (aired_settled Ha) as [_ _ _ _ A]. exact A.
  - intros cv dust g dust' g'. unfold Atmosphere.updateDust.
    destruct (Atmosphere.dustColor dust) as [channels|]; [|discriminate].
    match goal with
    | |- context [if ?c then _ else _] => destruct c eqn:C
    end.
    + intros _ Hl Hy. exfalso.
      apply orb_true_iff in C. destruct C as [C|C].
      * apply orb_true_iff in C. destruct C as [C|C].
        -- unfold Qltb in C. apply negb_true_iff in C.
           destruct Hy as [Hy _]. apply Qle_bool_iff in Hy. congruence.
        -- unfold Qgtb in C. apply negb_true_iff in C.
           destruct Hy as [_ Hy]. apply Qle_bool_iff in Hy. congruence.
      * unfold Qgtb in C. apply negb_true_iff in C.
        assert (Qle_bool 1 (Atmosphere.lifespan dust) = true)
          by (apply Qle_bool_iff; lra).
        congruence.
    + destruct (random g) as [chance g1].
      destruct (Qltb chance (2 # 100)).
      * destruct (random2 (- (1 # 10)) (1 # 10) g1) as [turn g2].
        intros E _ _. inversion E. repeat split; reflexivity.
      * intros E _ _. inversion E. repeat split; reflexivity.
Qed.

Lemma Qltb_lt a b : Qltb a b = true -> a < b.
Proof.
  unfold Qltb. intros E. apply negb_true_iff in E.
  destruct (Qlt_le_dec a b) as [L|L]; [exact L|].
  apply Qle_bool_iff in L. congruence.
Qed.

Lemma Qltb_ge a b : Qltb a b = false -> b <= a.
Proof.
  unfold Qltb. intros E. apply negb_false_iff in E. now apply Qle_bool_iff.
Qed.

Lemma Qgtb_gt a b : Qgtb a b = true -> b < a.
Proof. exact (@Qltb_lt b a). Qed.

Lemma Qgtb_le a b : Qgtb a b = false -> a <= b.
Proof. exact (@Qltb_ge b a). Qed.

(** The wrap of one coordinate in [updateFireflies()]. *)
Lemma wrap_within (v extent : Q) :
  0 <= extent ->
  let v2 := if Qltb v (-20) then extent + 20 else v in
  let v3 := if Qgtb v2 (extent + 20) then -20 else v2 in
  -20 <= v3 <= extent + 20.
Proof.
  intros He. cbv zeta.
  destruct (Qltb v (-20)) eqn:E1.
  - destruct (Qgtb (extent + 20) (extent + 20)) eqn:E2.
    + lra.
    + lra.
  - apply Qltb_ge in E1. destruct (Qgtb v (extent + 20)) eqn:E2.
    + lra.
    + apply Qgtb_le in E2. lra.
Qed.

Lemma updateFirefly_within cv fly g :
  0 <= Atmosphere.width cv -> 0 <= Atmosphere.height cv ->
  let fly' := fst (Atmosphere.updateFirefly cv fly g) in
  (-20 <= Atmosphere.x fly' <= Atmosphere.width cv + 20) /\
  (-20 <= Atmosphere.y fly' <= Atmosphere.height cv + 20).
Proof.
  intros Hw Hh. unfold Atmosphere.updateFirefly.
  destruct (random2 (- (5 # 100)) (5 # 100) g) as [turn g1].
  destruct (random g1) as [chance g2].
  match goal with
  | |- context [if Qltb chance ?c then ?a else ?b] =>
      destruct (if Qltb chance c then a else b) as [angle2 g3]
  end.
  cbn [fst Atmosphere.x Atmosphere.y].
  split; apply wrap_within; assumption.
Qed.

Lemma constrain_within n extent :
  0 <= extent -> 0 <= Atmosphere.constrain n 0 extent <= extent.
Proof.
  intros He. unfold Atmosphere.constrain. split.
  - apply Q.le_max_r.
  - apply Q.max_lub; [apply Q.le_min_r | exact He].
Qed.

(** X25.  Particles stay near the canvas.  On a canvas of non-negative
    size, every firefly is within 20 pixels of the canvas after each
    [updateFireflies()], however far a single move took it, and after
    [windowResized()] every firefly and every dust particle lies on the
    canvas. *)
Theorem fireflies_stay_near_the_canvas (cv : Atmosphere.Canvas) :
  0 <= Atmosphere.width cv -> 0 <= Atmosphere.height cv ->
  (forall flies g,
     Forall (fun fly =>
               (-20 <= Atmosphere.x fly <= Atmosphere.width cv + 20) /\
               (-20 <= Atmosphere.y fly <= Atmosphere.height cv + 20))
            (fst (Atmosphere.updateFireflies cv flies g))) /\
  (forall a,
     Forall (fun fly =>
               (0 <= Atmosphere.x fly <= Atmosphere.width cv) /\
               (0 <= Atmosphere.y fly <= Atmosphere.height cv))
            (Atmosphere.fireflies (Atmosphere.windowResized a cv)) /\
     Forall (fun dust =>
               (0 <= Atmosphere.dustX dust <= Atmosphere.width cv) /\
               (0 <= Atmosphere.dustY dust <= Atmosphere.height cv))
            (Atmosphere.dustParticles (Atmosphere.windowResized a cv))).
Proof.
  intros Hw Hh. split.
  - induction flies as [|fly rest IH]; intros g; cbn [Atmosphere.updateFireflies].
    + constructor.
    + pose proof (@updateFirefly_within cv fly g Hw Hh) as Hfly.
      destruct (Atmosphere.updateFirefly cv fly g) as [fly' g1].
      specialize (IH g1).
      destruct (Atmosphere.updateFireflies cv rest g1) as [rest' g2].
      cbn [fst] in *. constructor; assumption.
  - intros a. split; cbn; apply Forall_map; apply Forall_forall; intros v _; cbn;
      split; apply constrain_within; assumption.
Qed.

End Air.

(** ** Wind *)

Section Weather.
Context `{MathEnv}.

Lemma windFrom_spec w height frameCount ps : forall i call,
  In call (Sketch.windFrom w height frameCount i ps) ->
  exists plant body,
    nth_error ps (HandAttractors.onPlant call - i) = Some plant /\
    (i <= HandAttractors.onPlant call)%nat /\
    In (HandAttractors.onBody call) (MatterPhysics.bodies (Plant.physics plant)) /\
    MatterPhysics.getBody (Plant.physics plant) (HandAttractors.onBody call) = Some body /\
    Sketch.windOn w height frameCount body =
      Some (HandAttractors.forceX call, HandAttractors.forceY call).
Proof.
  induction ps as [|plant rest IH]; intros i call; cbn [Sketch.windFrom]; [intros []|].
  rewrite in_app_iff. intros [Hin|Hin].
  - unfold Sketch.windOnPlant in Hin. rewrite in_flat_map in Hin.
    destruct Hin as [r [Hr Hin]].
    destruct (MatterPhysics.getBody (Plant.physics plant) r) as [body|] eqn:Hb;
      [|destruct Hin].
    destruct (Sketch.windOn w height frameCount body) as [[fx fy]|] eqn:Hf;
      [|destruct Hin].
    destruct Hin as [<-|[]]. cbn. exists plant, body.
    rewrite Nat.sub_diag. repeat split; auto.
  - destruct (IH (S i) call Hin) as (plant' & body & Hn & Hle & Hr & Hb & Hf).
    exists plant', body. repeat split; auto; try lia.
    replace (HandAttractors.onPlant call - i)%nat
      with (S (HandAttractors.onPlant call - S i)) by lia.
    exact Hn.
Qed.

Lemma blown_gentle w : blown w -> gentle w.
Proof.
  induction 1 as [|w plants height frameCount g Hw IH Hfair].
  - constructor; cbn; try reflexivity; lra.
  - destruct IH as [A M F T]. unfold Sketch.updateWindEffect.
    rewrite A, M. cbn [negb]. unfold random at 1.
    set (g1 := {| draws := draws g; cursor := S (cursor g) |}).
    destruct (Qltb (draws g (cursor g)) (5 # 10)).
    + unfold Sketch.randomBetween.
      replace (Qgtb (- (25 # 100000)) (25 # 100000)) with false by reflexivity.
      unfold random2, random. cbn [fst].
      pose proof (Hfair (cursor g1)) as Hd. cbn [draws g1] in Hd. subst g1. cbn [draws cursor].
      cbn [draws cursor] in Hd.
      constructor; cbn [Sketch.active Sketch.maxForce Sketch.force Sketch.targetForce];
        try reflexivity; unfold Sketch.lerp; lra.
    + cbn [fst].
      constructor; cbn [Sketch.active Sketch.maxForce Sketch.force Sketch.targetForce];
        try reflexivity; try assumption; unfold Sketch.lerp; lra.
Qed.

(** X26.  The wind is bounded and spares the roots.  With draws in
    [[0, 1)] the wind force and its target never leave
    [[-0.00025, 0.00025]], whatever the number of frames, and every force
    [updateWindEffect()] applies goes to a body that its plant tracks and
    that is not fixed. *)
Theorem wind_is_bounded_and_spares_fixed_bodies (w : Sketch.WindEffect) :
  blown w ->
  Qabs (Sketch.force w) <= 25 # 100000 /\
  Qabs (Sketch.targetForce w) <= 25 # 100000 /\
  forall plants height frameCount g call,
    In call (snd (fst (Sketch.updateWindEffect w plants height frameCount g))) ->
    exists plant body,
      nth_error plants (HandAttractors.onPlant call) = Some plant /\
      In (HandAttractors.onBody call) (MatterPhysics.bodies (Plant.physics plant)) /\
      MatterPhysics.getBody (Plant.physics plant) (HandAttractors.onBody call) = Some body /\
      MatterPhysics.isStatic body = false.
Proof.
  intros Hw. destruct (blown_gentle Hw) as [A M F T].
  split; [apply Qabs_Qle_condition; exact F|].
  split; [apply Qabs_Qle_condition; exact T|].
  intros plants height frameCount g call. unfold Sketch.updateWindEffect.
  rewrite A. cbn [negb].
  destruct (random g) as [chance g1].
  match goal with
  | |- context [if Qltb chance ?c then ?a else ?b] =>
      destruct (if Qltb chance c then a else b) as [target1 g2]
  end.
  cbn [fst snd]. intros Hin.
  destruct (windFrom_spec _ _ _ _ _ _ Hin) as (plant & body & Hn & _ & Hr & Hb & Hf).
  exists plant, body. rewrite Nat.sub_0_r in Hn. repeat split; auto.
  unfold Sketch.windOn in Hf. destruct (MatterPhysics.isStatic body); [discriminate|reflexivity].
Qed.

End Weather.

(** ** Tracking lists and counters *)

Section Tracking.
Context {env : MathEnv} {engine : MatterPhysics.Engine}.

Lemma createParticle_tracked : forall x y m fixed ph,
  tracked ph -> tracked (snd (MatterPhysics.createParticle x y m fixed ph)).
Proof.
  intros x y m fixed ph [B S]. unfold MatterPhysics.createParticle, tracked.
  destruct fixed; cbn; rewrite ?updateAt_length, length_app; cbn [List.length];
    rewrite B, S, Nat.add_1_r, seq_S; split; reflexivity.
Qed.

Lemma createSpring_tracked : forall A B strength restLength from ph,
  tracked ph ->
  tracked (snd (MatterPhysics.createSpring A B strength restLength from ph)).
Proof.
  intros A B strength restLength from ph [Hb Hs]. unfold MatterPhysics.createSpring.
  destruct A as [pa|]; [|split; assumption].
  destruct B as [pb|]; [|split; assumption].
  unfold tracked. cbn. rewrite length_app. cbn [List.length].
  rewrite Hb, Hs, Nat.add_1_r, seq_S. split; reflexivity.
Qed.

Lemma createAngleConstraint_tracked : forall A B C ang strength ph,
  tracked ph ->
  tracked (snd (MatterPhysics.createAngleConstraint A B C ang strength ph)).
Proof.
  intros A B C ang strength ph Ht. unfold MatterPhysics.createAngleConstraint.
  destruct A as [pa|]; [|exact Ht].
  destruct B as [pb|]; [|exact Ht].
  destruct C as [pc|]; [|exact Ht].
  cbv zeta.
  match goal with |- context [if ?c then _ else _] => destruct c end; [exact Ht|].
  apply createSpring_tracked. exact Ht.
Qed.

Lemma annotate_tracked : forall seg sp ph, tracked ph -> tracked (Plant.annotate seg sp ph).
Proof.
  intros seg sp ph [Hb Hs]. unfold tracked, Plant.annotate. cbn.
  rewrite updateAt_length. split; assumption.
Qed.

Lemma setFruitInfo_tracked : forall r info ph,
  tracked ph -> tracked (Plant.setFruitInfo r info ph).
Proof.
  intros r info ph [Hb Hs]. unfold tracked, Plant.setFruitInfo, MatterPhysics.withHeap.
  cbn. rewrite updateAt_length. split; assumption.
Qed.

Lemma engine_tracked : forall ph, tracked ph -> tracked (MatterPhysics.update ph).
Proof.
  intros ph [Hb Hs]. unfold tracked, MatterPhysics.update, MatterPhysics.withHeap. cbn.
  rewrite MatterPhysics.Engine_update_length. split; assumption.
Qed.

Ltac particle_step :=
  cbv beta iota zeta;
  match goal with
  | Ht : tracked ?ph0 |- context [MatterPhysics.createParticle ?x0 ?y0 ?m0 ?f0 ?ph0] =>
      let H0 := fresh "Hp" in
      pose proof (@createParticle_tracked x0 y0 m0 f0 ph0 Ht) as H0;
      destruct (MatterPhysics.createParticle x0 y0 m0 f0 ph0); cbn [snd] in H0
  end; cbv beta iota zeta.

Ltac spring_step :=
  cbv beta iota zeta;
  match goal with
  | Ht : tracked ?ph0 |- context [MatterPhysics.createSpring ?a0 ?b0 ?s0 ?l0 ?f0 ?ph0] =>
      let H1 := fresh "Hs" in
      pose proof (@createSpring_tracked a0 b0 s0 l0 f0 ph0 Ht) as H1;
      destruct (MatterPhysics.createSpring a0 b0 s0 l0 f0 ph0) as [[?|] ?]; cbn [snd] in H1
  end; cbv beta iota zeta.

Lemma setup_tracked : forall p seg,
  tracked (Plant.physics p) -> tracked (Plant.physics (Plant.setupSegmentPhysics p seg)).
Proof.
  intros p seg Ht. unfold Plant.setupSegmentPhysics, Plant.startParticleOf, Plant.endParticleOf.
  destruct (Plant.mapGet (Plant.startKey seg) (Plant.particleMap p)) as [r1|].
  - destruct (Plant.mapGet (Plant.endKey seg) (Plant.particleMap p)) as [r2|].
    + spring_step; plant_fields; [apply annotate_tracked|]; assumption.
    + particle_step. clear Ht.
      spring_step; plant_fields; [apply annotate_tracked|]; assumption.
  - particle_step. clear Ht.
    match goal with
    | |- context [match ?c with Some _ => _ | None => _ end] => destruct c as [r2|]
    end.
    + spring_step; plant_fields; [apply annotate_tracked|]; assumption.
    + particle_step. clear Hp.
      spring_step; plant_fields; [apply annotate_tracked|]; assumption.
Qed.

Lemma fold_tracked : forall X (f : Plant.t -> X -> Plant.t),
  (forall p x, tracked (Plant.physics p) -> tracked (Plant.physics (f p x))) ->
  forall xs p, tracked (Plant.physics p) -> tracked (Plant.physics (fold_left f xs p)).
Proof.
  intros X f Hf. induction xs as [|x xs IH]; intros p Ht; cbn [fold_left].
  - exact Ht.
  - apply IH, Hf, Ht.
Qed.

Lemma constrainPair_tracked : forall common segA p segB,
  tracked (Plant.physics p) ->
  tracked (Plant.physics (Plant.constrainPair common segA p segB)).
Proof.
  intros common segA p segB Ht. unfold Plant.constrainPair.
  destruct (Plant.mapGet (Plant.endKey segA) (Plant.particleMap p)); [|exact Ht].
  destruct (Plant.mapGet (Plant.endKey segB) (Plant.particleMap p)); [|exact Ht].
  plant_fields. apply createAngleConstraint_tracked. exact Ht.
Qed.

Lemma constrainPairs_tracked : forall common group p,
  tracked (Plant.physics p) ->
  tracked (Plant.physics (Plant.constrainPairs common group p)).
Proof.
  intros common. induction group as [|segA rest IH]; intros p Ht; cbn [Plant.constrainPairs].
  - exact Ht.
  - apply IH. apply fold_tracked; [|exact Ht].
    intros. now apply constrainPair_tracked.
Qed.

Lemma addAngleConstraints_tracked : forall p,
  tracked (Plant.physics p) -> tracked (Plant.physics (Plant.addAngleConstraints p)).
Proof.
  intros p Ht. unfold Plant.addAngleConstraints.
  generalize (Plant.groupByStart (Plant.segments p)). intros groups.
  apply fold_tracked; [|exact Ht].
  intros q [k group] Hq.
  destruct (2 <=? List.length group)%nat; [|exact Hq].
  apply constrainPairs_tracked. exact Hq.
Qed.

Lemma addFruit_tracked : forall p fruit,
  tracked (Plant.physics p) -> tracked (Plant.physics (Plant.addFruit p fruit)).
Proof.
  intros p fruit Ht. unfold Plant.addFruit. cbv zeta.
  match goal with |- context [Plant.nearest ?ph ?fx ?fy ?e ?i ?m] =>
    destruct (Plant.nearest ph fx fy e i m) as [n|] end; [|exact Ht].
  particle_step. clear Ht.
  spring_step; plant_fields; apply setFruitInfo_tracked; assumption.
Qed.

Lemma addFruits_tracked : forall p,
  tracked (Plant.physics p) -> tracked (Plant.physics (Plant.addFruits p)).
Proof.
  intros p Ht. unfold Plant.addFruits.
  destruct (Plant.fruits p) as [|fruit rest] eqn:E; [exact Ht|].
  apply fold_tracked; [|exact Ht]. intros. now apply addFruit_tracked.
Qed.

Lemma growPlant_tracked : forall p,
  tracked (Plant.physics p) -> tracked (Plant.physics (Plant.growPlant p)).
Proof.
  intros p Ht. unfold Plant.growPlant. cbv zeta.
  destruct (List.length (Plant.segments p) <=? Plant.lastSegmentIndex p)%nat;
    [exact Ht|].
  match goal with |- context [fold_left Plant.setupSegmentPhysics ?b p] =>
    assert (H1 : tracked (Plant.physics (fold_left Plant.setupSegmentPhysics b p)))
      by (apply fold_tracked; [intros; now apply setup_tracked | exact Ht]);
    generalize dependent (fold_left Plant.setupSegmentPhysics b p)
  end.
  intros p1 H1.
  match goal with |- context [Plant.withProgress p1 ?g ?i ?a ?c ?f] =>
    assert (H2 : tracked (Plant.physics (Plant.withProgress p1 g i a c f))) by exact H1;
    generalize dependent (Plant.withProgress p1 g i a c f)
  end.
  intros p2 H2.
  match goal with |- context [if ?c then ?a else p2] =>
    assert (H3 : tracked (Plant.physics (if c then a else p2)))
      by (destruct c; [plant_fields; now apply addAngleConstraints_tracked | exact H2]);
    generalize dependent (if c then a else p2)
  end.
  intros p3 H3.
  match goal with |- context [if ?c then _ else p3] => destruct c end; [|exact H3].
  plant_fields. now apply addFruits_tracked.
Qed.

Lemma update_tracked : forall p p',
  tracked (Plant.physics p) -> Plant.update p = Normal p' -> tracked (Plant.physics p').
Proof.
  intros p p' Ht. unfold Plant.update. cbv zeta.
  match goal with |- context [Plant.withProgress p ?g ?i ?a ?c ?f] =>
    assert (H1 : tracked (Plant.physics (Plant.withProgress p g i a c f))) by exact Ht;
    generalize dependent (Plant.withProgress p g i a c f)
  end.
  intros p1 H1 E. injection E as <-.
  cbn [Plant.physics Plant.withPhysics]. apply engine_tracked.
  destruct (Plant.growingPhase p1 && Qgtb (Plant.growth p1) (1 # 10)); [|exact H1].
  match goal with |- context [if ?c then _ else _] => destruct c end; [|exact H1].
  now apply growPlant_tracked.
Qed.

Lemma setupInitialRoot_tracked : forall p,
  tracked (Plant.physics p) -> tracked (Plant.physics (Plant.setupInitialRoot p)).
Proof.
  intros p Ht. unfold Plant.setupInitialRoot. cbv zeta. plant_fields.
  apply fold_tracked; [intros; now apply setup_tracked | exact Ht].
Qed.

Lemma new_tracked : forall px py type g p g',
  Plant.new px py type g = Normal (p, g') -> tracked (Plant.physics p).
Proof.
  intros px py type g p g'. unfold Plant.new.
  destruct (String.eqb type "random").
  - destruct (LSystem.createRandomPlant g) as [l g1].
    destruct (random2 3 5 g1) as [th g2].
    destruct (LSystem.process l g2) as [[l' g3]|e]; unfold bind; [|discriminate].
    destruct (random2 (6 # 10) (18 # 10) g3) as [scale g4].
    intros E; injection E as <- <-.
    apply setupInitialRoot_tracked. split; reflexivity.
  - destruct (LSystem.createByType type g) as [l g1].
    destruct (LSystem.process l g1) as [[l' g3]|e]; unfold bind; [|discriminate].
    destruct (random2 (6 # 10) (18 # 10) g3) as [scale g4].
    intros E; injection E as <- <-.
    apply setupInitialRoot_tracked. split; reflexivity.
Qed.

Lemma grown_tracked : forall p, grown p -> tracked (Plant.physics p).
Proof.
  induction 1.
  - eapply new_tracked; eassumption.
  - eapply update_tracked; eassumption.
Qed.

Lemma count_sum : forall (f : Plant.t -> nat) ps a,
  fold_left (fun count plant => (count + f plant)%nat) ps a =
  (a + list_sum (List.map f ps))%nat.
Proof.
  intros f. induction ps as [|p ps IH]; intros a; simpl.
  - lia.
  - rewrite IH. lia.
Qed.

(** X28.  The counters count everything.  A plant of the garden tracks
    every particle and every spring it ever created, once each:
    [getParticleCount()] is the number of particles and
    [getSpringCount()] the number of springs (segment springs, angle
    constraints and fruit springs alike) that the plants of the garden have
    created, and every particle of such a plant is in the list that the wind
    and the hand attraction walk through. *)
Theorem counters_count_everything : forall g,
  tended g ->
  EnhancedGarden.getParticleCount g =
    list_sum (List.map (fun plant =>
                List.length (MatterPhysics.bodyHeap (Plant.physics plant)))
              (EnhancedGarden.plants g)) /\
  EnhancedGarden.getSpringCount g =
    list_sum (List.map (fun plant =>
                List.length (MatterPhysics.springHeap (Plant.physics plant)))
              (EnhancedGarden.plants g)) /\
  forall plant r body,
    In plant (EnhancedGarden.plants g) ->
    MatterPhysics.getBody (Plant.physics plant) r = Some body ->
    In r (MatterPhysics.bodies (Plant.physics plant)).
Proof.
  intros g Ht. destruct (kept_tended Ht) as [_ _ _ _ Gr _].
  rewrite Forall_forall in Gr.
  unfold EnhancedGarden.getParticleCount, EnhancedGarden.getSpringCount.
  rewrite !count_sum. cbn [Nat.add].
  split; [|split].
  - f_equal. apply map_ext_in. intros plant Hin.
    destruct (grown_tracked (Gr plant Hin)) as [Hb _]. rewrite Hb. apply length_seq.
  - f_equal. apply map_ext_in. intros plant Hin.
    destruct (grown_tracked (Gr plant Hin)) as [_ Hs]. rewrite Hs. apply length_seq.
  - intros plant r body Hin Hb.
    destruct (grown_tracked (Gr plant Hin)) as [Ht' _]. rewrite Ht'.
    apply in_seq. split; [lia|]. cbn.
    apply nth_error_Some. unfold MatterPhysics.getBody in Hb. congruence.
Qed.

End Tracking.

(* ================================================================== *)
(** * Part VI. Runs of the extended model                               *)
(* ================================================================== *)

Lemma seedling_new : forall p g,
  seedlingBuilt = Normal (p, g) -> Plant.new 100 500 "simple" balancedRng = Normal (p, g).
Proof. intros p g E. rewrite <- E. exact seedling_built. Qed.

Lemma seedling_planted : forall p g, seedlingBuilt = Normal (p, g) -> grown p.
Proof. intros p g E. eapply grown_new. exact (seedling_new E). Qed.

Lemma deepRun_normal : exists l g, deepRun = Normal (l, g).
Proof. unfold deepRun. do 2 eexists. reflexivity. Qed.

Lemma first_planting : exists plant g rng, firstPlanting = EnhancedGarden.Created plant g rng.
Proof. vm_compute. do 3 eexists. reflexivity. Qed.

(** Witness of X2: the seedling is a plant the program can hold. *)
Lemma growth_state_bounds_witness :
  exists p g,
    seedling = Normal (p, g) /\
    Plant.targetGrowth p = 1 /\
    0 <= Plant.growth p <= Plant.targetGrowth p /\
    (Plant.lastSegmentIndex p <= List.length (Plant.segments p))%nat /\
    Plant.totalSegments p = List.length (Plant.segments p).
Proof.
  rewrite seedling_built. destruct seedlingBuilt_normal as [p [g E]]. rewrite E.
  exists p, g. split; [reflexivity|].
  exact (growth_state_bounds (seedling_reachable E)).
Defined.

(** Witness of X3: the seedling was built by the constructor. *)
Lemma growing_phase_stays_on_witness :
  exists p g,
    seedling = Normal (p, g) /\
    Plant.growingPhase p = true /\
    forall p', Plant.update p = Normal p' -> Plant.growingPhase p' = true.
Proof.
  rewrite seedling_built. destruct seedlingBuilt_normal as [p [g E]]. rewrite E.
  exists p, g. split; [reflexivity|].
  destruct (growing_phase_stays_on (seedling_planted E)) as [Hon Hnext].
  split; [exact Hon|]. intros p' Hp'. exact (proj1 (Hnext p' Hp')).
Defined.

(** Witness of X4: the seedling, updated 34 times and once more for each
    of its segments. *)
Lemma plant_finishes_growing_witness :
  exists p g p',
    seedling = Normal (p, g) /\
    updateTimes (34 + List.length (Plant.segments p)) p = Normal p' /\
    Plant.growth p' == 1 /\
    Plant.lastSegmentIndex p' = List.length (Plant.segments p').
Proof.
  rewrite seedling_built. destruct seedlingBuilt_normal as [p [g E]]. rewrite E.
  destruct (@plant_finishes_growing _ _ 100 500 "simple"%string balancedRng p g
              (34 + List.length (Plant.segments p)) (seedling_new E) (Nat.le_refl _))
    as [p' [Hrun [_ [Hgrowth Hall]]]].
  exists p, g, p'. split; [reflexivity|]. split; [exact Hrun|].
  split; [exact Hgrowth | exact Hall].
Defined.

(** Witness of X5: the seedling, once fully grown, and its next update. *)
Lemma finished_plant_is_frozen_witness :
  exists p g p1 p2,
    seedling = Normal (p, g) /\
    updateTimes (34 + List.length (Plant.segments p)) p = Normal p1 /\
    Plant.update p1 = Normal p2 /\
    Plant.physics p2 = MatterPhysics.update (Plant.physics p1) /\
    Plant.lastSegmentIndex p2 = Plant.lastSegmentIndex p1 /\
    Plant.constraintsAdded p2 = Plant.constraintsAdded p1 /\
    Plant.fruitsAdded p2 = Plant.fruitsAdded p1.
Proof.
  rewrite seedling_built. destruct seedlingBuilt_normal as [p [g E]]. rewrite E.
  destruct (@grows_up _ _ 100 500 "simple"%string balancedRng p g
              (34 + List.length (Plant.segments p)) (seedling_new E) (Nat.le_refl _))
    as [p1 [Hrun [Hgrown [_ [_ Hall]]]]].
  destruct (update_total p1) as [p2 Hp2].
  exists p, g, p1, p2. split; [reflexivity|]. split; [exact Hrun|]. split; [exact Hp2|].
  destruct (finished_plant_is_frozen (grown_reachable Hgrown) Hall Hp2)
    as [Hph [_ [_ [_ [Hidx [Hc Hf]]]]]].
  repeat split; assumption.
Defined.

(** Witness of X6: the seedling has no fruit particle yet. *)
Lemma fruits_attached_once_witness :
  exists p g,
    seedling = Normal (p, g) /\
    (Plant.fruitsAdded p = false -> Plant.fruitParticles p = []) /\
    (Plant.fruitsAdded p = true ->
     List.length (Plant.fruitParticles p) = List.length (Plant.fruits p)).
Proof.
  rewrite seedling_built. destruct seedlingBuilt_normal as [p [g E]]. rewrite E.
  exists p, g. split; [reflexivity|].
  exact (fruits_attached_once (seedling_reachable E)).
Defined.

(** Witness of X7: the garden after its first planting. *)
Lemma garden_within_capacity_witness :
  EnhancedGarden.maxPlants (EnhancedGarden.gardenOf firstPlanting) = 18%nat /\
  (List.length (EnhancedGarden.plants (EnhancedGarden.gardenOf firstPlanting)) <=
   EnhancedGarden.maxPlants (EnhancedGarden.gardenOf firstPlanting))%nat /\
  (forall p, In p (EnhancedGarden.plants (EnhancedGarden.gardenOf firstPlanting)) ->
             grown p).
Proof.
  exact (garden_within_capacity
           (tended_create 100 500 (Some "simple"%string) 1000 balancedRng tended_new)).
Defined.

(** Witness of X9: the first planting is accepted, and the new plant is
    the only one of the garden. *)
Lemma oldest_plant_makes_room_witness :
  exists plant g rng,
    firstPlanting = EnhancedGarden.Created plant g rng /\
    EnhancedGarden.plants g = EnhancedGarden.plants EnhancedGarden.new ++ [plant] /\
    EnhancedGarden.currentTheme g = EnhancedGarden.currentTheme EnhancedGarden.new.
Proof.
  destruct first_planting as [plant [g [rng E]]].
  exists plant, g, rng. split; [exact E|].
  destruct (@oldest_plant_makes_room _ _ _ _ _ _ _ _ _ _ E) as [Hroom [_ [Htheme _]]].
  split; [|exact Htheme]. apply Hroom. simpl. lia.
Defined.

(** Witness of X10: the new garden. *)
Lemma theme_is_always_valid_witness :
  In (EnhancedGarden.currentTheme EnhancedGarden.new)
     ("mixed"%string :: EnhancedGarden.plantTypes EnhancedGarden.new) /\
  EnhancedGarden.currentTheme (cycleTimes 11 EnhancedGarden.new) =
    EnhancedGarden.currentTheme EnhancedGarden.new.
Proof.
  destruct (theme_is_always_valid (g := EnhancedGarden.new) tended_new)
    as [Hin [_ [Hcycle _]]].
  split; [exact Hin | exact Hcycle].
Defined.

(** Witness of X11: the grammar of the first scenario has one plain
    rule. *)
Lemma plain_grammar_is_deterministic_witness :
  plainRules (LSystem.oneRule "F" "FF+[+F]-[-F]") /\
  snd (LSystem.iterate (LSystem.oneRule "F" "FF+[+F]-[-F]") 2 "F" (constantRng 0)) =
    constantRng 0.
Proof.
  assert (Hplain : plainRules (LSystem.oneRule "F" "FF+[+F]-[-F]")).
  { intros c. unfold LSystem.oneRule. destruct (LSystem.isChar c "F"); exact I. }
  split; [exact Hplain|].
  exact (proj1 (plain_grammar_is_deterministic 2 "F" (constantRng 0) Hplain)).
Defined.

(** Witness of X12: a draw of one quarter is below the first weight, one
    half, and picks the first replacement. *)
Lemma weighted_rule_choice_witness :
  coinRules "F"%char =
    Some (LSystem.RWeighted [("FF"%string, 1 # 2); ("F[+F]"%string, 1 # 2)]) /\
  fst (LSystem.rewriteSymbol coinRules "F" (constantRng (1 # 4))) = "FF"%string /\
  snd (LSystem.rewriteSymbol coinRules "F" (constantRng (1 # 4))) =
    snd (random (constantRng (1 # 4))).
Proof.
  split; [reflexivity|].
  destruct (@weighted_rule_choice coinRules "F"%char _ (constantRng (1 # 4)) eq_refl)
    as [Hdraw [_ [Hfirst _]]].
  split; [|exact Hdraw].
  apply (Hfirst "FF"%string (1 # 2) [("F[+F]"%string, 1 # 2)] eq_refl). reflexivity.
Defined.

(** Witness of X13: the turtle's run on twelve pushes and one stroke. *)
Lemma turtle_counts_symbols_witness :
  exists l g,
    LSystem.process (fst (LSystem.new deepConfig (constantRng 0)))
                    (snd (LSystem.new deepConfig (constantRng 0))) = Normal (l, g) /\
    List.length (LSystem.segments l) =
      (occurs "F" (LSystem.production (fst (LSystem.new deepConfig (constantRng 0)))) +
       occurs "G" (LSystem.production (fst (LSystem.new deepConfig (constantRng 0)))))%nat.
Proof.
  rewrite deep_run. destruct deepRun_normal as [l [g E]]. rewrite E.
  exists l, g. split; [reflexivity|].
  exact (proj1 (turtle_counts_symbols _ _ (eq_trans deep_run E))).
Defined.

(** Witness of X14: the branch [[F]] from the start state of the default
    grammar. *)
Lemma bracket_restores_pose_witness :
  balancedFrom "F" 0 = true /\
  exists s',
    LSystem.walk (fst (LSystem.new emptyConfig (constantRng 0)))
      (LSystem.start (fst (LSystem.new emptyConfig (constantRng 0))) (constantRng 0)) "[F]"
    = Normal s' /\
    LSystem.x s' = 0 /\ LSystem.y s' = 0 /\ LSystem.stack s' = [].
Proof.
  split; [reflexivity|].
  destruct (walk_normal (fst (LSystem.new emptyConfig (constantRng 0))) "[F]"
              (LSystem.start (fst (LSystem.new emptyConfig (constantRng 0))) (constantRng 0))
              eq_refl) as [s' Hs'].
  exists s'. split; [exact Hs'|].
  destruct (bracket_restores_pose _ "F" _ eq_refl Hs') as [Hx [Hy [_ [_ [_ [Hst _]]]]]].
  split; [exact Hx|]. split; [exact Hy | exact Hst].
Defined.

(** Witness of X15: with every draw 0 and the default fruit probability,
    the run on twelve pushes and one stroke collects no fruit. *)
Lemma fruit_probability_extremes_witness :
  (forall i, 0 <= draws (snd (LSystem.new deepConfig (constantRng 0))) i < 1) /\
  exists l g,
    LSystem.process (fst (LSystem.new deepConfig (constantRng 0)))
                    (snd (LSystem.new deepConfig (constantRng 0))) = Normal (l, g) /\
    LSystem.fruits l = [].
Proof.
  assert (Hfair : forall i, 0 <= draws (snd (LSystem.new deepConfig (constantRng 0))) i < 1).
  { intros i. change (0 <= 0 < 1). lra. }
  split; [exact Hfair|].
  rewrite deep_run. destruct deepRun_normal as [l [g E]]. rewrite E.
  exists l, g. split; [reflexivity|].
  destruct (fruit_probability_extremes _ _ Hfair (eq_trans deep_run E)) as [Hnone _].
  apply Hnone. vm_compute. discriminate.
Defined.

(** Witness of X20: a hand whose tips are five pixels apart is a pinch for
    the gesture detector, and so for the attractors. *)
Lemma gesture_pinch_is_an_attractor_pinch_witness :
  HandGestures.pinch (fst (HandGestures.update HandGestures.new (Some pinchingHand) 0)) = true /\
  HandAttractors.isPinching
    (HandInput.pinchState
       (HandInput.state
          (HandInput.update (HandInput.new EnhancedGarden.new 800) EnhancedGarden.new
             [pinchingHand] 600 0 0 0 (constantRng 0)))) = true.
Proof.
  assert (Hpinch : HandGestures.pinch
            (fst (HandGestures.update HandGestures.new (Some pinchingHand) 0)) = true)
    by (vm_compute; reflexivity).
  split; [exact Hpinch|].
  exact (@gesture_pinch_is_an_attractor_pinch _ HandGestures.new 0
           (HandInput.new EnhancedGarden.new 800) EnhancedGarden.new pinchingHand []
           600 0 0 0 (constantRng 0) {| Hand.x := 0; Hand.y := 0 |}
           {| Hand.x := 3; Hand.y := 4 |} eq_refl eq_refl eq_refl Hpinch).
Defined.

(** Witness of X21: the object as the constructor leaves it. *)
Lemma attraction_force_is_bounded_witness :
  (1 # 10000 <=
     HandAttractors.attractionStrength
       (HandInput.pinchState (HandInput.new EnhancedGarden.new 800)) <= 5 # 10) /\
  HandAttractors.maxForce (HandInput.pinchState (HandInput.new EnhancedGarden.new 800)) =
    1 # 10.
Proof.
  destruct (attraction_force_is_bounded (tuned_new EnhancedGarden.new 800))
    as [Hs [_ [Hm _]]].
  split; [exact Hs | exact Hm].
Defined.

(** Witness of X23: the atmosphere as the constructor leaves it. *)
Lemma atmosphere_population_is_bounded_witness :
  (30 <= List.length (Atmosphere.fireflies (fst (Atmosphere.new canvas (constantRng 0))))
      <= 40)%nat /\
  (500 <= List.length (Atmosphere.dustParticles (fst (Atmosphere.new canvas (constantRng 0))))
       <= 550)%nat.
Proof.
  exact (atmosphere_population_is_bounded (aired_new canvas (constantRng 0))).
Defined.

(** Witness of X24: the dust of the new atmosphere. *)
Lemma dust_never_ages_witness :
  Forall (fun d => Atmosphere.age d = 0 \/ Atmosphere.age d = 1)
         (Atmosphere.dustParticles (fst (Atmosphere.new canvas (constantRng 0)))).
Proof.
  exact (proj1 (dust_never_ages (aired_new canvas (constantRng 0)))).
Defined.

(** Witness of X25: a canvas of 800 by 600 pixels. *)
Lemma fireflies_stay_near_the_canvas_witness :
  0 <= Atmosphere.width canvas /\ 0 <= Atmosphere.height canvas /\
  forall flies g,
    Forall (fun fly =>
              (-20 <= Atmosphere.x fly <= Atmosphere.width canvas + 20) /\
              (-20 <= Atmosphere.y fly <= Atmosphere.height canvas + 20))
           (fst (Atmosphere.updateFireflies canvas flies g)).
Proof.
  assert (Hw : 0 <= Atmosphere.width canvas) by (simpl; lra).
  assert (Hh : 0 <= Atmosphere.height canvas) by (simpl; lra).
  split; [exact Hw|]. split; [exact Hh|].
  exact (proj1 (fireflies_stay_near_the_canvas canvas Hw Hh)).
Defined.

(** Witness of X26: the wind before its first frame. *)
Lemma wind_is_bounded_and_spares_fixed_bodies_witness :
  Qabs (Sketch.force Sketch.windEffect) <= 25 # 100000 /\
  Qabs (Sketch.targetForce Sketch.windEffect) <= 25 # 100000.
Proof.
  destruct (wind_is_bounded_and_spares_fixed_bodies blown_start) as [Hf [Ht _]].
  split; [exact Hf | exact Ht].
Defined.

(** Witness of X28: the garden after its first planting. *)
Lemma counters_count_everything_witness :
  EnhancedGarden.getParticleCount (EnhancedGarden.gardenOf firstPlanting) =
    list_sum (List.map (fun plant =>
                List.length (MatterPhysics.bodyHeap (Plant.physics plant)))
              (EnhancedGarden.plants (EnhancedGarden.gardenOf firstPlanting))).
Proof.
  exact (proj1 (counters_count_everything
                  (tended_create 100 500 (Some "simple"%string) 1000 balancedRng
                     tended_new))).
Defined.
